(** * bndl: scheduler, peer table and block manager

    A shallow embedding of three parts of the bndl sources and the
    properties the specification states about them:

    - [Blocks]: [bndl/rmi/blocks.py], the [BlockManager] mix-in
      ([serve_data], [serve_blocks], [_next_download], [_download],
      [get_blocks]);
    - [Job]: [bndl/execute/job.py], [Stage._execute_eagerly], [Task] and
      [Job.execute];
    - [Node]: [bndl/net/node.py], [_start_server], [_start_tcp_server] and
      [_peer_connected].

    Python objects become records, dictionaries become [gmap]s (or
    association lists where the insertion order is observable), exceptions
    become the [Raise] case of [result], and everything the code obtains
    from outside (remote calls, [random.choice], the operating system, the
    completion of futures) is an explicit argument. *)

From Stdlib Require Import ZArith Lia.
From stdpp Require Import base numbers list option strings gmap pretty.

Open Scope Z_scope.
Open Scope nat_scope.

(** ** Python exceptions

    The classes the embedded code raises or catches. [ConfigurationError]
    is the class named by the specification's error taxonomy; no code path
    embedded below constructs it. *)
Inductive exn : Type :=
| AssertionError
| KeyError (key : string)
| IndexError
| ValueError (msg : string)
| OSError (errno : nat)
| InvocationException (cause : string)
| ConfigurationError (msg : string).

Inductive result (A : Type) : Type :=
| Ok (a : A)
| Raise (e : exn).
Arguments Ok {A} a.
Arguments Raise {A} e.

#[global] Instance result_ret : MRet result := λ A a, Ok a.
#[global] Instance result_bind : MBind result := λ A B k r,
  match r with
  | Ok a => k a
  | Raise e => Raise e
  end.

#[global] Instance exn_eq_dec : EqDecision exn.
Proof. solve_decision. Defined.

(** ** Peers

    [PeerNode] lives in [bndl/net/peer.py]; the fields kept are the ones the
    embedded code reads. *)
Record PeerNode : Type := mkPeer {
  name : string;
  node_type : string;
  ip_addresses : list string;
  conn : nat;             (* identity of the underlying connection *)
  is_connected : bool;
  tiebreak : nat          (* see [peer_lt] *)
}.

#[global] Instance PeerNode_eq_dec : EqDecision PeerNode.
Proof. solve_decision. Defined.

(** Modelled from the spec: [PeerNode.__lt__] of [bndl/net/peer.py], the
    comparison behind [known_peer < peer] and behind the ordering of lists
    of peers. The specification: "compare a totally ordered tiebreak key
    [...] the lower key loses and is disconnected". In [_peer_connected]
    the connecting peer is the one disconnected when [known_peer < peer]
    holds, so [a < b] holds when the key of [b] is the lower one. The key
    is kept as a number carried by the record. The specification has the
    keys totally ordered: statements that depend on two peers being
    comparable assume that they carry different keys. *)
Definition peer_lt (p q : PeerNode) : bool := bool_decide (tiebreak q < tiebreak p).

(** Python's [x or y] on an optional list: [None] and the empty list are
    both falsy. *)
Definition py_or {A} (x : option (list A)) (y : list A) : list A :=
  match x with
  | Some (a :: l) => a :: l
  | _ => y
  end.

(** [random.choice(l)]: the generator's next draw is the argument [r];
    an empty sequence raises [IndexError]. *)
Definition random_choice {A} (r : nat) (l : list A) : result A :=
  match l !! (r mod length l) with
  | Some a => Ok a
  | None => Raise IndexError
  end.

(** [l.remove(x)]: drops the first element equal to [x]. *)
Fixpoint list_remove_first {A} `{EqDecision A} (x : A) (l : list A) : list A :=
  match l with
  | [] => []
  | y :: l' => if decide (x = y) then l' else y :: list_remove_first x l'
  end.

Module Blocks.

Abbreviation bytes := (list Byte.byte).

Record BlockSpec : Type := mkBlockSpec {
  seeder : string;
  spec_name : string;
  num_blocks : nat
}.

(** The state of the mix-in: [self.name] (from the node it is mixed in
    with), the cache of blocks by name (a slot is [None] while its block is
    still to be downloaded) and the availability events by name (the
    boolean is the event's flag). *)
Record BlockManager : Type := mkBlockManager {
  self_name : string;
  _blocks_cache : gmap string (list (option bytes));
  _available_events : gmap string bool
}.

(** [data[lo:hi]] and [data[lo:]] for [0 <= lo]. *)
Definition py_slice {A} (data : list A) (lo hi : Z) : list A :=
  take (Z.to_nat (hi - lo)) (drop (Z.to_nat lo) data).
Definition py_slice_from {A} (data : list A) (lo : Z) : list A :=
  drop (Z.to_nat lo) data.

(** [math.ceil(a / b)]: the ceiling of the true quotient. The float
    division of the source is exact on the quotients that occur for
    lengths below [2^52]; it is taken as the rational quotient. *)
Definition py_ceil_div (a b : Z) : Z := (- ((- a) `div` b))%Z.

(** The body of [for _ in range(parts)] in [serve_data], threading
    [blocks] and [offset]. *)
Fixpoint slice_loop (n : nat) (data : bytes) (step offset : Z)
    (blocks : list bytes) : list bytes * Z :=
  match n with
  | O => (blocks, offset)
  | S n' =>
      slice_loop n' data step (offset + step)%Z
        (blocks ++ [py_slice data offset (offset + step)])
  end.

(** The list [blocks] that [serve_data] hands to [serve_blocks]. *)
Definition split_data (data : bytes) (block_size : Z) : list bytes :=
  let length := Z.of_nat (length data) in
  if decide (length > block_size)%Z then
    let parts := ((length - 1) `quot` block_size)%Z in   (* int(...): truncation *)
    let step := py_ceil_div length (parts + 1) in
    let '(blocks, offset) := slice_loop (Z.to_nat parts) data step 0 [] in
    blocks ++ [py_slice_from data offset]
  else [data].

Definition serve_blocks (name : string) (blocks : list (option bytes))
    (self : BlockManager) : BlockSpec * BlockManager :=
  let block_spec := mkBlockSpec (self_name self) name (length blocks) in
  (block_spec,
   mkBlockManager (self_name self)
     (<[name := blocks]> (_blocks_cache self))
     (<[name := true]> (_available_events self))).

Definition serve_data (name : string) (data : bytes) (block_size : Z)
    (self : BlockManager) : result (BlockSpec * BlockManager) :=
  if decide (block_size > 0)%Z then
    Ok (serve_blocks name (Some <$> split_data data block_size) self)
  else Raise AssertionError.

(** *** Downloading

    What a download obtains from outside: the peer table, the node's own
    IP addresses, and per iteration [round] of the loop in [_download] the
    availability responses that arrive before [AVAILABILITY_TIMEOUT] (in
    completion order, each the returned list of indices or an exception),
    the outcome of [source._get_block(name, idx).result().block], and the
    draws of [random.choice]. *)
Record Env : Type := mkEnv {
  peers : gmap string PeerNode;
  local_ips : list string;
  responses : nat → list (PeerNode * result (list nat));
  get_block_rpc : nat → PeerNode → string → nat → result bytes;
  draw : nat → nat → nat
}.

(** Modelled from the spec: [PeerTable.filter] of [bndl/net/peer.py], as
    it is called in [self.peers.filter(node_type='worker')]: the
    availability query goes "to every worker peer (not every peer -
    node_type == worker)". *)
Definition worker_peers (env : Env) : list PeerNode :=
  filter (λ p, node_type p = "worker") (snd <$> map_to_list (peers env)).

(** [availability[idx].append(worker)] on a [defaultdict(list)]; the
    dictionary is kept in insertion order. *)
Fixpoint availability_append (idx : nat) (worker : PeerNode)
    (availability : list (nat * list PeerNode)) : list (nat * list PeerNode) :=
  match availability with
  | [] => [(idx, [worker])]
  | (i, ws) :: rest =>
      if decide (i = idx) then (i, ws ++ [worker]) :: rest
      else (i, ws) :: availability_append idx worker rest
  end.

(** [for idx in available_request.result(): if blocks[idx] is None: ...];
    an index outside [blocks] raises [IndexError], which the enclosing
    [except Exception] catches: the rest of that response is dropped. *)
Fixpoint record_response (blocks : list (option bytes)) (worker : PeerNode)
    (idxs : list nat) (availability : list (nat * list PeerNode))
    : list (nat * list PeerNode) :=
  match idxs with
  | [] => availability
  | idx :: rest =>
      match blocks !! idx with
      | None => availability
      | Some None =>
          record_response blocks worker rest (availability_append idx worker availability)
      | Some (Some _) => record_response blocks worker rest availability
      end
  end.

Definition collect_availability (env : Env) (round : nat)
    (blocks : list (option bytes)) : list (nat * list PeerNode) :=
  fold_left
    (λ availability '(worker, response),
       if decide (worker ∈ worker_peers env) then
         match response with
         | Ok idxs => record_response blocks worker idxs availability
         | Raise _ => availability
         end
       else availability)
    (responses env round) [].

(** [<] on lists of peers, as Python compares lists: the first position
    where the elements differ decides, a proper prefix is smaller. *)
Fixpoint py_list_lt (l1 l2 : list PeerNode) : bool :=
  match l1, l2 with
  | [], [] => false
  | [], _ :: _ => true
  | _ :: _, [] => false
  | x :: l1', y :: l2' =>
      if decide (x = y) then py_list_lt l1' l2' else peer_lt x y
  end.

(** [sorted(items, key=itemgetter(1), reverse=True)]: a stable sort in
    descending order of the second component. Python's result is fixed by
    this description where [<] orders the keys at hand, which it does
    when the peers in them carry different tiebreak keys ([distinct_keys]
    below); for peers that [<] leaves unordered the result depends on the
    sorting algorithm, and the insertion sort below is then only one
    possible outcome. *)
Fixpoint insert_desc (x : nat * list PeerNode) (l : list (nat * list PeerNode))
    : list (nat * list PeerNode) :=
  match l with
  | [] => [x]
  | y :: l' => if py_list_lt y.2 x.2 then x :: y :: l' else y :: insert_desc x l'
  end.
Definition sorted_by_workers_desc (items : list (nat * list PeerNode))
    : list (nat * list PeerNode) :=
  fold_left (λ acc x, insert_desc x acc) items [].

(** The peers in the worker lists are told apart by their tiebreak keys:
    the specification's "totally ordered tiebreak key". *)
Definition distinct_keys (items : list (nat * list PeerNode)) : Prop :=
  ∀ entry entry' p q,
    entry ∈ items → entry' ∈ items → p ∈ entry.2 → q ∈ entry'.2 →
    tiebreak p = tiebreak q → p = q.

(** [[idx for idx, block in enumerate(blocks) if block is None]] *)
Definition remaining (blocks : list (option bytes)) : list nat :=
  (fst <$> filter (λ ib, ib.2 = None) (imap (λ i b, (i, b)) blocks)).

Definition peers_getitem (env : Env) (key : string) : result PeerNode :=
  match peers env !! key with
  | Some p => Ok p
  | None => Raise (KeyError key)
  end.

Definition _next_download (env : Env) (round : nat) (block_spec : BlockSpec)
    (self : BlockManager) : result (nat * list PeerNode) :=
  match _blocks_cache self !! spec_name block_spec with
  | None => Raise (KeyError (spec_name block_spec))
  | Some blocks =>
      let availability := collect_availability env round blocks in
      match sorted_by_workers_desc availability with
      | item :: _ => Ok item
      | [] =>
          block_idx ← random_choice (draw env round 0) (remaining blocks);
          sp ← peers_getitem env (seeder block_spec);
          Ok (block_idx, [sp])
      end
  end.

(** [bool(c.ip_addresses & local_ips)] *)
Definition is_local (env : Env) (c : PeerNode) : bool :=
  bool_decide (Exists (λ ip, ip ∈ local_ips env) (ip_addresses c)).

(** Modelled from the spec: [split] of [bndl/util/collection.py], as it is
    called on the candidates: they "are then split into local (shares at
    least one IP with this node) and remote". The pair is
    [(candidates[True], candidates[False])]. *)
Definition split_candidates (env : Env) (candidates : list PeerNode)
    : list PeerNode * list PeerNode :=
  (filter (λ c, is_local env c = true) candidates,
   filter (λ c, is_local env c = false) candidates).

(** The [while local or remote] loop of [_download]: [Some b] when a
    candidate delivered the block (the [break]), [None] when the loop ran
    to its [else]. Each pass removes one candidate, so [fuel] passes are
    enough when [fuel] is the number of candidates. *)
Fixpoint try_candidates (fuel : nat) (fetch : PeerNode → result bytes)
    (rnd : nat → nat) (k : nat) (local remote : list PeerNode) : option bytes :=
  match fuel with
  | O => None
  | S fuel' =>
      match local, remote with
      | [], [] => None
      | _ :: _, _ =>
          match random_choice (rnd k) local with
          | Ok source =>
              match fetch source with
              | Ok b => Some b
              | Raise _ =>
                  try_candidates fuel' fetch rnd (S k)
                    (list_remove_first source local) remote
              end
          | Raise _ => None
          end
      | [], _ :: _ =>
          match random_choice (rnd k) remote with
          | Ok source =>
              match fetch source with
              | Ok b => Some b
              | Raise _ =>
                  try_candidates fuel' fetch rnd (S k)
                    local (list_remove_first source remote)
              end
          | Raise _ => None
          end
      end
  end.

(** [blocks[idx] = block], where [blocks] is the very list stored in the
    cache under [name]. *)
Definition store_block (name : string) (idx : nat) (block : bytes)
    (self : BlockManager) : result BlockManager :=
  match _blocks_cache self !! name with
  | None => Raise (KeyError name)
  | Some blocks =>
      if decide (idx < length blocks) then
        Ok (mkBlockManager (self_name self)
              (<[name := <[idx := Some block]> blocks]> (_blocks_cache self))
              (_available_events self))
      else Raise IndexError
  end.

(** One pass of [for _ in blocks] in [_download]. *)
Definition download_iteration (env : Env) (block_spec : BlockSpec) (round : nat)
    (self : BlockManager) : result BlockManager :=
  let name := spec_name block_spec in
  '(idx, candidates) ← _next_download env round block_spec self;
  let '(local, remote) := split_candidates env candidates in
  let fetch := λ source, get_block_rpc env round source name idx in
  match try_candidates (length local + length remote) fetch
          (λ k, draw env round (S k)) 0 local remote with
  | Some block => store_block name idx block self
  | None =>
      sp ← peers_getitem env (seeder block_spec);
      block ← fetch sp;
      store_block name idx block self
  end.

(** The loop of [_download], with the states reached after each pass. *)
Fixpoint download_loop (env : Env) (block_spec : BlockSpec) (n round : nat)
    (self : BlockManager) : list BlockManager * result BlockManager :=
  match n with
  | O => ([], Ok self)
  | S n' =>
      match download_iteration env block_spec round self with
      | Ok self' =>
          let '(trace, r) := download_loop env block_spec n' (S round) self' in
          (self' :: trace, r)
      | Raise e => ([], Raise e)
      end
  end.

(** [_download]: the states of the manager from the moment the empty
    slots are stored in the cache, and the final outcome. *)
Definition _download (env : Env) (block_spec : BlockSpec) (self : BlockManager)
    : list BlockManager * result BlockManager :=
  if decide (seeder block_spec ≠ self_name self) then
    let blocks := replicate (num_blocks block_spec) (@None bytes) in
    let self0 :=
      mkBlockManager (self_name self)
        (<[spec_name block_spec := blocks]> (_blocks_cache self))
        (_available_events self) in
    let '(trace, r) := download_loop env block_spec (length blocks) 0 self0 in
    (self0 :: trace, r)
  else ([], Raise AssertionError).

Definition set_event (name : string) (flag : bool) (self : BlockManager) : BlockManager :=
  mkBlockManager (self_name self) (_blocks_cache self)
    (<[name := flag]> (_available_events self)).

Definition cache_getitem (self : BlockManager) (name : string)
    : result (list (option bytes)) :=
  match _blocks_cache self !! name with
  | Some blocks => Ok blocks
  | None => Raise (KeyError name)
  end.

(** The outcome of [get_blocks]: the call returns or raises, or it waits
    on the event of a download that another caller has not finished. *)
Inductive get_outcome : Type :=
| Returned (blocks : list (option bytes)) (self : BlockManager)
| Raised (e : exn)
| Waiting.

(** [get_blocks], with the states the manager goes through while the
    download runs. *)
Definition get_blocks (env : Env) (block_spec : BlockSpec) (self : BlockManager)
    : list BlockManager * get_outcome :=
  let name := spec_name block_spec in
  match _available_events self !! name with
  | Some flag =>
      (* in_progress: available.wait() *)
      if (flag : bool) then
        match cache_getitem self name with
        | Ok blocks => ([], Returned blocks self)
        | Raise e => ([], Raised e)
        end
      else ([], Waiting)
  | None =>
      let self1 := set_event name false self in
      match _download env block_spec self1 with
      | (trace, Ok self2) =>
          let self3 := set_event name true self2 in
          match cache_getitem self3 name with
          | Ok blocks => (trace ++ [self3], Returned blocks self3)
          | Raise e => (trace ++ [self3], Raised e)
          end
      | (trace, Raise e) => (trace, Raised e)
      end
  end.

(** *** Notions used to state the properties *)

(** The number of slots still empty. *)
Definition missing (blocks : list (option bytes)) : nat :=
  length (filter (λ b, b = None) blocks).

(** The cache entry for the name of [block_spec] has [num_blocks] slots. *)
Definition entry_sized (block_spec : BlockSpec) (self : BlockManager) : Prop :=
  ∃ blocks, _blocks_cache self !! spec_name block_spec = Some blocks ∧
            length blocks = num_blocks block_spec.

(** *** Serving peers and removing blocks *)

(** The two [with catch(KeyError): del ...] statements shared by
    [remove_blocks] and [_remove_blocks]: a missing entry is tolerated. *)
Definition forget_blocks (name : string) (self : BlockManager) : BlockManager :=
  mkBlockManager (self_name self)
    (delete name (_blocks_cache self)) (delete name (_available_events self)).

(** [_remove_blocks(peer, name)], the handler of the removal call. *)
Definition _remove_blocks (name : string) (self : BlockManager) : BlockManager :=
  forget_blocks name self.

(** Modelled from the spec: [PeerTable.filter] of [bndl/net/peer.py]
    without arguments, as [remove_blocks] calls it: the removal goes "to
    every current peer". *)
Definition all_peers (env : Env) : list PeerNode :=
  snd <$> map_to_list (peers env).

(** [remove_blocks(name, from_peers)]: the manager afterwards and the peers
    that are sent [_remove_blocks(name)] (their answers are not awaited). *)
Definition remove_blocks (env : Env) (name : string) (from_peers : bool)
    (self : BlockManager) : BlockManager * list PeerNode :=
  (forget_blocks name self, if from_peers then all_peers env else []).

(** [_get_block(peer, name, idx)]: the [_Block(idx, block)] handed to the
    serializer. *)
Definition _get_block (name : string) (idx : nat) (self : BlockManager)
    : result (nat * option bytes) :=
  blocks ← cache_getitem self name;
  match blocks !! idx with
  | Some block => Ok (idx, block)
  | None => Raise IndexError
  end.

(** [_get_blocks_available(peer, name)] *)
Definition _get_blocks_available (name : string) (self : BlockManager) : list nat :=
  match _blocks_cache self !! name with
  | None => []
  | Some blocks =>
      fst <$> filter (λ ib, ib.2 ≠ None) (imap (λ i b, (i, b)) blocks)
  end.

(** The manager as a call of [get_blocks] leaves it, also when the call
    raises: the event registered by the call stays, and so does whatever
    the download had stored when the exception came. *)
Definition manager_after (env : Env) (block_spec : BlockSpec) (self : BlockManager)
    : BlockManager :=
  match get_blocks env block_spec self with
  | (_, Returned _ self') => self'
  | (trace, _) =>
      match _available_events self !! spec_name block_spec with
      | Some _ => self
      | None => default (set_event (spec_name block_spec) false self) (last trace)
      end
  end.

(** Every worker listed under an index of [availability] is a worker peer
    whose response named that index. *)
Definition advertised (env : Env) (round : nat) (entry : nat * list PeerNode) : Prop :=
  ∀ worker, worker ∈ entry.2 →
    worker ∈ worker_peers env ∧
    ∃ idxs, (worker, Ok idxs) ∈ responses env round ∧ entry.1 ∈ idxs.

(** The filled slots of [blocks] hold the blocks [content] names. *)
Definition agrees (content : nat → bytes) (blocks : list (option bytes)) : Prop :=
  ∀ idx block, blocks !! idx = Some (Some block) → block = content idx.

End Blocks.

Module Job.

(** Modelled from the spec: [Lifecycle] of [bndl/util/lifecycle.py], the
    base class of [Job], [Stage] and [Task]. The specification gives the
    lifecycle states new, running, cancelled and stopped and the start and
    stop signals; [signal_start] and [signal_stop] record the signal and
    move the state, [running] holds between the two. *)
Inductive signal : Type := Start | Stop.

Record Lifecycle : Type := mkLifecycle {
  started : bool;
  stopped : bool;
  cancelled : bool;
  signals : list signal
}.

Definition new_lifecycle : Lifecycle := mkLifecycle false false false [].
Definition signal_start (l : Lifecycle) : Lifecycle :=
  mkLifecycle true (stopped l) (cancelled l) (signals l ++ [Start]).
Definition signal_stop (l : Lifecycle) : Lifecycle :=
  mkLifecycle (started l) true (cancelled l) (signals l ++ [Stop]).
Definition running (l : Lifecycle) : bool :=
  started l && negb (stopped l) && negb (cancelled l).
Definition cancel (l : Lifecycle) : Lifecycle :=
  mkLifecycle (started l) (stopped l) true (signals l).

(** [Task]: the fields the scheduler reads. The method and its arguments
    only travel to the worker; what the worker answers is the outcome
    carried by the [Complete] event below. *)
Record Task : Type := mkTask {
  task_id : nat;
  preferred_workers : option (list PeerNode);
  allowed_workers : option (list PeerNode)
}.

Section Eager.
Context {V : Type}.

(** [task.future]: pending on a worker, or done with the value or the
    exception that [future.result()] delivers. *)
Inductive Future : Type :=
| Running (worker : PeerNode)
| Done (outcome : result V).

(** Where the generator [Stage._execute_eagerly] stands: at the head of
    the [while] loop, at the comment [# yield available results], returned,
    or left by an exception. *)
Inductive position : Type :=
| AtSchedule
| AtYield
| Returned
| Raised (e : exn).

(** The locals of [_execute_eagerly]. A task object is the pair of its
    index in [self.tasks] and its fields; [futures] holds the attribute
    [future] of each task object, which [to_schedule] and [to_yield] both
    refer to. Python lists are kept in Python's order: [pop()] takes the
    last element, [insert(0, x)] adds a first one. [yielded] collects the
    values handed to the consumer.

    The callback [task_done(worker)] runs in the thread that completes the
    future, statement by statement: [releasing] holds the workers whose
    callback is due ([workers_available.release()] is its next statement),
    [removing] those whose callback stands between [release()] and
    [occupied.remove(worker)]. *)
Record Eager : Type := mkEager {
  occupied : list PeerNode;
  workers_available : nat;
  to_schedule : list (nat * Task);
  to_yield : list (nat * Task);
  task_counts : list string;
  futures : list (option Future);
  yielded : list V;
  at_ : position;
  releasing : list PeerNode;
  removing : list PeerNode
}.

Definition py_pop {A} (l : list A) : option (list A * A) :=
  match reverse l with
  | [] => None
  | x :: r => Some (reverse r, x)
  end.

Definition set_add (w : PeerNode) (s : list PeerNode) : list PeerNode :=
  if decide (w ∈ s) then s else w :: s.

(** The task objects of [self.tasks], each with its index. *)
Definition objects (tasks : list Task) : list (nat * Task) :=
  imap (λ i t, (i, t)) tasks.

(** [to_schedule = self.tasks[::-1]], [to_yield = to_schedule[:]]. *)
Definition init (tasks : list Task) (workers : list PeerNode) : Eager :=
  let to_schedule := reverse (objects tasks) in
  mkEager [] (length workers) to_schedule to_schedule []
    (replicate (length tasks) None) [] AtSchedule [] [].

(** The [for worker in chain.from_iterable(...)] scan: the first worker of
    the preferred, then of the allowed (or all) workers that is not
    occupied. *)
Definition choose_worker (workers : list PeerNode) (task : Task)
    (occupied : list PeerNode) : option PeerNode :=
  snd <$> list_find (λ w, w ∉ occupied)
            (py_or (preferred_workers task) [] ++ py_or (allowed_workers task) workers).

(** From [while to_yield:] to the comment [# yield available results].
    [None]: [workers_available.acquire()] has no permit and blocks. *)
Definition schedule_phase (workers : list PeerNode) (s : Eager) : option Eager :=
  match to_yield s with
  | [] =>
      Some (mkEager (occupied s) (workers_available s) (to_schedule s) (to_yield s)
              (task_counts s) (futures s) (yielded s) Returned (releasing s) (removing s))
  | _ :: _ =>
      match py_pop (to_schedule s) with
      | None =>
          Some (mkEager (occupied s) (workers_available s) (to_schedule s) (to_yield s)
                  (task_counts s) (futures s) (yielded s) AtYield (releasing s) (removing s))
      | Some (rest, (i, task)) =>
          match workers_available s with
          | O => None
          | S permits =>
              match choose_worker workers task (occupied s) with
              | Some worker =>
                  (* start_task(worker, task) *)
                  Some (mkEager (set_add worker (occupied s)) permits rest (to_yield s)
                          (task_counts s ++ [name worker])
                          (<[i := Some (Running worker)]> (futures s))
                          (yielded s) AtYield (releasing s) (removing s))
              | None =>
                  Some (mkEager (occupied s) permits ((i, task) :: rest) (to_yield s)
                          (task_counts s) (futures s) (yielded s) AtYield
                          (releasing s) (removing s))
              end
          end
      end
  end.

(** [yield to_yield.pop().result()] *)
Definition deliver (rest : list (nat * Task)) (outcome : result V) (s : Eager) : Eager :=
  match outcome with
  | Ok v =>
      mkEager (occupied s) (workers_available s) (to_schedule s) rest
        (task_counts s) (futures s) (yielded s ++ [v]) AtSchedule
        (releasing s) (removing s)
  | Raise e =>
      mkEager (occupied s) (workers_available s) (to_schedule s) rest
        (task_counts s) (futures s) (yielded s) (Raised e)
        (releasing s) (removing s)
  end.

Definition skip_yield (s : Eager) : Eager :=
  mkEager (occupied s) (workers_available s) (to_schedule s) (to_yield s)
    (task_counts s) (futures s) (yielded s) AtSchedule (releasing s) (removing s).

(** From [# yield available results] back to the head of the loop.
    [None]: the blocking [result()] waits for a pending future. *)
Definition yield_phase (s : Eager) : option Eager :=
  match py_pop (to_yield s) with
  | None =>
      Some (mkEager (occupied s) (workers_available s) (to_schedule s) (to_yield s)
              (task_counts s) (futures s) (yielded s) (Raised IndexError)
              (releasing s) (removing s))
  | Some (rest, (i, _)) =>
      match futures s !! i with
      | Some (Some fut) =>
          match to_schedule s with
          | _ :: _ =>
              match fut with
              | Done outcome => Some (deliver rest outcome s)
              | Running _ => Some (skip_yield s)
              end
          | [] =>
              match fut with
              | Done outcome => Some (deliver rest outcome s)
              | Running _ => None
              end
          end
      | _ => Some (skip_yield s)
      end
  end.

(** The future of task [i] completes with [outcome]: from now on
    [done()] is true and [result()] returns. Its done-callbacks are due;
    the one that matters to the scheduler is [task_done(worker)] (the
    other one, the task's own [signal_stop], touches nothing the scheduler
    reads). *)
Definition complete (i : nat) (outcome : result V) (s : Eager) : option Eager :=
  match futures s !! i with
  | Some (Some (Running worker)) =>
      Some (mkEager (occupied s) (workers_available s)
              (to_schedule s) (to_yield s) (task_counts s)
              (<[i := Some (Done outcome)]> (futures s)) (yielded s) (at_ s)
              (releasing s ++ [worker]) (removing s))
  | _ => None
  end.

(** The first statement of [task_done(worker)]:
    [workers_available.release()]. *)
Definition release (worker : PeerNode) (s : Eager) : option Eager :=
  if decide (worker ∈ releasing s) then
    Some (mkEager (occupied s) (S (workers_available s))
            (to_schedule s) (to_yield s) (task_counts s) (futures s) (yielded s) (at_ s)
            (list_remove_first worker (releasing s)) (removing s ++ [worker]))
  else None.

(** Its second statement: [occupied.remove(worker)], a [KeyError] being
    passed over. *)
Definition remove (worker : PeerNode) (s : Eager) : option Eager :=
  if decide (worker ∈ removing s) then
    Some (mkEager (list_remove_first worker (occupied s)) (workers_available s)
            (to_schedule s) (to_yield s) (task_counts s) (futures s) (yielded s) (at_ s)
            (releasing s) (list_remove_first worker (removing s)))
  else None.

(** What can happen next: the scheduling thread advances by one half of
    the loop body, the future of task [i] completes, or the callback of a
    completed future runs its next statement. A schedule is any list of
    such events: futures complete in any order, and the two statements of
    a callback run in the completing thread, so the scheduling thread may
    run before, between and after them. Within a half of the loop body,
    an event of another thread commutes with the statements before it or
    with those after it. *)
Inductive event : Type :=
| Advance
| Complete (i : nat) (outcome : result V)
| Release (worker : PeerNode)
| Remove (worker : PeerNode).

Definition step (workers : list PeerNode) (e : event) (s : Eager) : option Eager :=
  match e with
  | Advance =>
      match at_ s with
      | AtSchedule => schedule_phase workers s
      | AtYield => yield_phase s
      | Returned | Raised _ => None
      end
  | Complete i outcome => complete i outcome s
  | Release worker => release worker s
  | Remove worker => remove worker s
  end.

Fixpoint run (workers : list PeerNode) (schedule : list event) (s : Eager)
    : option Eager :=
  match schedule with
  | [] => Some s
  | e :: schedule' =>
      match step workers e s with
      | Some s' => run workers schedule' s'
      | None => None
      end
  end.

Definition _execute_eagerly (tasks : list Task) (workers : list PeerNode)
    (schedule : list event) : option Eager :=
  run workers schedule (init tasks workers).

(** *** What holds of every state the scheduler reaches *)

Record invariant (tasks : list Task) (s : Eager) : Prop := mkInvariant {
  inv_futures : length (futures s) = length tasks;
  inv_to_yield :
    ∃ k, to_yield s = reverse (drop k (objects tasks)) ∧
         length (yielded s) ≤ k ∧
         ((∀ e, at_ s ≠ Raised e) → k = length (yielded s));
  inv_yielded :
    ∀ j v, yielded s !! j = Some v → futures s !! j = Some (Some (Done (Ok v)));
  inv_returned : at_ s = Returned → to_yield s = [];
  inv_at_yield : at_ s = AtYield → to_yield s ≠ [];
  inv_unstarted : ∀ i t, (i, t) ∈ to_schedule s → futures s !! i = Some None;
  inv_nodup : NoDup (to_schedule s).*1;
  inv_pending : ∀ i, futures s !! i = Some None → ∃ t, (i, t) ∈ to_schedule s;
  inv_occupied_nodup : NoDup (occupied s);
  inv_occupied_running :
    ∀ w, w ∈ occupied s →
         (∃ i, futures s !! i = Some (Some (Running w))) ∨
         w ∈ releasing s ∨ w ∈ removing s;
  inv_running_occupied :
    ∀ i w, futures s !! i = Some (Some (Running w)) → w ∈ occupied s;
  inv_running_unique :
    ∀ i j w, futures s !! i = Some (Some (Running w)) →
             futures s !! j = Some (Some (Running w)) → i = j;
  inv_releasing_nodup : NoDup (releasing s);
  inv_removing_nodup : NoDup (removing s);
  inv_callbacks_disjoint : ∀ w, w ∈ releasing s → w ∉ removing s;
  inv_callbacks :
    ∀ w, w ∈ releasing s ∨ w ∈ removing s →
         w ∈ occupied s ∧ ∀ i, futures s !! i ≠ Some (Some (Running w))
}.


(** A ranking of the states: every step lowers it. *)
Definition is_running (f : option Future) : bool :=
  match f with
  | Some (Running _) => true
  | _ => false
  end.

Definition running_count (s : Eager) : nat :=
  length (filter (λ f, is_running f = true) (futures s)).

Definition position_weight (s : Eager) : nat :=
  match at_ s, to_schedule s with
  | AtSchedule, _ :: _ => 1
  | AtSchedule, [] => 2
  | AtYield, _ :: _ => 2
  | AtYield, [] => 1
  | _, _ => 0
  end.




(** Every future that is done holds the value [value i] of its task. *)
Definition agrees (value : nat → V) (s : Eager) : Prop :=
  ∀ i outcome, futures s !! i = Some (Some (Done outcome)) → outcome = Ok (value i).

End Eager.

Arguments Future : clear implicits.
Arguments Eager : clear implicits.
Arguments event : clear implicits.

(** *** [Job.execute] *)

Record Stage : Type := mkStage {
  stage_id : nat;
  stage_life : Lifecycle;
  tasks : list Task
}.

Record JobState : Type := mkJob {
  job_life : Lifecycle;
  stages : list Stage
}.

Section JobExecute.
Context {V : Type}.

(** The consumer of [Job.execute] exhausts each generator
    [stage.execute(workers, eager)] it is handed: [run_stage stage eager]
    is the stage as that leaves it, with the results it yielded or the
    exception that ended it. *)
Variable run_stage : Stage → bool → Stage * result (list V).

(** [_stage_done], the listener [Job.execute] adds to each stage. *)
Definition _stage_done (stage : Stage) (job : JobState) : JobState :=
  match last (stages job) with
  | Some final =>
      if stopped (stage_life stage) && bool_decide (stage_id stage = stage_id final)
      then mkJob (signal_stop (job_life job)) (stages job)
      else job
  | None => job
  end.

(** The [finally] clause: [if not stage.stopped: stage.cancel()]. *)
Definition cancel_unstopped (job : JobState) : JobState :=
  mkJob (job_life job)
    ((λ stage, if stopped (stage_life stage) then stage
               else mkStage (stage_id stage) (cancel (stage_life stage)) (tasks stage))
       <$> stages job).

(** The [for stage in self.stages] loop from position [i] on. An exception
    in a stage reaches the consumer, which drops the generator: its
    [except:] clause signals stop and the [finally] clause runs. *)
Fixpoint execute_from (fuel i : nat) (eager : bool) (job : JobState)
    (out : list (list V)) : JobState * list (list V) * option exn :=
  match fuel with
  | O => (cancel_unstopped job, out, None)
  | S fuel' =>
      match stages job !! i with
      | None => (cancel_unstopped job, out, None)
      | Some stage =>
          if running (job_life job) then
            let is_last :=
              match last (stages job) with
              | Some final => bool_decide (stage_id stage = stage_id final)
              | None => false
              end in
            let '(stage', r) := run_stage stage (negb is_last || eager) in
            let job' := _stage_done stage' (mkJob (job_life job) (<[i := stage']> (stages job))) in
            match r with
            | Ok results => execute_from fuel' (S i) eager job' (out ++ [results])
            | Raise e =>
                (cancel_unstopped (mkJob (signal_stop (job_life job')) (stages job')),
                 out, Some e)
            end
          else (cancel_unstopped job, out, None)
      end
  end.

(** [Job.execute(workers, eager)], fully consumed. *)
Definition execute (eager : bool) (job : JobState)
    : JobState * list (list V) * option exn :=
  let job := mkJob (signal_start (job_life job)) (stages job) in
  execute_from (length (stages job)) 0 eager job [].

End JobExecute.

(** *** [Stage._execute_onebyone] *)

Section OneByOne.
Context {V : Type}.

(** [run_task i task worker]: what [future.result()] gives for the run of
    the task at index [i] on [worker]. *)
Variable run_task : nat → Task → PeerNode → result V.

(** [preferred_workers[0]], else [allowed_workers[0]], else [workers[0]]. *)
Definition pick_worker (workers : list PeerNode) (task : Task) : result PeerNode :=
  match preferred_workers task with
  | Some (w :: _) => Ok w
  | _ =>
      match allowed_workers task with
      | Some (w :: _) => Ok w
      | _ =>
          match workers with
          | w :: _ => Ok w
          | [] => Raise IndexError
          end
      end
  end.

(** The [for task in self.tasks] loop: the values yielded, the runs
    started (task index and worker) and the exception that ended the
    generator, if any. *)
Fixpoint onebyone_from (workers : list PeerNode) (todo : list (nat * Task))
    (yielded : list V) (started : list (nat * PeerNode))
    : list V * list (nat * PeerNode) * option exn :=
  match todo with
  | [] => (yielded, started, None)
  | (i, task) :: rest =>
      match pick_worker workers task with
      | Raise e => (yielded, started, Some e)
      | Ok worker =>
          match run_task i task worker with
          | Ok v => onebyone_from workers rest (yielded ++ [v]) (started ++ [(i, worker)])
          | Raise e => (yielded, started ++ [(i, worker)], Some e)
          end
      end
  end.

Definition _execute_onebyone (tasks : list Task) (workers : list PeerNode)
    : list V * list (nat * PeerNode) * option exn :=
  onebyone_from workers (objects tasks) [] [].

(** The run of one task as the loop body performs it. *)
Definition attempt (workers : list PeerNode) (i : nat) (task : Task) : result V :=
  worker ← pick_worker workers task; run_task i task worker.

End OneByOne.

(** *** Placement in the eager scheduler *)

Section Placement.
Context {V : Type}.

(** The workers a task may be placed on, in the order they are tried. *)
Definition eligible (workers : list PeerNode) (task : Task) : list PeerNode :=
  py_or (preferred_workers task) [] ++ py_or (allowed_workers task) workers.

Record placement (tasks : list Task) (workers : list PeerNode) (s : Eager V)
    : Prop := mkPlacement {
  placed_queue : ∀ i t, (i, t) ∈ to_schedule s → tasks !! i = Some t;
  placed_occupied :
    ∀ i w, futures s !! i = Some (Some (Running w)) → w ∈ occupied s;
  placed_unique :
    ∀ i j w, futures s !! i = Some (Some (Running w)) →
             futures s !! j = Some (Some (Running w)) → i = j;
  placed_eligible :
    ∀ i w t, futures s !! i = Some (Some (Running w)) → tasks !! i = Some t →
             w ∈ eligible workers t;
  placed_permits :
    workers_available s + running_count s + length (releasing s) ≤ length workers
}.

End Placement.

(** *** Notions used to state how [Job.execute] runs its stages *)

Section Stages.
Context {V : Type} (run_stage : Stage → bool → Stage * result (list V)).

(** Whatever the mode, the stage runs to its end: it yields its results
    and is left stopped (its [finally] clause signals stop). *)
Definition completes (stage : Stage) : Prop :=
  ∀ eager, ∃ stage' results,
    run_stage stage eager = (stage', Ok results) ∧
    stopped (stage_life stage') = true ∧
    stage_id stage' = stage_id stage.

Definition results_of (stage : Stage) (eager : bool) : list V :=
  match (run_stage stage eager).2 with
  | Ok results => results
  | Raise _ => []
  end.

End Stages.

(** The mode of the stage at index [j] of [n]: [stage != self.stages[-1]
    or eager]. *)
Definition eager_flag (eager : bool) (n j : nat) : bool :=
  if decide (S j = n) then eager else true.

End Job.

Module Node.

(** What [urlparse] returns for an address. *)
Record ParseResult : Type := mkParse {
  scheme : string;
  hostname : string;
  port : option nat;
  path : string
}.

Inductive Server : Type :=
| TcpServer (host : string) (port : nat)
| UnixServer (path : string).

(** The node: its name, the servers by address ([None] is the placeholder
    stored by the constructor), the peer table, the socket files present
    on disk, and what the node did to connections and its I/O tasks:
    [disconnected] lists [peer.disconnect(reason=...)] calls, [_iotasks]
    the peers for which a [_notifiy_peers] task was created. *)
Record NodeState : Type := mkNode {
  node_name : string;
  servers : gmap string (option Server);
  peers : gmap string PeerNode;
  files : gset string;
  disconnected : list (PeerNode * string);
  _iotasks : list PeerNode
}.

(** The surroundings of the listening code: [urlparse] of
    [bndl/net/connection.py], [asyncio.start_server] and
    [asyncio.start_unix_server]. *)
Record OS : Type := mkOS {
  urlparse : string → ParseResult;
  start_server : string → nat → result Server;
  start_unix_server : string → result Server
}.

Definition EADDRINUSE : nat := 98.

(** The [for port in range(port, port + 1000)] loop: the value the loop
    variable [port] is left with, and [server]. [OSError] is caught
    (address in use: [continue]; anything else is logged and the loop goes
    on as well); other exceptions propagate. *)
Fixpoint probe_ports (os : OS) (host : string) (port n last : nat)
    : result (nat * option Server) :=
  match n with
  | O => Ok (last, None)
  | S n' =>
      match start_server os host port with
      | Ok server => Ok (port, Some server)
      | Raise (OSError _) => probe_ports os host (S port) n' port
      | Raise e => Raise e
      end
  end.

Definition set_servers (servers' : gmap string (option Server)) (self : NodeState)
    : NodeState :=
  mkNode (node_name self) servers' (peers self) (files self)
    (disconnected self) (_iotasks self).

Definition _start_tcp_server (os : OS) (address : string) (parsed : ParseResult)
    (self : NodeState) : result NodeState :=
  let host := hostname parsed in
  let port0 := match port parsed with Some (S p) => S p | _ => 5000 end in
  '(port1, server) ← probe_ports os host port0 1000 port0;
  match server with
  | None => Ok self                                   (* if not server: return *)
  | Some server =>
      if decide (port parsed ≠ Some port1) then
        match servers self !! address with
        | None => Raise (KeyError address)            (* del self.servers[address] *)
        | Some _ =>
            let address' := "tcp://" +:+ host +:+ ":" +:+ pretty port1 in
            Ok (set_servers (<[address' := Some server]> (delete address (servers self))) self)
        end
      else Ok (set_servers (<[address := Some server]> (servers self)) self)
  end.

Definition _start_unix_server (os : OS) (address : string) (parsed : ParseResult)
    (self : NodeState) : result NodeState :=
  (* if os.path.exists(parsed.path): os.remove(parsed.path) *)
  let files1 := files self ∖ {[path parsed]} in
  server ← start_unix_server os (path parsed);
  Ok (mkNode (node_name self) (<[address := Some server]> (servers self)) (peers self)
        (files1 ∪ {[path parsed]}) (disconnected self) (_iotasks self)).

Definition _start_server (os : OS) (address : string) (self : NodeState)
    : result NodeState :=
  let parsed := urlparse os address in
  if decide (scheme parsed = "tcp") then _start_tcp_server os address parsed self
  else if decide (scheme parsed = "unix") then _start_unix_server os address parsed self
  else Raise (ValueError ("unsupported scheme " +:+ scheme parsed +:+
                          " in address " +:+ address)).

(** Modelled from the spec: [PeerNode.disconnect] of [bndl/net/peer.py]:
    "the losing side disconnects with reason ...". The call is recorded
    with the peer it is made on and its reason. *)
Definition disconnect (peer : PeerNode) (reason : string) (self : NodeState) : NodeState :=
  mkNode (node_name self) (servers self) (peers self) (files self)
    (disconnected self ++ [(peer, reason)]) (_iotasks self).

(** A connection the node still holds: it is up and the node has not
    called [disconnect] on it. *)
Definition active (self : NodeState) (peer : PeerNode) : Prop :=
  is_connected peer = true ∧ ∀ reason, (peer, reason) ∉ disconnected self.

(** [self.peers[peer.name] = peer], then the creation of the
    notification task. *)
Definition install (peer : PeerNode) (self : NodeState) : NodeState :=
  mkNode (node_name self) (servers self) (<[name peer := peer]> (peers self))
    (files self) (disconnected self) (_iotasks self ++ [peer]).

Definition delete_peer (key : string) (self : NodeState) : NodeState :=
  mkNode (node_name self) (servers self) (delete key (peers self))
    (files self) (disconnected self) (_iotasks self).

(** [_peer_connected]: the value returned ([None] for the bare [return],
    [Some true] for [return True]) and the node afterwards. *)
Definition _peer_connected (peer : PeerNode) (self : NodeState)
    : result (option bool * NodeState) :=
  match peers self !! name peer with
  | Some known_peer =>
      if is_connected peer then
        if decide (node_name self = name peer) then
          Ok (None, disconnect peer "self connect" self)
        else if is_connected known_peer && peer_lt known_peer peer then
          Ok (None, disconnect peer "already connected, old connection wins" self)
        else
          let self := disconnect known_peer "already connected, new connection wins" self in
          let self := delete_peer (name peer) self in
          Ok (Some true, install peer self)
      else Raise AssertionError
  | None => Ok (Some true, install peer self)
  end.

(** *** Stopping, and telling peers about each other *)

(** The peer table holds each peer under its own name. *)
Definition keyed (self : NodeState) : Prop :=
  ∀ key peer, peers self !! key = Some peer → name peer = key.

(** The socket paths of the UNIX servers that are up. *)
Definition unix_paths (os : OS) (self : NodeState) : list string :=
  omap (λ '(address, server),
          match server with
          | Some _ =>
              let parsed := urlparse os address in
              if decide (scheme parsed = "unix") then Some (path parsed) else None
          | None => None
          end)
       (map_to_list (servers self)).

(** Modelled from the spec: [PeerTable.filter] of [bndl/net/peer.py]
    without arguments, as [_notifiy_peers] calls it: the new peer is
    notified "with a shuffled snapshot of the current peers". *)
Definition current_peers (self : NodeState) : list PeerNode :=
  snd <$> map_to_list (peers self).

(** [stop]: every peer of the table is disconnected (no reason is given:
    the empty string is recorded) and the table is cleared; every server that is up is closed, and the
    socket file of a UNIX server is removed; every I/O task is cancelled.
    The result is the node afterwards and the tasks cancelled. *)
Definition stop (os : OS) (self : NodeState) : NodeState * list PeerNode :=
  let table := snd <$> map_to_list (peers self) in
  (mkNode (node_name self) (servers self) ∅
     (files self ∖ list_to_set (unix_paths os self))
     (disconnected self ++ ((λ peer, (peer, "")) <$> table))
     (_iotasks self),
   _iotasks self).

(** [_notifiy_peers(new_peer)]: the discovery notifications sent, each
    with its recipient and the peers it names. [shuffle] stands for
    [random.shuffle]; failed or timed-out notifications are logged and
    change nothing. *)
Definition _notifiy_peers (shuffle : list PeerNode → list PeerNode)
    (new_peer : PeerNode) (self : NodeState) : list (PeerNode * list PeerNode) :=
  let table := shuffle (current_peers self) in
  let peer_list := filter (λ peer, name peer ≠ name new_peer) table in
  match peer_list with
  | [] => []
  | _ :: _ => [(new_peer, peer_list)]
  end ++ ((λ peer, (peer, [new_peer])) <$> peer_list).

(** [start]: the servers, then the seeds. [addresses] is
    [list(self.servers.keys())]; the result lists the seeds a connection
    is opened to. *)
Fixpoint start_servers (os : OS) (addresses : list string) (self : NodeState)
    : result NodeState :=
  match addresses with
  | [] => Ok self
  | address :: rest => self' ← _start_server os address self; start_servers os rest self'
  end.

Definition start (os : OS) (addresses seeds : list string) (self : NodeState)
    : result (NodeState * list string) :=
  self' ← start_servers os addresses self;
  Ok (self', filter (λ seed, servers self' !! seed = None) seeds).

(** An address whose server comes up where it is configured: a UNIX path
    that can be bound, or a TCP address that names a port that is free. *)
Definition binds (os : OS) (address : string) : Prop :=
  let parsed := urlparse os address in
  (scheme parsed = "unix" ∧
   ∃ server, start_unix_server os (path parsed) = Ok server) ∨
  (scheme parsed = "tcp" ∧
   ∃ p server, port parsed = Some (S p) ∧
               start_server os (hostname parsed) (S p) = Ok server).

End Node.

(** ** Concrete inputs used below *)

Module Examples.
Import Job.

Definition w0 : PeerNode := mkPeer "w0" "worker" ["10.0.0.1"] 1 true 2.
Definition w1 : PeerNode := mkPeer "w1" "worker" ["10.0.0.2"] 2 true 1.

Definition t0 : Task := mkTask 0 None None.
Definition t1 : Task := mkTask 1 None None.


(** One task, whose only run ends in a remote invocation error. *)
Definition failing_once : list (event Z) :=
  [Advance; Complete 0 (Raise (InvocationException "first attempt")); Advance].

(** A node that served a block set, and a node that fetches it. *)
Definition p1 : PeerNode := mkPeer "P1" "worker" ["10.0.0.9"] 9 true 9.
Definition spec_x : Blocks.BlockSpec := Blocks.mkBlockSpec "P1" "x" 4.
(** The block set the name ["x"] stood for earlier: 2 blocks. *)
Definition spec_x_before : Blocks.BlockSpec := Blocks.mkBlockSpec "P1" "x" 2.
Definition p2_manager : Blocks.BlockManager := Blocks.mkBlockManager "P2" ∅ ∅.
Definition seeder_only : Blocks.Env :=
  Blocks.mkEnv {["P1" := p1]} ["10.0.0.2"] (λ _, [])
    (λ _ _ _ idx, Ok (replicate (S idx) Byte.x41)) (λ _ _, 0).

(** Two empty slots; worker [w0] answers first and holds block 0, worker
    [w1] answers second and holds blocks 0 and 1. *)
Definition two_missing : Blocks.BlockManager :=
  Blocks.mkBlockManager "P2" {["x" := [None; None]]} {["x" := false]}.
Definition two_advertisers : Blocks.Env :=
  Blocks.mkEnv {["P1" := p1; "w0" := w0; "w1" := w1]} ["10.0.0.2"]
    (λ _, [(w0, Ok [0]); (w1, Ok [0; 1])])
    (λ _ _ _ idx, Ok (replicate (S idx) Byte.x41)) (λ _ _, 0).

(** Two connections with the peer named R: the new one has the lower
    tiebreak key. *)
Definition known_r : PeerNode := mkPeer "R" "worker" ["10.0.0.3"] 1 true 2.
Definition new_r : PeerNode := mkPeer "R" "worker" ["10.0.0.3"] 2 true 1.
(** A peer named R whose connection is not up. *)
Definition unconnected_r : PeerNode := mkPeer "R" "worker" ["10.0.0.3"] 3 false 1.
Definition node_n : Node.NodeState :=
  Node.mkNode "N" ∅ {["R" := known_r]} ∅ [] [].

(** A node with an empty peer table, and a connection whose remote end
    turns out to carry the node's own name. *)
Definition node_a : Node.NodeState := Node.mkNode "a" ∅ ∅ ∅ [] [].
Definition peer_a : PeerNode := mkPeer "a" "worker" ["10.0.0.4"] 7 true 7.

(** An address with an unsupported scheme, and a host on which every port
    is taken. *)
Definition parse_http (address : string) : Node.ParseResult :=
  Node.mkParse "http" "example" (Some 80) "".
Definition parse_tcp (address : string) : Node.ParseResult :=
  Node.mkParse "tcp" "example" (Some 5000) "".
Definition all_ports_taken (parse : string → Node.ParseResult) : Node.OS :=
  Node.mkOS parse (λ _ _, Raise (OSError Node.EADDRINUSE))
    (λ _, Raise (OSError Node.EADDRINUSE)).
Definition node_listening : Node.NodeState :=
  Node.mkNode "N" {["tcp://example:5000" := None]} ∅ ∅ [] [].

(** A block set whose seeder is not in the peer table of the node that
    fetches it. *)
Definition spec_lost : Blocks.BlockSpec := Blocks.mkBlockSpec "gone" "x" 2.

(** Three tasks run one by one; the run of the second one fails. *)
Definition t2 : Task := mkTask 2 (Some [w1]) None.
Definition second_fails (i : nat) (task : Task) (worker : PeerNode) : result Z :=
  if decide (i = 1) then Raise (InvocationException "second")
  else Ok (Z.of_nat (10 + i)).

(** The first of two tasks has failed and the generator has raised. *)
Definition first_fails : list (event Z) :=
  [Advance; Advance; Advance;
   Complete 0 (Raise (InvocationException "first attempt")); Complete 1 (Ok 11%Z);
   Advance].

(** The tasks [t0] and [t1] on the one worker [w0]: the first task
    completes, and the scheduling thread runs between the two statements
    of its callback. *)
Definition racing : list (event Z) :=
  [Advance; Advance;
   Complete 0 (Ok 10%Z); Release w0;
   Advance; Advance;
   Remove w0].

(** Both workers are busy with a task each. *)
Definition two_running : list (event Z) := [Advance; Advance; Advance].

(** Two stages; running a stage stops it and yields its id. *)
Definition stage_a : Stage := mkStage 1 new_lifecycle [t0].
Definition stage_b : Stage := mkStage 2 new_lifecycle [t1].
Definition run_to_end (stage : Stage) (eager : bool) : Stage * result (list Z) :=
  (mkStage (stage_id stage) (signal_stop (signal_start (stage_life stage))) (tasks stage),
   Ok [Z.of_nat (stage_id stage)]).
(** The same, but the stage with id 1 fails. *)
Definition first_stage_fails (stage : Stage) (eager : bool) : Stage * result (list Z) :=
  if decide (stage_id stage = 1) then
    (mkStage (stage_id stage)
       (signal_stop (cancel (signal_start (stage_life stage)))) (tasks stage),
     Raise (InvocationException "stage"))
  else run_to_end stage eager.

(** A host on which port 5000 is taken and every other port is free. *)
Definition one_port_taken : Node.OS :=
  Node.mkOS parse_tcp
    (λ host port, if decide (port = 5000) then Raise (OSError Node.EADDRINUSE)
                  else Ok (Node.TcpServer host port))
    (λ path, Ok (Node.UnixServer path)).

(** A node configured with one UNIX socket. *)
Definition parse_unix (address : string) : Node.ParseResult :=
  Node.mkParse "unix" "" None "/tmp/bndl.socket".
Definition unix_os : Node.OS :=
  Node.mkOS parse_unix (λ host port, Ok (Node.TcpServer host port))
    (λ path, Ok (Node.UnixServer path)).
Definition node_unix : Node.NodeState :=
  Node.mkNode "N" {["unix:///tmp/bndl.socket" := None]} ∅ ∅ [] [].

(** A record of the peer named R whose connection is gone, and a node
    that still holds it. *)
Definition stale_r : PeerNode := mkPeer "R" "worker" ["10.0.0.3"] 1 false 2.
Definition node_stale : Node.NodeState :=
  Node.mkNode "N" ∅ {["R" := stale_r]} ∅ [] [].

(** A node connected to [w0] and [w1]. *)
Definition node_two : Node.NodeState :=
  Node.mkNode "N" ∅ {["w0" := w0; "w1" := w1]} ∅ [] [].

(** A remote call that only [w1] answers. *)
Definition only_w1_answers (source : PeerNode) : result (list Byte.byte) :=
  if decide (source = w1) then Ok [Byte.x41] else Raise (InvocationException "gone").

End Examples.

(** * Properties *)

Module BlocksFacts.
Import Blocks.

(** ** [serve_data] *)

Lemma py_ceil_div_bounds (a b : Z) :
  (0 < b)%Z → (b * (py_ceil_div a b - 1) < a ≤ b * py_ceil_div a b)%Z.
Proof.
  intros Hb. unfold py_ceil_div.
  pose proof (Z.div_mod (- a) b ltac:(lia)) as Hdm.
  pose proof (Z.mod_pos_bound (- a) b Hb) as Hr.
  lia.
Qed.

Lemma py_ceil_div_unique (a b q : Z) :
  (0 < b)%Z → (b * (q - 1) < a ≤ b * q)%Z → py_ceil_div a b = q.
Proof.
  intros Hb Hq. pose proof (py_ceil_div_bounds a b Hb). nia.
Qed.

Lemma slice_loop_spec (n : nat) (data : bytes) (step offset : Z) (blocks : list bytes) :
  (0 ≤ step)%Z → (0 ≤ offset)%Z →
  ∃ chunks,
    slice_loop n data step offset blocks = (blocks ++ chunks, (offset + Z.of_nat n * step)%Z) ∧
    length chunks = n ∧
    concat chunks = take (Z.to_nat (Z.of_nat n * step)) (drop (Z.to_nat offset) data) ∧
    Forall (λ b, (Z.of_nat (length b) ≤ step)%Z) chunks.
Proof.
  intros Hstep. revert offset blocks.
  induction n as [|n IH]; intros offset blocks Hoff.
  - exists []. simpl. rewrite app_nil_r, Z.add_0_r. by repeat split.
  - destruct (IH (offset + step)%Z (blocks ++ [py_slice data offset (offset + step)])
                ltac:(lia)) as (chunks & Heq & Hlen & Hcat & Hall).
    exists (py_slice data offset (offset + step) :: chunks).
    split; [|split; [|split]].
    + simpl. rewrite Heq, <- app_assoc. simpl. f_equal. lia.
    + simpl. by rewrite Hlen.
    + simpl. rewrite Hcat. unfold py_slice.
      replace (Z.to_nat (offset + step - offset)) with (Z.to_nat step) by lia.
      replace (Z.to_nat (offset + step)) with (Z.to_nat offset + Z.to_nat step) by lia.
      rewrite <- drop_drop, take_take_drop. f_equal. lia.
    + constructor; [|done]. unfold py_slice. rewrite length_take. lia.
Qed.

Lemma split_data_small (data : bytes) (block_size : Z) :
  (Z.of_nat (length data) ≤ block_size)%Z → split_data data block_size = [data].
Proof. intros H. unfold split_data. by rewrite decide_False by lia. Qed.

Lemma split_data_large (data : bytes) (block_size : Z) :
  (0 < block_size < Z.of_nat (length data))%Z →
  let len := Z.of_nat (length data) in
  let parts := ((len - 1) `div` block_size)%Z in
  let step := py_ceil_div len (parts + 1) in
  ∃ chunks,
    split_data data block_size = chunks ++ [drop (Z.to_nat (parts * step)) data] ∧
    Z.of_nat (length chunks) = parts ∧
    concat chunks = take (Z.to_nat (parts * step)) data ∧
    Forall (λ b, (Z.of_nat (length b) ≤ step)%Z) chunks ∧
    (1 ≤ step ≤ block_size)%Z ∧ (parts * step < len ≤ (parts + 1) * step)%Z ∧
    (parts * block_size < len ≤ (parts + 1) * block_size)%Z.
Proof.
  intros Hbs len parts step.
  assert (Hq : ((len - 1) `quot` block_size = parts)%Z).
  { unfold parts. apply Z.quot_div_nonneg; lia. }
  assert (Hparts : (block_size * parts ≤ len - 1 < block_size * parts + block_size)%Z).
  { unfold parts.
    pose proof (Z.div_mod (len - 1) block_size ltac:(lia)).
    pose proof (Z.mod_pos_bound (len - 1) block_size ltac:(lia)). lia. }
  assert (Hp1 : (1 ≤ parts)%Z) by (unfold len in *; nia).
  pose proof (py_ceil_div_bounds len (parts + 1) ltac:(lia)) as Hstep.
  fold step in Hstep.
  assert (Hs : (1 ≤ step ≤ block_size)%Z) by (unfold len in *; nia).
  destruct (slice_loop_spec (Z.to_nat parts) data step 0 [] ltac:(lia) ltac:(lia))
    as (chunks & Heq & Hlen & Hcat & Hall).
  exists chunks. unfold split_data. fold len. rewrite decide_True by lia.
  rewrite Hq. fold step. rewrite Heq. simpl.
  rewrite Z2Nat.id in * by lia.
  repeat split; try done; try lia; try nia.
Qed.

(** C2: for data of at least one byte and a positive [block_size],
    [serve_data] stores [ceil(len(data) / block_size)] blocks under [name]
    (and reports that number in the [BlockSpec]); the blocks concatenated
    in order give back [data]; every block is at most [block_size] long;
    the last block holds at least one byte; and [block_size = len(data)]
    gives exactly one block. *)
Theorem serve_data_splits (name : string) (data : bytes) (block_size : Z)
    (self : BlockManager) :
  1 ≤ length data →
  (0 < block_size)%Z →
  ∃ blocks block_spec self',
    serve_data name data block_size self = Ok (block_spec, self') ∧
    _blocks_cache self' !! name = Some (Some <$> blocks) ∧
    num_blocks block_spec = length blocks ∧
    Z.of_nat (length blocks) = py_ceil_div (Z.of_nat (length data)) block_size ∧
    ((Z.of_nat (length blocks) - 1) * block_size < Z.of_nat (length data)
       ≤ Z.of_nat (length blocks) * block_size)%Z ∧
    concat blocks = data ∧
    Forall (λ b, (Z.of_nat (length b) ≤ block_size)%Z) blocks ∧
    (∃ front final, blocks = front ++ [final] ∧
       1 ≤ length final ∧ (Z.of_nat (length final) ≤ block_size)%Z) ∧
    (block_size = Z.of_nat (length data) → length blocks = 1).
Proof.
  intros Hlen Hbs.
  exists (split_data data block_size).
  unfold serve_data. rewrite decide_True by lia.
  eexists _, _. split; [reflexivity|]. simpl.
  split; [by rewrite lookup_insert_eq|].
  split; [by rewrite length_fmap|].
  destruct (decide (Z.of_nat (length data) ≤ block_size)%Z) as [Hsmall|Hlarge].
  - rewrite split_data_small by done. simpl.
    split; [symmetry; apply py_ceil_div_unique; lia|].
    split; [lia|]. split; [by rewrite app_nil_r|].
    split; [by repeat constructor|].
    split; [|done]. exists [], data. by repeat split.
  - destruct (split_data_large data block_size ltac:(lia))
      as (chunks & -> & Hn & Hcat & Hall & Hstep & Hlast & Hparts).
    set (len := Z.of_nat (length data)) in *.
    set (parts := ((len - 1) `div` block_size)%Z) in *.
    set (step := py_ceil_div len (parts + 1)) in *.
    rewrite length_app. simpl.
    assert (Hcount : Z.of_nat (length chunks + 1) = (parts + 1)%Z) by lia.
    rewrite Hcount.
    assert (Hfinal : Z.of_nat (length (drop (Z.to_nat (parts * step)) data))
                     = (len - parts * step)%Z).
    { rewrite length_drop. unfold len. lia. }
    split; [symmetry; apply py_ceil_div_unique; lia|].
    split; [lia|].
    split; [by rewrite concat_app, Hcat; simpl; rewrite app_nil_r, take_drop|].
    split.
    { apply Forall_app. split.
      - eapply Forall_impl; [exact Hall|]. simpl. intros b Hb. lia.
      - repeat constructor. lia. }
    split; [|lia].
    eexists chunks, _. split; [reflexivity|]. lia.
Qed.

Lemma serve_data_splits_witness :
  ∃ blocks block_spec self',
    serve_data "x" (replicate 100 Byte.x41) 30 (mkBlockManager "P1" ∅ ∅)
      = Ok (block_spec, self') ∧
    length blocks = 4 ∧ concat blocks = replicate 100 Byte.x41.
Proof.
  destruct (serve_data_splits "x" (replicate 100 Byte.x41) 30 (mkBlockManager "P1" ∅ ∅))
    as (blocks & block_spec & self' & Hserve & _ & _ & Hcount & _ & Hcat & _).
  - rewrite length_replicate. lia.
  - lia.
  - exists blocks, block_spec, self'. split; [exact Hserve|]. split; [|exact Hcat].
    rewrite length_replicate in Hcount.
    apply Nat2Z.inj. rewrite Hcount. reflexivity.
Defined.

(** C10: on empty data and a positive [block_size], [serve_data] raises
    nothing: the [BlockSpec] it returns counts one block, the cache holds
    the single empty block under [name], and the availability event of
    [name] exists and is set; that one block has length 0. *)
Theorem serve_data_empty (name : string) (block_size : Z) (self : BlockManager) :
  (0 < block_size)%Z →
  ∃ self',
    serve_data name [] block_size self
      = Ok (mkBlockSpec (self_name self) name 1, self') ∧
    _blocks_cache self' !! name = Some [Some []] ∧
    _available_events self' !! name = Some true ∧
    split_data [] block_size = [[]] ∧
    Forall (λ b : bytes, length b = 0) (split_data [] block_size).
Proof.
  intros Hbs. unfold serve_data. rewrite decide_True by lia.
  rewrite split_data_small by (simpl; lia).
  eexists. split; [reflexivity|]. simpl.
  rewrite !lookup_insert_eq. repeat split. by repeat constructor.
Qed.

Lemma serve_data_empty_witness :
  ∃ self',
    serve_data "x" [] 8 (mkBlockManager "P1" ∅ ∅) = Ok (mkBlockSpec "P1" "x" 1, self') ∧
    _blocks_cache self' !! "x" = Some [Some []] ∧
    _available_events self' !! "x" = Some true.
Proof.
  destruct (serve_data_empty "x" 8 (mkBlockManager "P1" ∅ ∅)) as (self' & H1 & H2 & H3 & _).
  - lia.
  - exists self'. by repeat split.
Defined.

(** ** [_next_download] and [_download] *)

Lemma missing_insert (blocks : list (option bytes)) (idx : nat) (b : bytes) :
  blocks !! idx = Some None →
  S (missing (<[idx := Some b]> blocks)) = missing blocks.
Proof.
  unfold missing. revert idx.
  induction blocks as [|x blocks IH]; intros [|idx] H; simplify_eq/=.
  - rewrite ?filter_cons. repeat case_decide; by simplify_eq/=.
  - rewrite ?filter_cons. specialize (IH idx H).
    repeat case_decide; simplify_eq/=; by rewrite ?IH.
Qed.

Lemma missing_zero (blocks : list (option bytes)) :
  missing blocks = 0 → Forall is_Some blocks.
Proof.
  unfold missing. induction blocks as [|x blocks IH]; [constructor|].
  rewrite filter_cons. destruct (decide (x = None)) as [->|Hx]; [done|].
  intros H. constructor; [|by apply IH]. by destruct x.
Qed.

Lemma missing_pos (blocks : list (option bytes)) :
  0 < missing blocks → ∃ idx, blocks !! idx = Some None.
Proof.
  unfold missing. intros H.
  destruct (filter (λ b, b = None) blocks) as [|x l] eqn:Hf; [simpl in H; lia|].
  assert (Hx : x ∈ filter (λ b, b = None) blocks) by (rewrite Hf; left).
  apply list_elem_of_filter in Hx as [-> Hx].
  by apply list_elem_of_lookup in Hx.
Qed.

Lemma missing_replicate (n : nat) : missing (replicate n None) = n.
Proof.
  unfold missing. induction n as [|n IH]; [done|].
  simpl. rewrite ?filter_cons. repeat case_decide; simplify_eq/=; by rewrite ?IH.
Qed.

Lemma remaining_spec (blocks : list (option bytes)) (idx : nat) :
  idx ∈ remaining blocks ↔ blocks !! idx = Some None.
Proof.
  unfold remaining. rewrite list_elem_of_fmap. split.
  - intros ([i b] & -> & H). apply list_elem_of_filter in H as [Hb H].
    apply elem_of_lookup_imap in H as (i' & y & Heq & Hl). by simplify_eq/=.
  - intros H. exists (idx, None). split; [done|].
    apply list_elem_of_filter. split; [done|].
    apply elem_of_lookup_imap. by exists idx, None.
Qed.

Lemma random_choice_elem {A} (r : nat) (l : list A) (a : A) :
  random_choice r l = Ok a → a ∈ l.
Proof.
  unfold random_choice. destruct (l !! _) eqn:H; [|done].
  intros [= ->]. by eapply list_elem_of_lookup_2.
Qed.

Lemma random_choice_ok {A} (r : nat) (l : list A) :
  l ≠ [] → ∃ a, random_choice r l = Ok a.
Proof.
  intros Hl. unfold random_choice.
  destruct (lookup_lt_is_Some_2 l (r mod length l)) as [a ->]; [|by eexists].
  apply Nat.mod_upper_bound. by destruct l.
Qed.

Section Availability.
Context (blocks : list (option bytes)).

Let wanted (entry : nat * list PeerNode) : Prop := blocks !! entry.1 = Some None.

Lemma availability_append_wanted idx worker availability :
  blocks !! idx = Some None →
  Forall wanted availability →
  Forall wanted (availability_append idx worker availability).
Proof.
  intros Hidx. induction 1 as [|[i ws] rest Hi Hrest IH]; simpl.
  - by repeat constructor.
  - destruct (decide (i = idx)); constructor; auto.
Qed.

Lemma record_response_wanted worker idxs availability :
  Forall wanted availability →
  Forall wanted (record_response blocks worker idxs availability).
Proof.
  revert availability. induction idxs as [|idx idxs IH]; intros av Hav; simpl; [done|].
  destruct (blocks !! idx) as [[b|]|] eqn:Hb; auto.
  apply IH. by apply availability_append_wanted.
Qed.

Lemma collect_availability_wanted env round :
  Forall wanted (collect_availability env round blocks).
Proof.
  unfold collect_availability.
  assert (Hnil : Forall wanted []) by constructor. revert Hnil.
  generalize (@nil (nat * list PeerNode)).
  induction (responses env round) as [|[worker response] rs IH]; intros av Hav; simpl; [done|].
  apply IH. destruct (decide (worker ∈ worker_peers env)); [|done].
  destruct response; [|done]. by apply record_response_wanted.
Qed.

End Availability.

Lemma insert_desc_elem x l y : y ∈ insert_desc x l → y = x ∨ y ∈ l.
Proof.
  induction l as [|z l IH]; simpl.
  - rewrite list_elem_of_singleton. auto.
  - destruct (py_list_lt z.2 x.2).
    + rewrite elem_of_cons. auto.
    + rewrite !elem_of_cons. intros [->|H]; auto. destruct (IH H); auto.
Qed.

Lemma sorted_by_workers_desc_elem items y :
  y ∈ sorted_by_workers_desc items → y ∈ items.
Proof.
  unfold sorted_by_workers_desc.
  assert (∀ acc, y ∈ fold_left (λ acc x, insert_desc x acc) items acc → y ∈ acc ∨ y ∈ items)
    as Hgen.
  { induction items as [|x items IH]; intros acc; simpl; [auto|].
    intros H. destruct (IH _ H) as [H'|H'].
    - destruct (insert_desc_elem _ _ _ H') as [->|?]; [right; left|auto].
    - right. by right. }
  intros H. destruct (Hgen [] H) as [H'|H']; [|done]. by apply elem_of_nil in H'.
Qed.

(** Whatever the peers answer, the index [_next_download] picks is one of
    the empty slots, as long as one is left and the seeder is a peer. *)
Lemma next_download_missing env round block_spec self blocks sp :
  _blocks_cache self !! spec_name block_spec = Some blocks →
  0 < missing blocks →
  peers env !! seeder block_spec = Some sp →
  ∃ idx candidates,
    _next_download env round block_spec self = Ok (idx, candidates) ∧
    blocks !! idx = Some None.
Proof.
  intros Hcache Hmiss Hsp. unfold _next_download. rewrite Hcache.
  destruct (sorted_by_workers_desc _) as [|[idx ws] rest] eqn:Hsorted.
  - destruct (missing_pos _ Hmiss) as [i Hi].
    destruct (random_choice_ok (draw env round 0) (remaining blocks)) as [idx Hidx].
    { intros Hnil. apply remaining_spec in Hi. rewrite Hnil in Hi. by apply elem_of_nil in Hi. }
    rewrite Hidx. simpl. unfold peers_getitem. rewrite Hsp. simpl.
    eexists _, _. split; [done|].
    apply remaining_spec. by eapply random_choice_elem.
  - exists idx, ws. split; [done|].
    assert (Hin : (idx, ws) ∈ collect_availability env round blocks).
    { apply sorted_by_workers_desc_elem. rewrite Hsorted. left. }
    pose proof (collect_availability_wanted blocks env round) as Hall.
    rewrite Forall_forall in Hall. exact (Hall _ Hin).
Qed.

(** When no response names an empty slot, the index is drawn among the
    empty slots and the seeder is the only candidate. *)
Lemma next_download_seeder_fallback env round block_spec self blocks idx candidates :
  _blocks_cache self !! spec_name block_spec = Some blocks →
  collect_availability env round blocks = [] →
  _next_download env round block_spec self = Ok (idx, candidates) →
  blocks !! idx = Some None ∧
  ∃ sp, peers env !! seeder block_spec = Some sp ∧ candidates = [sp].
Proof.
  intros Hcache Hnone. unfold _next_download. rewrite Hcache, Hnone. simpl.
  destruct (random_choice _ _) as [i|] eqn:Hchoice; simpl; [|done].
  unfold peers_getitem. destruct (peers env !! seeder block_spec) as [sp|]; simpl; [|done].
  intros [= <- <-]. split; [|by eexists].
  apply remaining_spec. by eapply random_choice_elem.
Qed.

(** C6, at the failing input: slots 0 and 1 are empty; [w0] advertises
    block 0, then [w1] advertises blocks 0 and 1. Block 0 has two
    advertisers and block 1 has one, and [_next_download] returns block 1:
    the sort key [itemgetter(1)] is the list of workers itself, so the
    lists [[w0, w1]] and [[w1]] are compared element by element. *)
Theorem next_download_ignores_count :
  collect_availability Examples.two_advertisers 0 [None; None]
    = [(0, [Examples.w0; Examples.w1]); (1, [Examples.w1])] ∧
  _next_download Examples.two_advertisers 0 Examples.spec_x Examples.two_missing
    = Ok (1, [Examples.w1]).
Proof. split; vm_compute; reflexivity. Qed.

(** ** The candidates loop *)

Lemma list_remove_first_in_length {A} `{EqDecision A} (x : A) (l : list A) :
  x ∈ l → S (length (list_remove_first x l)) = length l.
Proof.
  induction l as [|y l IH]; simpl; [by intros ?%elem_of_nil|].
  intros Hin. case_decide as Hxy; [done|]. simpl. rewrite IH; [done|].
  apply elem_of_cons in Hin as [->|Hin]; done.
Qed.

Lemma list_remove_first_cases {A} `{EqDecision A} (x c : A) (l : list A) :
  c ∈ l → c = x ∨ c ∈ list_remove_first x l.
Proof.
  induction l as [|y l IH]; simpl; [by intros ?%elem_of_nil|].
  intros Hin. case_decide as Hxy.
  - apply elem_of_cons in Hin as [->|Hin]; auto.
  - apply elem_of_cons in Hin as [->|Hin]; [right; left|].
    destruct (IH Hin); auto. right. by right.
Qed.

Lemma list_remove_first_elem_of {A} `{EqDecision A} (x c : A) (l : list A) :
  c ∈ list_remove_first x l → c ∈ l.
Proof.
  induction l as [|y l IH]; simpl; [done|]. case_decide.
  - by right.
  - rewrite !elem_of_cons. intros [->|Hin]; auto.
Qed.

(** The fuel given by [download_iteration] is enough: the loop reaches its
    [else] only after every candidate has failed. *)
Lemma try_candidates_exhausted fetch rnd fuel : ∀ k local remote,
  length local + length remote ≤ fuel →
  try_candidates fuel fetch rnd k local remote = None →
  ∀ c, c ∈ local ++ remote → ∃ e, fetch c = Raise e.
Proof.
  induction fuel as [|fuel IH]; intros k local remote Hfuel Hnone c Hc.
  { destruct local, remote; simpl in Hfuel; try lia. by apply elem_of_nil in Hc. }
  simpl in Hnone. destruct local as [|a local].
  - destruct remote as [|b remote]; [by apply elem_of_nil in Hc|].
    destruct (random_choice_ok (rnd k) (b :: remote) ltac:(done)) as [source Hsource].
    rewrite Hsource in Hnone. pose proof (random_choice_elem _ _ _ Hsource) as Hin.
    destruct (fetch source) as [?|e] eqn:Hfetch; [done|].
    pose proof (list_remove_first_in_length source (b :: remote) Hin) as Hlen.
    simpl in Hc. destruct (list_remove_first_cases source c (b :: remote) Hc) as [->|Hc'].
    + by exists e.
    + eapply (IH (S k) [] _); [|exact Hnone|exact Hc']. simpl in *. lia.
  - destruct (random_choice_ok (rnd k) (a :: local) ltac:(done)) as [source Hsource].
    rewrite Hsource in Hnone. pose proof (random_choice_elem _ _ _ Hsource) as Hin.
    destruct (fetch source) as [?|e] eqn:Hfetch; [done|].
    pose proof (list_remove_first_in_length source (a :: local) Hin) as Hlen.
    apply elem_of_app in Hc as [Hc|Hc].
    + destruct (list_remove_first_cases source c (a :: local) Hc) as [->|Hc'].
      * by exists e.
      * eapply (IH (S k) _ remote); [|exact Hnone|apply elem_of_app; by left].
        simpl in *. lia.
    + eapply (IH (S k) _ remote); [|exact Hnone|apply elem_of_app; by right].
      simpl in *. lia.
Qed.

Section Download.
Context (env : Env) (block_spec : BlockSpec) (sp : PeerNode).


Let name := spec_name block_spec.

Hypothesis seeder_is_peer : peers env !! seeder block_spec = Some sp.
Hypothesis seeder_has_blocks :
  ∀ round idx, idx < num_blocks block_spec →
    ∃ b, get_block_rpc env round sp name idx = Ok b.

Lemma store_block_spec idx block self blocks :
  _blocks_cache self !! name = Some blocks →
  idx < length blocks →
  store_block name idx block self
    = Ok (mkBlockManager (self_name self)
            (<[name := <[idx := Some block]> blocks]> (_blocks_cache self))
            (_available_events self)).
Proof. intros Hc Hi. unfold store_block. rewrite Hc. by rewrite decide_True. Qed.

(** One pass of the loop fills exactly one empty slot. *)
Lemma download_iteration_fills round self blocks :
  _blocks_cache self !! name = Some blocks →
  length blocks = num_blocks block_spec →
  0 < missing blocks →
  ∃ idx block,
    blocks !! idx = Some None ∧
    download_iteration env block_spec round self
      = Ok (mkBlockManager (self_name self)
              (<[name := <[idx := Some block]> blocks]> (_blocks_cache self))
              (_available_events self)).
Proof.
  intros Hcache Hlen Hmiss.
  destruct (next_download_missing env round block_spec self blocks sp Hcache Hmiss
              seeder_is_peer) as (idx & candidates & Hnext & Hidx).
  assert (Hlt : idx < length blocks) by (by eapply lookup_lt_Some).
  unfold download_iteration. rewrite Hnext. simpl.
  destruct (try_candidates _ _ _ _ _ _) as [block|].
  - exists idx, block. split; [done|]. by apply store_block_spec.
  - unfold peers_getitem. rewrite seeder_is_peer. simpl.
    destruct (seeder_has_blocks round idx ltac:(lia)) as [block Hblock].
    fold name. rewrite Hblock. simpl.
    exists idx, block. split; [done|]. by apply store_block_spec.
Qed.

Lemma download_loop_fills n : ∀ round self blocks,
  _blocks_cache self !! name = Some blocks →
  length blocks = num_blocks block_spec →
  missing blocks = n →
  ∃ trace self' blocks',
    download_loop env block_spec n round self = (trace, Ok self') ∧
    _blocks_cache self' !! name = Some blocks' ∧
    length blocks' = num_blocks block_spec ∧
    Forall is_Some blocks' ∧
    self_name self' = self_name self ∧
    _available_events self' = _available_events self ∧
    Forall (entry_sized block_spec) trace.
Proof.
  induction n as [|n IH]; intros round self blocks Hcache Hlen Hmiss.
  - exists [], self, blocks. simpl. repeat split; try done. by apply missing_zero.
  - destruct (download_iteration_fills round self blocks Hcache Hlen ltac:(lia))
      as (idx & block & Hidx & Hiter).
    set (self1 := mkBlockManager _ _ _) in Hiter.
    destruct (IH (S round) self1 (<[idx := Some block]> blocks))
      as (trace & self' & blocks' & Hloop & Hc' & Hl' & Hall & Hn' & He' & Htrace).
    { unfold self1. simpl. by rewrite lookup_insert_eq. }
    { by rewrite length_insert. }
    { pose proof (missing_insert blocks idx block Hidx). lia. }
    exists (self1 :: trace), self', blocks'.
    simpl. rewrite Hiter, Hloop. repeat split; try done.
    constructor; [|done].
    exists (<[idx := Some block]> blocks). unfold self1. simpl.
    by rewrite lookup_insert_eq, length_insert.
Qed.

Lemma download_fills self :
  seeder block_spec ≠ self_name self →
  ∃ trace self' blocks,
    _download env block_spec self = (trace, Ok self') ∧
    _blocks_cache self' !! name = Some blocks ∧
    length blocks = num_blocks block_spec ∧
    Forall is_Some blocks ∧
    _available_events self' = _available_events self ∧
    Forall (entry_sized block_spec) trace.
Proof.
  intros Hseeder. unfold _download. rewrite decide_True by done.
  set (self0 := mkBlockManager _ _ _).
  destruct (download_loop_fills (num_blocks block_spec) 0 self0
              (replicate (num_blocks block_spec) None))
    as (trace & self' & blocks & Hloop & Hc & Hl & Hall & _ & He & Htrace).
  { unfold self0. simpl. by rewrite lookup_insert_eq. }
  { by rewrite length_replicate. }
  { by rewrite missing_replicate. }
  rewrite length_replicate, Hloop.
  exists (self0 :: trace), self', blocks. repeat split; try done.
  constructor; [|done].
  exists (replicate (num_blocks block_spec) None). unfold self0. simpl.
  by rewrite lookup_insert_eq, length_replicate.
Qed.

(** C7, for a node that has no availability event for the name: when
    the seeder is a peer that delivers each of the [num_blocks] blocks
    (the node is then not the seeder itself), [get_blocks] starts the
    download and returns; the sequence returned has [num_blocks] slots and
    none of them is empty; every state of the manager from the start of
    the download on has a cache entry of [num_blocks] slots for the name.
    Afterwards the event is set, and every later [get_blocks] for the
    name returns this same sequence without a download, whatever its
    block spec says. *)
Theorem get_blocks_complete (self : BlockManager) :
  _available_events self !! name = None →
  seeder block_spec ≠ self_name self →
  ∃ trace blocks self',
    get_blocks env block_spec self = (trace, Returned blocks self') ∧
    length blocks = num_blocks block_spec ∧
    Forall is_Some blocks ∧
    _blocks_cache self' !! name = Some blocks ∧
    _available_events self' !! name = Some true ∧
    trace ≠ [] ∧
    Forall (entry_sized block_spec) trace ∧
    (∀ env' block_spec',
       spec_name block_spec' = name →
       get_blocks env' block_spec' self' = ([], Returned blocks self')).
Proof.
  intros Hevent Hseeder. unfold get_blocks at 1. fold name. rewrite Hevent.
  destruct (download_fills (set_event name false self) Hseeder)
    as (trace & self2 & blocks & Hdl & Hc & Hl & Hall & He & Htrace).
  rewrite Hdl. unfold cache_getitem. simpl. rewrite Hc.
  eexists _, _, _. split; [reflexivity|].
  split; [done|]. split; [done|]. split; [done|].
  split; [simpl; by rewrite lookup_insert_eq|].
  split; [by destruct trace|].
  split.
  { apply Forall_app. split; [done|]. repeat constructor. by exists blocks. }
  intros env' block_spec' Hname. unfold get_blocks. rewrite Hname. simpl.
  rewrite lookup_insert_eq. unfold cache_getitem. simpl. by rewrite Hc.
Qed.

End Download.

Lemma get_blocks_complete_witness :
  ∃ trace blocks self',
    get_blocks Examples.seeder_only Examples.spec_x Examples.p2_manager
      = (trace, Returned blocks self') ∧
    length blocks = 4 ∧ Forall is_Some blocks.
Proof.
  destruct (get_blocks_complete Examples.seeder_only Examples.spec_x Examples.p1)
    with (self := Examples.p2_manager)
    as (trace & blocks & self' & H1 & H2 & H3 & _).
  - reflexivity.
  - intros round idx _. eexists. reflexivity.
  - reflexivity.
  - done.
  - by exists trace, blocks, self'.
Defined.

(** C7 as stated fails on a node that holds an entry for the name: the
    seeder [P1] delivers each of the 4 blocks of [spec_x], but the node
    has fetched the name before, when it had 2 blocks; [get_blocks]
    finds the event set and returns the 2 blocks of its cache. *)
Lemma get_blocks_stale_entry :
  peers Examples.seeder_only !! seeder Examples.spec_x = Some Examples.p1 ∧
  (∀ round idx, idx < num_blocks Examples.spec_x →
     ∃ b, get_block_rpc Examples.seeder_only round Examples.p1 "x" idx = Ok b) ∧
  ∃ trace blocks self',
    get_blocks Examples.seeder_only Examples.spec_x_before Examples.p2_manager
      = (trace, Returned blocks self') ∧
    get_blocks Examples.seeder_only Examples.spec_x self' = ([], Returned blocks self') ∧
    length blocks = 2 ∧
    num_blocks Examples.spec_x = 4.
Proof.
  split; [reflexivity|]. split; [intros round idx _; by eexists|].
  eexists _, _, _. split; [vm_compute; reflexivity|].
  split; [vm_compute; reflexivity|]. by split.
Qed.

End BlocksFacts.

Module JobFacts.
Import Job.

(** ** Python list operations *)

Lemma py_pop_snoc {A} (l : list A) (x : A) : py_pop (l ++ [x]) = Some (l, x).
Proof. unfold py_pop. rewrite reverse_snoc. by rewrite reverse_involutive. Qed.

Lemma py_pop_Some {A} (l rest : list A) (x : A) :
  py_pop l = Some (rest, x) → l = rest ++ [x].
Proof.
  unfold py_pop. destruct (reverse l) as [|y r] eqn:Hr; [done|].
  intros [= <- <-]. rewrite <- (reverse_involutive l), Hr. apply reverse_cons.
Qed.



Lemma list_remove_first_elem (w x : PeerNode) (l : list PeerNode) :
  x ∈ list_remove_first w l → x ∈ l.
Proof.
  induction l as [|y l IH]; simpl; [done|]. case_decide.
  - by right.
  - rewrite !elem_of_cons. intros [->|H']; auto.
Qed.

Lemma list_remove_first_NoDup (w : PeerNode) (l : list PeerNode) :
  NoDup l → NoDup (list_remove_first w l) ∧ w ∉ list_remove_first w l.
Proof.
  induction 1 as [|y l Hy Hl IH]; simpl.
  - split; [constructor|]. apply not_elem_of_nil.
  - case_decide; subst; [done|]. destruct IH as [IH1 IH2]. split.
    + constructor; [|done]. intros Hin. by apply Hy, list_remove_first_elem with w.
    + rewrite not_elem_of_cons. done.
Qed.

(** ** The task objects *)

Lemma objects_lookup (tasks : list Task) (k i : nat) (t : Task) :
  objects tasks !! k = Some (i, t) ↔ i = k ∧ tasks !! k = Some t.
Proof.
  unfold objects. rewrite list_lookup_imap.
  destruct (tasks !! k) as [t'|]; simpl.
  - split; [by intros [= <- <-]|by intros [-> [= ->]]].
  - split; [done|by intros [_ [=]]].
Qed.

Lemma objects_length (tasks : list Task) : length (objects tasks) = length tasks.
Proof. unfold objects. by rewrite length_imap. Qed.

Lemma objects_fst (tasks : list Task) : (objects tasks).*1 = seq 0 (length tasks).
Proof.
  apply list_eq. intros i. unfold objects.
  rewrite list_lookup_fmap, list_lookup_imap.
  destruct (tasks !! i) eqn:Ht; simpl; symmetry.
  - apply lookup_seq. split; [done|]. by eapply lookup_lt_Some.
  - apply lookup_seq_ge. by apply lookup_ge_None.
Qed.

Lemma drop_cons_inv {A} (l r : list A) (k : nat) (x : A) :
  drop k l = x :: r → l !! k = Some x ∧ drop (S k) l = r.
Proof.
  intros H.
  assert (Hk : l !! k = Some x).
  { rewrite <- (Nat.add_0_r k), <- lookup_drop, H. done. }
  split; [done|]. rewrite (drop_S _ _ _ Hk) in H. by simplify_eq.
Qed.

(** ** The invariant of [_execute_eagerly] *)

Section EagerInvariant.
Context {V : Type} (tasks : list Task) (workers : list PeerNode).

Implicit Types s : Eager V.

Lemma init_invariant : invariant tasks (init (V := V) tasks workers).
Proof.
  split; simpl.
  - by rewrite length_replicate.
  - exists 0. by rewrite drop_0.
  - intros j v H. by rewrite lookup_nil in H.
  - done.
  - done.
  - intros i t Hin. rewrite elem_of_reverse, list_elem_of_lookup in Hin.
    destruct Hin as [k Hk]. apply objects_lookup in Hk as [-> Hk].
    apply lookup_replicate_2. by eapply lookup_lt_Some.
  - rewrite fmap_reverse, objects_fst, reverse_Permutation. apply NoDup_seq.
  - intros i Hi. apply lookup_replicate in Hi as [_ Hi].
    destruct (lookup_lt_is_Some_2 tasks i Hi) as [t Ht].
    exists t. rewrite elem_of_reverse, list_elem_of_lookup. exists i.
    by apply objects_lookup.
  - constructor.
  - intros w Hw. by apply elem_of_nil in Hw.
  - intros i w Hi. by apply lookup_replicate in Hi as [[=] _].
  - intros i j w Hi. by apply lookup_replicate in Hi as [[=] _].
  - constructor.
  - constructor.
  - intros w Hw. by apply elem_of_nil in Hw.
  - intros w [Hw|Hw]; by apply elem_of_nil in Hw.
Qed.

Lemma complete_invariant i outcome s s' :
  invariant tasks s → complete i outcome s = Some s' → invariant tasks s'.
Proof.
  intros [I1 I2 I3 I4 I5 I6 I7 I8 I9 I10 I11 I12 I13 I14 I15 I16]. unfold complete.
  destruct (futures s !! i) as [[[w|o]|]|] eqn:Hf; try done.
  intros [= <-].
  assert (Hi : i < length (futures s)) by (by eapply lookup_lt_Some).
  assert (Hrel : w ∉ releasing s).
  { intros Hin. destruct (I16 w (or_introl Hin)) as [_ Hno]. by apply (Hno i). }
  assert (Hrem : w ∉ removing s).
  { intros Hin. destruct (I16 w (or_intror Hin)) as [_ Hno]. by apply (Hno i). }
  split; simpl.
  - by rewrite length_insert.
  - done.
  - intros j v Hj. rewrite list_lookup_insert_ne; [by apply I3|].
    intros <-. specialize (I3 _ _ Hj). congruence.
  - done.
  - done.
  - intros i' t Hin. rewrite list_lookup_insert_ne; [by eapply I6|].
    intros <-. specialize (I6 _ _ Hin). congruence.
  - done.
  - intros i' Hi'. destruct (decide (i = i')) as [<-|Hne].
    + by rewrite list_lookup_insert_eq in Hi'.
    + rewrite list_lookup_insert_ne in Hi' by done. by apply I8.
  - done.
  - intros w' Hw'. destruct (I10 w' Hw') as [[i' Hi']|[Hr|Hr]].
    + destruct (decide (i = i')) as [<-|Hne].
      * right. left. rewrite Hf in Hi'. injection Hi' as <-.
        apply elem_of_app. right. left.
      * left. exists i'. by rewrite list_lookup_insert_ne.
    + right. left. apply elem_of_app. by left.
    + by right; right.
  - intros i' w' Hi'. destruct (decide (i = i')) as [<-|Hne].
    + by rewrite list_lookup_insert_eq in Hi'.
    + rewrite list_lookup_insert_ne in Hi' by done. by eapply I11.
  - intros i1 i2 w' H1 H2.
    destruct (decide (i = i1)) as [<-|Hne1];
      [by rewrite list_lookup_insert_eq in H1|].
    destruct (decide (i = i2)) as [<-|Hne2];
      [by rewrite list_lookup_insert_eq in H2|].
    rewrite list_lookup_insert_ne in H1, H2 by done. by eapply I12.
  - apply NoDup_app. split; [done|]. split; [|apply NoDup_singleton].
    intros x Hx Hin. apply list_elem_of_singleton in Hin as ->. done.
  - done.
  - intros w' Hw'. apply elem_of_app in Hw' as [Hw'|Hw']; [by apply I15|].
    apply list_elem_of_singleton in Hw' as ->. done.
  - intros w' Hw'.
    assert (Hold : w' = w ∨ w' ∈ releasing s ∨ w' ∈ removing s).
    { destruct Hw' as [Hw'|Hw']; [|by right; right].
      apply elem_of_app in Hw' as [Hw'|Hw']; [by right; left|].
      apply list_elem_of_singleton in Hw'. by left. }
    split.
    + destruct Hold as [->|Hold]; [by eapply I11|by apply I16].
    + intros i' Hi'. destruct (decide (i = i')) as [<-|Hne].
      * by rewrite list_lookup_insert_eq in Hi'.
      * rewrite list_lookup_insert_ne in Hi' by done.
        destruct Hold as [->|Hold]; [by apply Hne, (I12 i i' w)|].
        destruct (I16 w' Hold) as [_ Hno]. by apply (Hno i').
Qed.

Lemma release_invariant w s s' :
  invariant tasks s → release w s = Some s' → invariant tasks s'.
Proof.
  intros [I1 I2 I3 I4 I5 I6 I7 I8 I9 I10 I11 I12 I13 I14 I15 I16]. unfold release.
  case_decide as Hw; [|done]. intros [= <-].
  destruct (list_remove_first_NoDup w _ I13) as [Hnd Hgone].
  split; simpl; try done.
  - intros w' Hw'. destruct (I10 w' Hw') as [?|[Hr|Hr]]; [by left| |].
    + destruct (BlocksFacts.list_remove_first_cases w w' _ Hr) as [->|?];
        [|by right; left].
      right. right. apply elem_of_app. right. left.
    + right. right. apply elem_of_app. by left.
  - apply NoDup_app. split; [done|]. split; [|apply NoDup_singleton].
    intros x Hx Hin. apply list_elem_of_singleton in Hin as ->. by apply (I15 w).
  - intros w' Hw' Hin.
    apply elem_of_app in Hin as [Hin|Hin].
    + apply (I15 w'); [|done]. by eapply list_remove_first_elem.
    + apply list_elem_of_singleton in Hin as ->. done.
  - intros w' Hw'. apply I16. destruct Hw' as [Hw'|Hw'].
    + left. by eapply list_remove_first_elem.
    + apply elem_of_app in Hw' as [?|Hw']; [by right|].
      apply list_elem_of_singleton in Hw' as ->. by left.
Qed.

Lemma remove_invariant w s s' :
  invariant tasks s → remove w s = Some s' → invariant tasks s'.
Proof.
  intros [I1 I2 I3 I4 I5 I6 I7 I8 I9 I10 I11 I12 I13 I14 I15 I16]. unfold remove.
  case_decide as Hw; [|done]. intros [= <-].
  destruct (list_remove_first_NoDup w _ I9) as [Hnd Hgone].
  destruct (list_remove_first_NoDup w _ I14) as [Hnd' Hgone'].
  destruct (I16 w (or_intror Hw)) as [Hocc Hnorun].
  split; simpl; try done.
  - intros w' Hw'.
    assert (Hne : w' ≠ w) by (by intros ->).
    apply list_remove_first_elem in Hw'.
    destruct (I10 w' Hw') as [?|[?|Hr]]; [by left|by right; left|].
    right. right.
    by destruct (BlocksFacts.list_remove_first_cases w w' _ Hr) as [->|?].
  - intros i w' Hi.
    destruct (BlocksFacts.list_remove_first_cases w w' _ (I11 _ _ Hi)) as [->|?];
      [|done].
    by destruct (Hnorun i).
  - intros w' Hw' Hin. apply (I15 w' Hw'). by eapply list_remove_first_elem.
  - intros w' Hw'.
    assert (Hold : w' ∈ releasing s ∨ w' ∈ removing s).
    { destruct Hw' as [?|?]; [by left|]. right. by eapply list_remove_first_elem. }
    assert (Hne : w' ≠ w).
    { intros ->. destruct Hw' as [Hr|Hr]; [by apply (I15 w Hr)|done]. }
    destruct (I16 w' Hold) as [Ho Hn]. split; [|done].
    by destruct (BlocksFacts.list_remove_first_cases w w' _ Ho) as [->|?].
Qed.

Lemma yield_phase_invariant s s' :
  invariant tasks s → at_ s = AtYield → yield_phase s = Some s' → invariant tasks s'.
Proof.
  intros [I1 I2 I3 I4 I5 I6 I7 I8 I9 I10 I11 I12 I13 I14 I15 I16] Hat.
  unfold yield_phase.
  destruct I2 as (k & Hty & Hk & Hk').
  assert (Hlen : k = length (yielded s)).
  { apply Hk'. intros e. by rewrite Hat. }
  clear Hk'.
  assert (Hskip : invariant tasks (skip_yield s)).
  { split; simpl; try done. exists k. done. }
  destruct (py_pop (to_yield s)) as [[rest [i t]]|] eqn:Hpop.
  - apply py_pop_Some in Hpop.
    assert (Hdrop : drop k (objects tasks) = (i, t) :: reverse rest).
    { rewrite <- (reverse_involutive (drop k _)), <- Hty, Hpop. apply reverse_snoc. }
    apply drop_cons_inv in Hdrop as [Hobj Hdrop].
    apply objects_lookup in Hobj as [-> _].
    assert (Hrest : rest = reverse (drop (S k) (objects tasks))).
    { by rewrite Hdrop, reverse_involutive. }
    assert (Hdeliver : ∀ outcome, futures s !! k = Some (Some (Done outcome)) →
              invariant tasks (deliver rest outcome s)).
    { intros [v|e] Hf; split; simpl; try done.
      - exists (S k). rewrite length_app. simpl. split; [done|]. split; lia.
      - intros j v' Hj. apply lookup_app_Some in Hj as [Hj|[Hge Hj]]; [by apply I3|].
        apply list_lookup_singleton_Some in Hj as [Hj ->].
        assert (j = k) as -> by lia. done.
      - exists (S k). split; [done|]. split; [lia|]. intros He. by destruct (He e). }
    destruct (futures s !! k) as [[[w|o]|]|] eqn:Hf;
      destruct (to_schedule s); intros [= <-]; auto.
  - intros [= <-]. split; simpl; try done.
    exists k. split; [done|]. split; [lia|]. intros He. by destruct (He IndexError).
Qed.

Lemma choose_worker_Some (task : Task) (occ : list PeerNode) (w : PeerNode) :
  choose_worker workers task occ = Some w → w ∉ occ.
Proof.
  unfold choose_worker. destruct (list_find _ _) as [[j w']|] eqn:Hfind; [|done].
  intros [= <-]. by apply list_find_Some in Hfind as (_ & ? & _).
Qed.

Lemma schedule_phase_invariant s s' :
  invariant tasks s → at_ s = AtSchedule → schedule_phase workers s = Some s' →
  invariant tasks s'.
Proof.
  intros [I1 I2 I3 I4 I5 I6 I7 I8 I9 I10 I11 I12 I13 I14 I15 I16] Hat.
  unfold schedule_phase.
  assert (I2' : ∃ k, to_yield s = reverse (drop k (objects tasks)) ∧
                     length (yielded s) ≤ k ∧ k = length (yielded s)).
  { destruct I2 as (k & Hty & Hk & Hk'). exists k. split; [done|]. split; [done|].
    apply Hk'. intros e. by rewrite Hat. }
  clear I2. destruct I2' as (k & Hty & Hk & Hlen).
  destruct (to_yield s) as [|y ty] eqn:Hyield.
  { intros [= <-]. split; simpl; try done. exists k. done. }
  assert (I2 : ∃ k, y :: ty = reverse (drop k (objects tasks)) ∧
                    length (yielded s) ≤ k ∧
                    ((∀ e, @AtYield ≠ Raised e) → k = length (yielded s))).
  { exists k. done. }
  destruct (py_pop (to_schedule s)) as [[rest [i t]]|] eqn:Hpop.
  2:{ intros [= <-]. split; simpl; try done. }
  apply py_pop_Some in Hpop.
  assert (Hit : futures s !! i = Some None).
  { apply (I6 i t). rewrite Hpop. apply elem_of_app. right. left. }
  assert (Hi : i < length (futures s)) by (by eapply lookup_lt_Some).
  rewrite Hpop, fmap_app in I7. apply NoDup_app in I7 as (Hnd & Hsep & _).
  assert (Hirest : ∀ t', (i, t') ∉ rest).
  { intros t' Hin. apply (Hsep i); [|left].
    apply list_elem_of_fmap. by exists (i, t'). }
  destruct (workers_available s) as [|permits] eqn:Hsem; [done|].
  destruct (choose_worker workers t (occupied s)) as [w|] eqn:Hchoose; intros [= <-].
  - apply choose_worker_Some in Hchoose.
    unfold set_add. rewrite decide_False by done.
    split; simpl; try done.
    + by rewrite length_insert.
    + intros j v Hj. rewrite list_lookup_insert_ne; [by apply I3|].
      intros <-. specialize (I3 _ _ Hj). congruence.
    + intros i' t' Hin. rewrite list_lookup_insert_ne.
      * apply (I6 i' t'). rewrite Hpop. apply elem_of_app. by left.
      * intros <-. by apply (Hirest t').
    + intros i' Hi'. destruct (decide (i = i')) as [<-|Hne].
      * by rewrite list_lookup_insert_eq in Hi'.
      * rewrite list_lookup_insert_ne in Hi' by done.
        destruct (I8 i' Hi') as [t' Hin]. exists t'.
        rewrite Hpop in Hin. apply elem_of_app in Hin as [Hin|Hin]; [done|].
        apply list_elem_of_singleton in Hin. by simplify_eq.
    + by constructor.
    + intros w' Hw'. apply elem_of_cons in Hw' as [->|Hw'].
      * left. exists i. by rewrite list_lookup_insert_eq.
      * destruct (I10 w' Hw') as [[i' Hi']|?]; [|by right]. left. exists i'.
        rewrite list_lookup_insert_ne; [done|]. intros <-. congruence.
    + intros i' w' Hi'. destruct (decide (i = i')) as [<-|Hne].
      * rewrite list_lookup_insert_eq in Hi' by done. injection Hi' as <-. left.
      * rewrite list_lookup_insert_ne in Hi' by done. right. by eapply I11.
    + intros i1 i2 w' H1 H2.
      destruct (decide (i = i1)) as [<-|Hne1], (decide (i = i2)) as [<-|Hne2];
        try done.
      * rewrite list_lookup_insert_eq in H1 by done. injection H1 as <-.
        rewrite list_lookup_insert_ne in H2 by done. by destruct Hchoose; eapply I11.
      * rewrite list_lookup_insert_eq in H2 by done. injection H2 as <-.
        rewrite list_lookup_insert_ne in H1 by done. by destruct Hchoose; eapply I11.
      * rewrite list_lookup_insert_ne in H1, H2 by done. by eapply I12.
    + intros w' Hw'. destruct (I16 w' Hw') as [Ho Hn]. split; [by right|].
      intros i' Hi'. destruct (decide (i = i')) as [<-|Hne].
      * rewrite list_lookup_insert_eq in Hi' by done. injection Hi' as <-. done.
      * rewrite list_lookup_insert_ne in Hi' by done. by apply (Hn i').
  - split; simpl; try done.
    + intros i' t' Hin. apply (I6 i' t'). rewrite Hpop.
      apply elem_of_app. apply elem_of_cons in Hin as [->|Hin]; [right; left|by left].
    + constructor; [|done]. intros Hin. apply (Hsep i Hin). left.
    + intros i' Hi'. destruct (I8 i' Hi') as [t' Hin]. exists t'.
      rewrite Hpop in Hin. apply elem_of_app in Hin as [Hin|Hin]; [by right|].
      apply list_elem_of_singleton in Hin as ->. left.
Qed.

Lemma step_invariant e s s' :
  invariant tasks s → step workers e s = Some s' → invariant tasks s'.
Proof.
  intros Hinv. destruct e as [|i outcome|w|w]; simpl.
  - destruct (at_ s) eqn:Hat; try done.
    + by apply schedule_phase_invariant.
    + by apply yield_phase_invariant.
  - by apply complete_invariant.
  - by apply release_invariant.
  - by apply remove_invariant.
Qed.

Lemma run_invariant schedule : ∀ s s',
  invariant tasks s → run workers schedule s = Some s' → invariant tasks s'.
Proof.
  induction schedule as [|e schedule IH]; intros s s' Hinv; simpl.
  - by intros [= <-].
  - destruct (step workers e s) as [s1|] eqn:Hstep; [|done].
    apply IH. by eapply step_invariant.
Qed.


(** *** Every step lowers the rank *)

Lemma filter_insert_length {A} (P : A → Prop) `{!∀ x, Decision (P x)}
    (l : list A) (i : nat) (x y : A) :
  l !! i = Some y →
  length (filter P (<[i := x]> l)) + (if decide (P y) then 1 else 0)
  = length (filter P l) + (if decide (P x) then 1 else 0).
Proof.
  revert i. induction l as [|z l IH]; intros [|i] Hi; simplify_eq/=.
  - rewrite !filter_cons. repeat case_decide; simpl; lia.
  - specialize (IH i Hi). rewrite !filter_cons.
    destruct (decide (P z)); simpl; lia.
Qed.

Lemma running_count_start s i w :
  futures s !! i = Some None →
  length (filter (λ f, is_running f = true) (<[i := Some (Running w)]> (futures s)))
  = S (running_count s).
Proof.
  intros Hi. unfold running_count.
  pose proof (filter_insert_length (λ f, is_running f = true) (futures s) i
                (Some (Running w)) None Hi) as H.
  rewrite decide_False, decide_True in H by done. lia.
Qed.

Lemma running_count_complete s i w outcome :
  futures s !! i = Some (Some (Running w)) →
  S (length (filter (λ f, is_running f = true) (<[i := Some (Done outcome)]> (futures s))))
  = running_count s.
Proof.
  intros Hi. unfold running_count.
  pose proof (filter_insert_length (λ f, is_running f = true) (futures s) i
                (Some (Done outcome)) (Some (Running w)) Hi) as H.
  rewrite decide_True, decide_False in H by done. lia.
Qed.

Lemma position_weight_bounds s : position_weight s ≤ 2.
Proof. unfold position_weight. destruct (at_ s), (to_schedule s); lia. Qed.




(** *** Exceptions only come from failed tasks *)



(** *** The generator can return *)




Lemma yield_phase_frame s s' :
  yield_phase s = Some s' →
  to_schedule s' = to_schedule s ∧ futures s' = futures s ∧
  occupied s' = occupied s ∧ workers_available s' = workers_available s ∧
  releasing s' = releasing s ∧ removing s' = removing s.
Proof.
  unfold yield_phase.
  destruct (py_pop (to_yield s)) as [[rest [i t]]|]; [|by intros [= <-]].
  destruct (futures s !! i) as [[[w|[v|x]]|]|];
    destruct (to_schedule s) eqn:Hts; intros [= <-]; simpl; by rewrite ?Hts.
Qed.






End EagerInvariant.



(** *** The race between a callback and the scheduling thread *)

(** Not every schedule lets the generator return. One worker, two tasks:
    the first task completes and its callback has called [release()];
    before it calls [occupied.remove(worker)] the scheduling thread takes
    the permit, finds the worker still occupied and puts the second task
    back, keeping the permit. Once the first result is yielded and the
    callback has ended, the scheduling thread waits in [acquire()] and
    nothing is left that could release a permit: no event is possible.
    What was yielded until then is in task order. *)
Lemma release_remove_race_blocks :
  ∃ s, _execute_eagerly [Examples.t0; Examples.t1] [Examples.w0]
         Examples.racing = Some s ∧
       yielded s = [10%Z] ∧
       to_schedule s = [(1, Examples.t1)] ∧
       at_ s = AtSchedule ∧
       workers_available s = 0 ∧
       ∀ e, step [Examples.w0] e s = None.
Proof.
  eexists. split; [vm_compute; reflexivity|]. repeat split.
  intros [|i outcome|w|w]; [reflexivity| |reflexivity|reflexivity].
  destruct i as [|[|i]]; reflexivity.
Qed.

(** *** A task runs once *)

(** The future of a task that has completed stays as it is: no step of
    the scheduler gives the task another run. *)
Lemma yield_phase_same {V : Type} (s s' : Eager V) :
  yield_phase s = Some s' →
  to_schedule s' = to_schedule s ∧ futures s' = futures s.
Proof.
  unfold yield_phase.
  destruct (py_pop (to_yield s)) as [[rest [i t]]|]; [|by intros [= <-]].
  destruct (futures s !! i) as [[[w|[v|x]]|]|];
    destruct (to_schedule s) eqn:Hts; intros [= <-]; simpl; by rewrite ?Hts.
Qed.

Lemma done_is_final {V : Type} (workers : list PeerNode) (schedule : list (event V)) :
  ∀ (s s' : Eager V) i outcome,
    (∀ t, (i, t) ∉ to_schedule s) →
    futures s !! i = Some (Some (Done outcome)) →
    run workers schedule s = Some s' →
    futures s' !! i = Some (Some (Done outcome)).
Proof.
  induction schedule as [|e schedule IH]; intros s s' i outcome Hts Hf; simpl.
  - by intros [= <-].
  - destruct (step workers e s) as [s1|] eqn:Hstep; [|done].
    assert ((∀ t, (i, t) ∉ to_schedule s1) ∧
            futures s1 !! i = Some (Some (Done outcome))) as [Hts1 Hf1];
      [|by apply IH].
    destruct e as [|i' outcome'|w|w]; simpl in Hstep.
    + destruct (at_ s); try done.
      * unfold schedule_phase in Hstep. destruct (to_yield s); [by simplify_eq|].
        destruct (py_pop (to_schedule s)) as [[rest [i' t']]|] eqn:Hpop; [|by simplify_eq].
        apply py_pop_Some in Hpop. destruct (workers_available s); [done|].
        destruct (choose_worker _ _ _); simplify_eq/=; split; try done.
        -- intros t Hin. apply (Hts t). rewrite Hpop. apply elem_of_app. by left.
        -- rewrite list_lookup_insert_ne; [done|]. intros <-.
           apply (Hts t'). rewrite Hpop. apply elem_of_app. right. left.
        -- intros t Hin. apply (Hts t). rewrite Hpop. apply elem_of_app.
           apply elem_of_cons in Hin as [->|Hin]; [right; left|by left].
      * apply yield_phase_same in Hstep as [-> ->]. done.
    + unfold complete in Hstep.
      destruct (futures s !! i') as [[[w|o]|]|] eqn:Hf'; simplify_eq/=.
      split; [done|]. rewrite list_lookup_insert_ne; [done|]. intros <-. congruence.
    + unfold release in Hstep. case_decide; by simplify_eq/=.
    + unfold remove in Hstep. case_decide; by simplify_eq/=.
Qed.

(** X16: once the run of a task has failed, the stage never yields a
    result for that task (or for a later one) and never returns normally:
    the failed future is all the scheduler will ever have for it. *)
Lemma failed_task_never_yields {V : Type} (tasks : list Task)
    (workers : list PeerNode) (schedule : list (event V)) (s : Eager V) i e :
  workers ≠ [] →
  _execute_eagerly tasks workers schedule = Some s →
  futures s !! i = Some (Some (Done (Raise e))) →
  length (yielded s) ≤ i ∧ at_ s ≠ Returned.
Proof.
  intros Hworkers Hrun Hfailed. unfold _execute_eagerly in Hrun.
  pose proof (run_invariant tasks workers schedule _ _
                (init_invariant tasks workers) Hrun) as Hinv.
  assert (Hlen : length (yielded s) ≤ i).
  { destruct (decide (length (yielded s) ≤ i)) as [|Hgt]; [done|].
    destruct (lookup_lt_is_Some_2 (yielded s) i ltac:(lia)) as [v Hv].
    apply (inv_yielded _ _ Hinv) in Hv. congruence. }
  split; [done|]. intros Hat.
  destruct (inv_to_yield _ _ Hinv) as (k & Hty & _ & Hk).
  rewrite (inv_returned _ _ Hinv Hat) in Hty.
  assert (Hdrop : drop k (objects tasks) = []).
  { by rewrite <- (reverse_involutive (drop k _)), <- Hty. }
  apply (f_equal length) in Hdrop. rewrite length_drop, objects_length in Hdrop.
  simpl in Hdrop.
  assert (k = length (yielded s)) by (apply Hk; intros x; by rewrite Hat).
  apply lookup_lt_Some in Hfailed. rewrite (inv_futures _ _ Hinv) in Hfailed. lia.
Qed.

(** C3, at the failing input: one task on two idle workers whose run fails
    once with a remote invocation error. The failure leaves the generator
    through [yield to_yield.pop().result()]: nothing has been yielded, the
    task is in no queue and its future holds the exception, the second
    worker was never asked. *)
Theorem eager_failure_propagates :
  ∃ s, _execute_eagerly [Examples.t0] [Examples.w0; Examples.w1] Examples.failing_once
         = Some s ∧
       at_ s = Raised (InvocationException "first attempt") ∧
       yielded s = [] ∧
       to_schedule s = [] ∧
       futures s = [Some (Done (Raise (InvocationException "first attempt")))] ∧
       task_counts s = ["w0"].
Proof. eexists. split; [vm_compute; reflexivity|]. by repeat split. Qed.

(** ** [Job.execute] without stages *)

(** C9, at the failing input: a job whose [stages] list is empty. However
    the stages would be run, [execute] yields nothing and raises nothing,
    and the only signal the job has emitted is its start: [signal_stop] is
    called by [_stage_done] for the last stage or by the [except:] clause,
    and neither is reached. The job is left running. *)
Theorem execute_no_stages_never_stops {V : Type}
    (run_stage : Stage → bool → Stage * result (list V)) (eager : bool) :
  ∃ job',
    execute run_stage eager (mkJob new_lifecycle []) = (job', [], None) ∧
    signals (job_life job') = [Start] ∧
    stopped (job_life job') = false ∧
    running (job_life job') = true.
Proof. eexists. split; [reflexivity|]. by repeat split. Qed.

End JobFacts.

Module NodeFacts.
Import Node.

(** ** Listening *)

Lemma probe_ports_exhausted (os : OS) (host : string) (n : nat) : ∀ port last,
  (∀ p, port ≤ p < port + n → ∃ errno, start_server os host p = Raise (OSError errno)) →
  probe_ports os host port n last
  = Ok (match n with O => last | S n' => port + n' end, None).
Proof.
  induction n as [|n IH]; intros port last Hbusy; simpl; [done|].
  destruct (Hbusy port ltac:(lia)) as [errno ->].
  rewrite IH by (intros p Hp; apply Hbusy; lia).
  destruct n; simpl; repeat f_equal; lia.
Qed.

(** C8, as the code has it: an address whose scheme is neither [tcp] nor
    [unix] makes [_start_server] raise a [ValueError]; and when binding
    raises [OSError] on each of the 1000 ports probed, [_start_server]
    returns normally and leaves the node as it was (no server is
    recorded). *)
Theorem start_server_failures (os : OS) (address : string) (self : NodeState) :
  let parsed := urlparse os address in
  let port0 := match port parsed with Some (S p) => S p | _ => 5000 end in
  (scheme parsed ≠ "tcp" → scheme parsed ≠ "unix" →
     ∃ msg, _start_server os address self = Raise (ValueError msg)) ∧
  (scheme parsed = "tcp" →
     (∀ p, port0 ≤ p < port0 + 1000 →
        start_server os (hostname parsed) p = Raise (OSError EADDRINUSE)) →
     _start_server os address self = Ok self).
Proof.
  intros parsed port0. unfold _start_server. fold parsed. split.
  - intros Htcp Hunix. rewrite !decide_False by done. by eexists.
  - intros Htcp Hbusy. rewrite decide_True by done.
    unfold _start_tcp_server. fold port0.
    rewrite (probe_ports_exhausted os (hostname parsed) 1000 port0 port0).
    + done.
    + intros p Hp. exists EADDRINUSE. by apply Hbusy.
Qed.

Lemma start_server_failures_witness :
  (∃ msg, _start_server (Examples.all_ports_taken Examples.parse_http)
            "http://example:80" Examples.node_listening = Raise (ValueError msg)) ∧
  _start_server (Examples.all_ports_taken Examples.parse_tcp)
    "tcp://example:5000" Examples.node_listening = Ok Examples.node_listening.
Proof.
  split.
  - apply (start_server_failures (Examples.all_ports_taken Examples.parse_http)
             "http://example:80" Examples.node_listening); done.
  - apply (start_server_failures (Examples.all_ports_taken Examples.parse_tcp)
             "tcp://example:5000" Examples.node_listening); done.
Defined.

(** C8 as stated fails: neither failure is a [ConfigurationError]. The
    unsupported scheme raises [ValueError], and the exhausted port range
    raises nothing. *)
Lemma start_server_no_configuration_error :
  _start_server (Examples.all_ports_taken Examples.parse_http)
    "http://example:80" Examples.node_listening
  = Raise (ValueError "unsupported scheme http in address http://example:80") ∧
  _start_server (Examples.all_ports_taken Examples.parse_tcp)
    "tcp://example:5000" Examples.node_listening = Ok Examples.node_listening ∧
  ¬ (∃ msg, _start_server (Examples.all_ports_taken Examples.parse_http)
              "http://example:80" Examples.node_listening
            = Raise (ConfigurationError msg)) ∧
  ¬ (∃ msg, _start_server (Examples.all_ports_taken Examples.parse_tcp)
              "tcp://example:5000" Examples.node_listening
            = Raise (ConfigurationError msg)).
Proof.
  assert (H1 : _start_server (Examples.all_ports_taken Examples.parse_http)
                 "http://example:80" Examples.node_listening
               = Raise (ValueError "unsupported scheme http in address http://example:80"))
    by reflexivity.
  assert (H2 : _start_server (Examples.all_ports_taken Examples.parse_tcp)
                 "tcp://example:5000" Examples.node_listening = Ok Examples.node_listening)
    by (vm_compute; reflexivity).
  repeat split; try done.
  - intros [msg H]. rewrite H1 in H. discriminate.
  - intros [msg H]. rewrite H2 in H. discriminate.
Qed.

(** ** The connection contest *)

(** C4, for a connecting peer whose connection is up (the code asserts
    it): when a connected record [known] for the name of the connecting
    [peer] exists (and that name is not the node's own), exactly one of
    the two is disconnected, with a reason that starts with "already
    connected", and the other one, the winner, is the entry under the name
    afterwards. The one disconnected is the one with the lower tiebreak
    key: the new connection when its key is below that of the known one,
    the known connection when its key is below that of the new one (and
    also on equal keys). Entries under other names are untouched, and of
    the two connections only the winner's is still active. *)
Theorem peer_connected_contest (peer known : PeerNode) (self : NodeState) :
  node_name self ≠ name peer →
  peers self !! name peer = Some known →
  is_connected known = true →
  is_connected peer = true →
  ∃ winner loser reason ret self',
    _peer_connected peer self = Ok (ret, self') ∧
    ((winner = known ∧ loser = peer ∧ ret = None) ∨
     (winner = peer ∧ loser = known ∧ ret = Some true)) ∧
    disconnected self' = disconnected self ++ [(loser, reason)] ∧
    String.prefix "already connected" reason = true ∧
    peers self' !! name peer = Some winner ∧
    (∀ key, key ≠ name peer → peers self' !! key = peers self !! key) ∧
    tiebreak loser ≤ tiebreak winner ∧
    (tiebreak peer < tiebreak known → loser = peer ∧ winner = known) ∧
    (tiebreak known < tiebreak peer → loser = known ∧ winner = peer) ∧
    (∀ c, c = known ∨ c = peer → active self' c → c = winner).
Proof.
  intros Hself Hknown Hkc Hpc. unfold _peer_connected.
  rewrite Hknown, Hpc, Hkc. rewrite decide_False by done. simpl.
  unfold peer_lt. case_bool_decide as Hlt.
  - exists known, peer, "already connected, old connection wins", None.
    eexists. split; [reflexivity|]. simpl.
    split; [by left|]. split; [done|]. split; [done|]. split; [done|].
    split; [done|]. split; [lia|]. split; [done|]. split; [lia|].
    intros c [->| ->] [_ Hactive]; [done|].
    destruct (Hactive "already connected, old connection wins").
    apply elem_of_app. right. left.
  - exists peer, known, "already connected, new connection wins", (Some true).
    eexists. split; [reflexivity|]. simpl.
    split; [by right|]. split; [done|]. split; [done|].
    split; [by rewrite lookup_insert_eq|].
    split; [intros key Hkey; rewrite lookup_insert_ne by done;
            by rewrite lookup_delete_ne|].
    split; [lia|]. split; [lia|]. split; [done|].
    intros c [->| ->] [_ Hactive]; [|done].
    destruct (Hactive "already connected, new connection wins").
    apply elem_of_app. right. left.
Qed.

Lemma peer_connected_contest_witness :
  ∃ winner loser reason ret self',
    _peer_connected Examples.new_r Examples.node_n = Ok (ret, self') ∧
    disconnected self' = [(loser, reason)] ∧
    peers self' !! "R" = Some winner ∧
    tiebreak loser ≤ tiebreak winner.
Proof.
  destruct (peer_connected_contest Examples.new_r Examples.known_r Examples.node_n)
    as (winner & loser & reason & ret & self' & H1 & _ & H2 & _ & H3 & _ & H4 & _);
    [done..|].
  by exists winner, loser, reason, ret, self'.
Defined.

(** C4 as stated fails for a connecting peer whose connection is not up:
    the known record is connected and the new peer carries the lower key,
    but the assertion [assert peer.is_connected] fails; nobody is
    disconnected. *)
Lemma peer_connected_unconnected_peer_raises :
  node_name Examples.node_n ≠ name Examples.unconnected_r ∧
  peers Examples.node_n !! name Examples.unconnected_r = Some Examples.known_r ∧
  is_connected Examples.known_r = true ∧
  tiebreak Examples.unconnected_r < tiebreak Examples.known_r ∧
  _peer_connected Examples.unconnected_r Examples.node_n = Raise AssertionError ∧
  ¬ (∃ ret self' reason,
       _peer_connected Examples.unconnected_r Examples.node_n = Ok (ret, self') ∧
       (Examples.unconnected_r, reason) ∈ disconnected self').
Proof.
  split; [done|]. split; [done|]. split; [done|]. split; [simpl; lia|].
  split; [reflexivity|]. intros (ret & self' & reason & Hrun & _). discriminate Hrun.
Qed.

(** ** Self-connects *)

(** With no record under the peer's name, [_peer_connected] installs the
    peer and disconnects nothing; the comparison with the node's own name
    is not reached. *)
Lemma peer_connected_unknown (peer : PeerNode) (self : NodeState) :
  peers self !! name peer = None →
  _peer_connected peer self = Ok (Some true, install peer self).
Proof. intros H. unfold _peer_connected. by rewrite H. Qed.

(** C5, at the failing input: the node named "a" with an empty peer table
    is handed a connection whose peer is named "a". The peer is installed
    under the node's own name, nothing is disconnected and [True] is
    returned. *)
Theorem self_connect_installed :
  ∃ self',
    _peer_connected Examples.peer_a Examples.node_a = Ok (Some true, self') ∧
    node_name Examples.node_a = name Examples.peer_a ∧
    peers self' !! node_name self' = Some Examples.peer_a ∧
    disconnected self' = [].
Proof. eexists. split; [reflexivity|]. by repeat split. Qed.

End NodeFacts.

(** * Further properties of the block manager *)

Module BlocksExtra.
Import Blocks BlocksFacts.

Lemma imap_pair_fst {A} (l : list A) :
  (imap (λ i x, (i, x)) l).*1 = seq 0 (length l).
Proof.
  apply list_eq. intros i. rewrite list_lookup_fmap, list_lookup_imap.
  destruct (l !! i) eqn:Hl; simpl; symmetry.
  - apply lookup_seq. split; [done|]. by eapply lookup_lt_Some.
  - apply lookup_seq_ge. by apply lookup_ge_None.
Qed.

Lemma filter_all {A} (P : A → Prop) `{!∀ x, Decision (P x)} (l : list A) :
  Forall P l → filter P l = l.
Proof.
  induction 1 as [|x l Hx Hl IH]; [done|].
  rewrite filter_cons, decide_True by done. by rewrite IH.
Qed.

Lemma available_served (blocks : list bytes) (name : string) (self : BlockManager) :
  _blocks_cache self !! name = Some (Some <$> blocks) →
  _get_blocks_available name self = seq 0 (length blocks).
Proof.
  intros Hc. unfold _get_blocks_available. rewrite Hc.
  rewrite filter_all.
  - by rewrite imap_pair_fst, length_fmap.
  - apply Forall_forall. intros [i b] Hin.
    apply elem_of_lookup_imap in Hin as (i' & b' & [= -> ->] & Hl).
    rewrite list_lookup_fmap in Hl. simpl. revert Hl.
    destruct (blocks !! i'); simpl; [by intros [= <-]|done].
Qed.

Lemma split_data_concat (data : bytes) (block_size : Z) :
  (0 < block_size)%Z → concat (split_data data block_size) = data.
Proof.
  intros Hbs. destruct (decide (Z.of_nat (length data) ≤ block_size)%Z).
  - rewrite split_data_small by done. simpl. by rewrite app_nil_r.
  - destruct (split_data_large data block_size ltac:(lia))
      as (chunks & -> & _ & Hcat & _).
    rewrite concat_app, Hcat. simpl. by rewrite app_nil_r, take_drop.
Qed.

(** X1: what [serve_data] stores is what the peers are served. After
    [serve_data(name, data, block_size)] the handler
    [_get_blocks_available(name)] answers with every index below
    [num_blocks], [_get_block(name, idx)] hands out a block for each of
    them, these blocks in order make up [data] again, and an index from
    [num_blocks] on raises [IndexError]. *)
Theorem served_blocks_fetchable (name : string) (data : bytes) (block_size : Z)
    (self : BlockManager) :
  (0 < block_size)%Z →
  ∃ block_spec self' blocks,
    serve_data name data block_size self = Ok (block_spec, self') ∧
    length blocks = num_blocks block_spec ∧
    _get_blocks_available name self' = seq 0 (num_blocks block_spec) ∧
    (∀ idx block, blocks !! idx = Some block →
       _get_block name idx self' = Ok (idx, Some block)) ∧
    (∀ idx, num_blocks block_spec ≤ idx →
       _get_block name idx self' = Raise IndexError) ∧
    concat blocks = data.
Proof.
  intros Hbs. unfold serve_data. rewrite decide_True by lia.
  eexists _, _, (split_data data block_size). split; [reflexivity|]. simpl.
  assert (Hc : <[name := Some <$> split_data data block_size]> (_blocks_cache self)
               !! name = Some (Some <$> split_data data block_size))
    by apply lookup_insert_eq.
  split; [by rewrite length_fmap|]. split; [|split; [|split]].
  - rewrite length_fmap. by apply available_served.
  - intros idx block Hidx. unfold _get_block, cache_getitem. simpl. rewrite Hc. simpl.
    by rewrite list_lookup_fmap, Hidx.
  - intros idx Hidx. unfold _get_block, cache_getitem. simpl. rewrite Hc. simpl.
    rewrite length_fmap in Hidx.
    rewrite list_lookup_fmap, (proj2 (lookup_ge_None _ _) Hidx). done.
  - by apply split_data_concat.
Qed.

Lemma served_blocks_fetchable_witness :
  ∃ block_spec self',
    serve_data "x" (replicate 100 Byte.x41) 30 Examples.p2_manager
      = Ok (block_spec, self') ∧
    _get_blocks_available "x" self' = seq 0 (num_blocks block_spec).
Proof.
  destruct (served_blocks_fetchable "x" (replicate 100 Byte.x41) 30 Examples.p2_manager)
    as (block_spec & self' & blocks & H1 & _ & H2 & _); [lia|].
  by exists block_spec, self'.
Defined.

(** X2: the node that served a block set gets it back from [get_blocks]
    as it stored it, whatever its peers do: no download is started (the
    manager goes through no intermediate state and is left unchanged),
    and the blocks returned make up the data served. *)
Theorem served_blocks_returned (env : Env) (name : string) (data : bytes)
    (block_size : Z) (self : BlockManager) :
  (0 < block_size)%Z →
  ∃ block_spec self' blocks,
    serve_data name data block_size self = Ok (block_spec, self') ∧
    get_blocks env block_spec self' = ([], Returned (Some <$> blocks) self') ∧
    concat blocks = data.
Proof.
  intros Hbs. unfold serve_data. rewrite decide_True by lia.
  eexists _, _, (split_data data block_size). split; [reflexivity|].
  split; [|by apply split_data_concat].
  unfold get_blocks, cache_getitem. simpl. by rewrite !lookup_insert_eq.
Qed.

Lemma served_blocks_returned_witness :
  ∃ block_spec self' blocks,
    serve_data "x" (replicate 100 Byte.x41) 30 Examples.p2_manager
      = Ok (block_spec, self') ∧
    get_blocks Examples.two_advertisers block_spec self'
      = ([], Returned (Some <$> blocks) self') ∧
    concat blocks = replicate 100 Byte.x41.
Proof.
  apply (served_blocks_returned Examples.two_advertisers "x" (replicate 100 Byte.x41) 30
           Examples.p2_manager). lia.
Defined.

(** X3: [remove_blocks] forgets the name and nothing else. Afterwards the
    handlers answer for the name as for one never served
    ([_get_blocks_available] with no index, [_get_block] with [KeyError])
    and no event is registered for it; the answers for every other name
    are as before; removing again changes nothing; and the removal is
    sent to every peer when [from_peers] is set, to none otherwise. A name
    that was never served is removed without an exception. *)
Theorem remove_blocks_forgets (env : Env) (name : string) (from_peers : bool)
    (self : BlockManager) :
  let '(self', told) := remove_blocks env name from_peers self in
  _get_blocks_available name self' = [] ∧
  (∀ idx, _get_block name idx self' = Raise (KeyError name)) ∧
  _available_events self' !! name = None ∧
  (∀ other idx, other ≠ name →
     _get_blocks_available other self' = _get_blocks_available other self ∧
     _get_block other idx self' = _get_block other idx self ∧
     _available_events self' !! other = _available_events self !! other) ∧
  (remove_blocks env name from_peers self').1 = self' ∧
  told = (if from_peers then all_peers env else []).
Proof.
  simpl. unfold _get_blocks_available, _get_block, cache_getitem, forget_blocks. simpl.
  rewrite !lookup_delete_eq. repeat split; try done.
  - by rewrite lookup_delete_ne.
  - by rewrite lookup_delete_ne.
  - by rewrite lookup_delete_ne.
  - by rewrite !delete_delete_eq.
Qed.

(** X4: serving under a name the manager does not know and removing it
    again gives back the manager as it was. *)
Theorem serve_remove_round_trip (env : Env) (name : string)
    (blocks : list (option bytes)) (from_peers : bool) (self : BlockManager) :
  _blocks_cache self !! name = None →
  _available_events self !! name = None →
  (remove_blocks env name from_peers (serve_blocks name blocks self).2).1 = self.
Proof.
  intros Hc He. destruct self as [n cache events]. simpl in *.
  unfold forget_blocks. simpl. by rewrite !delete_insert_id.
Qed.

Lemma serve_remove_round_trip_witness :
  (remove_blocks Examples.seeder_only "x" true
     (serve_blocks "x" [Some [Byte.x41]] Examples.p2_manager).2).1
  = Examples.p2_manager.
Proof.
  apply (serve_remove_round_trip Examples.seeder_only "x" [Some [Byte.x41]] true
           Examples.p2_manager); reflexivity.
Defined.

(** ** The download *)

Lemma store_block_events name idx block self self' :
  store_block name idx block self = Ok self' →
  _available_events self' = _available_events self ∧
  is_Some (_blocks_cache self' !! name).
Proof.
  unfold store_block. destruct (_blocks_cache self !! name); [|done].
  case_decide; [|done]. intros [= <-]. simpl. by rewrite lookup_insert_eq.
Qed.

Lemma download_iteration_events env block_spec round self self' :
  download_iteration env block_spec round self = Ok self' →
  _available_events self' = _available_events self ∧
  is_Some (_blocks_cache self' !! spec_name block_spec).
Proof.
  unfold download_iteration.
  destruct (_next_download _ _ _ _) as [[idx candidates]|]; simpl; [|done].
  destruct (split_candidates env candidates) as [local remote].
  destruct (try_candidates _ _ _ _ _ _); [apply store_block_events|].
  destruct (peers_getitem _ _); simpl; [|done].
  destruct (get_block_rpc _ _ _ _ _); simpl; [|done]. apply store_block_events.
Qed.

Lemma download_loop_events env block_spec n : ∀ round self trace r,
  download_loop env block_spec n round self = (trace, r) →
  Forall (λ st, _available_events st = _available_events self) trace ∧
  (∀ self', r = Ok self' →
     _available_events self' = _available_events self ∧
     (is_Some (_blocks_cache self !! spec_name block_spec) →
      is_Some (_blocks_cache self' !! spec_name block_spec))).
Proof.
  induction n as [|n IH]; intros round self trace r; simpl.
  - intros [= <- <-]. split; [constructor|]. by intros self' [= <-].
  - destruct (download_iteration env block_spec round self) as [self1|e] eqn:Hit.
    + apply download_iteration_events in Hit as [He Hc].
      destruct (download_loop env block_spec n (S round) self1) as [tr r1] eqn:Hloop.
      intros [= <- <-]. destruct (IH _ _ _ _ Hloop) as [Htr Hr]. split.
      * constructor; [done|]. eapply Forall_impl; [exact Htr|].
        simpl. intros st Hst. congruence.
      * intros self' ->. destruct (Hr self' eq_refl) as [He' Hc'].
        split; [congruence|]. intros _. by apply Hc'.
    + intros [= <- <-]. split; [constructor|]. done.
Qed.

(** X5: a download that fails blocks its name. When the call of
    [get_blocks] that starts the download raises (the assertion on the
    seeder, a seeder missing from the peer table, a seeder that fails to
    deliver), the event it registered stays in the manager, unset; every
    later [get_blocks] for the name then waits on that event and neither
    returns nor raises. *)
Theorem failed_download_blocks_name (env : Env) (block_spec : BlockSpec)
    (self : BlockManager) (trace : list BlockManager) (e : exn) :
  _available_events self !! spec_name block_spec = None →
  get_blocks env block_spec self = (trace, Raised e) →
  _available_events (manager_after env block_spec self) !! spec_name block_spec
    = Some false ∧
  ∀ env', get_blocks env' block_spec (manager_after env block_spec self) = ([], Waiting).
Proof.
  intros Hevent Hget.
  assert (Hflag : _available_events (manager_after env block_spec self)
                    !! spec_name block_spec = Some false).
  { unfold manager_after. rewrite Hget, Hevent.
    unfold get_blocks in Hget. rewrite Hevent in Hget.
    set (self1 := set_event (spec_name block_spec) false self) in *.
    assert (He1 : _available_events self1 !! spec_name block_spec = Some false).
    { unfold self1. simpl. by rewrite lookup_insert_eq. }
    unfold _download in Hget. case_decide as Hseeder.
    - set (self0 := mkBlockManager _ _ _) in Hget.
      destruct (download_loop _ _ _ _ self0) as [tr r] eqn:Hloop.
      destruct (download_loop_events _ _ _ _ _ _ _ Hloop) as [Htr Hr].
      destruct r as [self2|e'].
      + destruct (Hr self2 eq_refl) as [_ Hc].
        destruct Hc as [blocks Hc];
          [unfold self0; simpl; by rewrite lookup_insert_eq|].
        unfold cache_getitem in Hget. simpl in Hget. by rewrite Hc in Hget.
      + injection Hget as <- <-.
        assert (Hall : Forall (λ st, _available_events st = _available_events self1)
                         (self0 :: tr)) by (by constructor).
        destruct (last (self0 :: tr)) as [st|] eqn:Hlast; [|done].
        apply last_Some_elem_of in Hlast. rewrite Forall_forall in Hall.
        simpl. by rewrite (Hall st Hlast).
    - injection Hget as <- <-. done. }
  split; [done|]. intros env'. unfold get_blocks. by rewrite Hflag.
Qed.

Lemma failed_download_blocks_name_witness :
  get_blocks Examples.seeder_only Examples.spec_lost Examples.p2_manager
    = ([mkBlockManager "P2" {["x" := [None; None]]} {["x" := false]}],
       Raised (KeyError "gone")) ∧
  ∀ env', get_blocks env' Examples.spec_lost
            (manager_after Examples.seeder_only Examples.spec_lost Examples.p2_manager)
          = ([], Waiting).
Proof.
  assert (Hget : get_blocks Examples.seeder_only Examples.spec_lost Examples.p2_manager
                 = ([mkBlockManager "P2" {["x" := [None; None]]} {["x" := false]}],
                    Raised (KeyError "gone"))) by (vm_compute; reflexivity).
  split; [exact Hget|].
  apply (failed_download_blocks_name Examples.seeder_only Examples.spec_lost
           Examples.p2_manager _ _ eq_refl Hget).
Defined.

Lemma try_candidates_Some fetch rnd fuel : ∀ k local remote block,
  try_candidates fuel fetch rnd k local remote = Some block →
  ∃ source, source ∈ local ++ remote ∧ fetch source = Ok block.
Proof.
  induction fuel as [|fuel IH]; intros k local remote block; simpl; [done|].
  destruct local as [|a local].
  - destruct remote as [|b remote]; [done|].
    destruct (random_choice (rnd k) (b :: remote)) as [source|] eqn:Hsource; [|done].
    apply random_choice_elem in Hsource.
    destruct (fetch source) as [block'|e] eqn:Hfetch.
    + intros [= <-]. by exists source.
    + intros Htry. destruct (IH _ _ _ _ Htry) as (c & Hc & Hok).
      exists c. split; [|done]. simpl in *.
      by eapply list_remove_first_elem_of.
  - destruct (random_choice (rnd k) (a :: local)) as [source|] eqn:Hsource; [|done].
    apply random_choice_elem in Hsource.
    destruct (fetch source) as [block'|e] eqn:Hfetch.
    + intros [= <-]. exists source. split; [|done]. apply elem_of_app. by left.
    + intros Htry. destruct (IH _ _ _ _ Htry) as (c & Hc & Hok).
      exists c. split; [|done]. apply elem_of_app in Hc as [Hc|Hc]; apply elem_of_app.
      * left. by eapply list_remove_first_elem_of.
      * by right.
Qed.

(** X6: a block comes from the seeder only as a last resort. With enough
    passes for the candidates at hand (what [_download] provides), the
    loop over the candidates either ends with a block that one of the
    candidates delivered, or it runs to its [else] branch, and then every
    candidate was asked and raised. *)
Theorem candidates_before_seeder (fetch : PeerNode → result bytes) (rnd : nat → nat)
    (fuel k : nat) (local remote : list PeerNode) :
  length local + length remote ≤ fuel →
  match try_candidates fuel fetch rnd k local remote with
  | Some block => ∃ source, source ∈ local ++ remote ∧ fetch source = Ok block
  | None => ∀ source, source ∈ local ++ remote → ∃ e, fetch source = Raise e
  end.
Proof.
  intros Hfuel. destruct (try_candidates _ _ _ _ _ _) as [block|] eqn:Htry.
  - by eapply try_candidates_Some.
  - by eapply try_candidates_exhausted.
Qed.

Lemma candidates_before_seeder_witness :
  try_candidates 2 Examples.only_w1_answers (λ _, 0) 0 [Examples.w0] [Examples.w1]
    = Some [Byte.x41] ∧
  ∃ source, source ∈ [Examples.w0] ++ [Examples.w1] ∧
            Examples.only_w1_answers source = Ok [Byte.x41].
Proof.
  split; [reflexivity|].
  apply (candidates_before_seeder Examples.only_w1_answers (λ _, 0) 2 0
           [Examples.w0] [Examples.w1]). simpl. lia.
Defined.

(** X7: peers on the same host go first. As long as a local candidate
    can deliver the block, the block stored is one that a local
    candidate delivered: no remote candidate and no seeder fallback gets
    its turn, whatever the random draws. *)
Theorem local_candidates_first (fetch : PeerNode → result bytes) (rnd : nat → nat)
    (fuel : nat) : ∀ (k : nat) (local remote : list PeerNode),
  length local ≤ fuel →
  (∃ source block, source ∈ local ∧ fetch source = Ok block) →
  ∃ source block,
    source ∈ local ∧ fetch source = Ok block ∧
    try_candidates fuel fetch rnd k local remote = Some block.
Proof.
  induction fuel as [|fuel IH]; intros k local remote Hfuel (c & b & Hc & Hb).
  { destruct local; [by apply elem_of_nil in Hc|simpl in Hfuel; lia]. }
  destruct local as [|a local]; [by apply elem_of_nil in Hc|]. simpl.
  destruct (random_choice_ok (rnd k) (a :: local) ltac:(done)) as [source Hsource].
  rewrite Hsource. pose proof (random_choice_elem _ _ _ Hsource) as Hin.
  destruct (fetch source) as [block|e] eqn:Hfetch; [by exists source, block|].
  pose proof (list_remove_first_in_length source (a :: local) Hin) as Hlen.
  destruct (IH (S k) (list_remove_first source (a :: local)) remote)
    as (c' & b' & Hc' & Hb' & Htry).
  - simpl in *. lia.
  - exists c, b. split; [|done].
    destruct (list_remove_first_cases source c (a :: local) Hc) as [->|?]; [|done].
    congruence.
  - exists c', b'. split; [|done]. by eapply list_remove_first_elem_of.
Qed.

Lemma local_candidates_first_witness :
  ∃ source block,
    source ∈ [Examples.w0; Examples.w1] ∧
    Examples.only_w1_answers source = Ok block ∧
    try_candidates 3 Examples.only_w1_answers (λ _, 0) 0
      [Examples.w0; Examples.w1] [Examples.p1] = Some block.
Proof.
  apply (local_candidates_first Examples.only_w1_answers (λ _, 0) 3 0
           [Examples.w0; Examples.w1] [Examples.p1]).
  - simpl. lia.
  - exists Examples.w1, [Byte.x41]. split; [|reflexivity]. right. left.
Defined.

(** ** What is downloaded *)

Lemma download_iteration_inv env block_spec round self self' blocks :
  _blocks_cache self !! spec_name block_spec = Some blocks →
  download_iteration env block_spec round self = Ok self' →
  ∃ idx block source,
    get_block_rpc env round source (spec_name block_spec) idx = Ok block ∧
    self' = mkBlockManager (self_name self)
              (<[spec_name block_spec := <[idx := Some block]> blocks]> (_blocks_cache self))
              (_available_events self).
Proof.
  intros Hcache. unfold download_iteration.
  destruct (_next_download _ _ _ _) as [[idx candidates]|]; simpl; [|done].
  destruct (split_candidates env candidates) as [local remote].
  assert (Hstore : ∀ block source,
            get_block_rpc env round source (spec_name block_spec) idx = Ok block →
            store_block (spec_name block_spec) idx block self = Ok self' →
            ∃ idx block source,
              get_block_rpc env round source (spec_name block_spec) idx = Ok block ∧
              self' = mkBlockManager (self_name self)
                        (<[spec_name block_spec := <[idx := Some block]> blocks]>
                           (_blocks_cache self))
                        (_available_events self)).
  { intros block source Hrpc. unfold store_block. rewrite Hcache.
    case_decide; [|done]. intros [= <-]. by exists idx, block, source. }
  destruct (try_candidates _ _ _ _ _ _) as [block|] eqn:Htry.
  - apply try_candidates_Some in Htry as (source & _ & Hrpc). by apply (Hstore block source).
  - destruct (peers_getitem _ _) as [sp|]; simpl; [|done].
    destruct (get_block_rpc env round sp _ idx) as [block|] eqn:Hrpc; simpl; [|done].
    by apply (Hstore block sp).
Qed.

Section Content.
Context (env : Env) (block_spec : BlockSpec) (sp : PeerNode) (content : nat → bytes).

Hypothesis seeder_is_peer : peers env !! seeder block_spec = Some sp.
Hypothesis seeder_has_blocks :
  ∀ round idx, idx < num_blocks block_spec →
    ∃ b, get_block_rpc env round sp (spec_name block_spec) idx = Ok b.
Hypothesis same_content :
  ∀ round source idx block,
    get_block_rpc env round source (spec_name block_spec) idx = Ok block →
    block = content idx.

Lemma download_loop_agrees n : ∀ round self blocks trace self',
  _blocks_cache self !! spec_name block_spec = Some blocks →
  agrees content blocks →
  download_loop env block_spec n round self = (trace, Ok self') →
  ∃ blocks', _blocks_cache self' !! spec_name block_spec = Some blocks' ∧
             agrees content blocks'.
Proof.
  induction n as [|n IH]; intros round self blocks trace self' Hcache Hagree; simpl.
  - intros [= <- <-]. by exists blocks.
  - destruct (download_iteration env block_spec round self) as [self1|e] eqn:Hit; [|done].
    destruct (download_iteration_inv _ _ _ _ _ _ Hcache Hit)
      as (idx & block & source & Hrpc & ->).
    destruct (download_loop _ _ n _ _) as [tr r] eqn:Hloop. intros [= <- ->].
    eapply (IH _ _ (<[idx := Some block]> blocks)); [|..|exact Hloop].
    + simpl. by rewrite lookup_insert_eq.
    + intros i b Hi. apply list_lookup_insert_Some in Hi as [(-> & [= <-] & _)|[_ Hi]].
      * by eapply same_content.
      * by apply Hagree.
Qed.

(** X8: what [get_blocks] returns is, byte for byte, what the peers hold.
    When the seeder delivers every block and every peer that answers a
    [_get_block] call for the name answers with the block [content idx],
    the download ends with exactly the sequence
    [content 0, ..., content (num_blocks - 1)], whichever peers were
    picked and in whatever order the slots were filled. *)
Theorem downloaded_blocks_equal (self : BlockManager) :
  _available_events self !! spec_name block_spec = None →
  seeder block_spec ≠ self_name self →
  ∃ trace self',
    get_blocks env block_spec self
      = (trace, Returned ((λ idx, Some (content idx)) <$> seq 0 (num_blocks block_spec)) self').
Proof.
  intros Hevent Hseeder. unfold get_blocks. rewrite Hevent.
  set (self1 := set_event (spec_name block_spec) false self).
  destruct (download_fills env block_spec sp seeder_is_peer seeder_has_blocks self1 Hseeder)
    as (trace & self2 & blocks & Hdl & Hc & Hl & Hall & _).
  rewrite Hdl. unfold cache_getitem. simpl. rewrite Hc.
  assert (Hagree : agrees content blocks).
  { unfold _download in Hdl. rewrite decide_True in Hdl by done.
    set (self0 := mkBlockManager _ _ _) in Hdl.
    destruct (download_loop _ _ _ _ self0) as [tr r] eqn:Hloop.
    injection Hdl as <- ->.
    destruct (download_loop_agrees _ 0 self0 (replicate (num_blocks block_spec) None)
                _ _ ltac:(by unfold self0; simpl; rewrite lookup_insert_eq)
                ltac:(by intros i b [[=] _]%lookup_replicate) Hloop)
      as (blocks' & Hc' & Hagree).
    rewrite Hc in Hc'. by injection Hc' as <-. }
  eexists _, _. do 2 f_equal. f_equal.
  apply list_eq. intros i. rewrite list_lookup_fmap.
  destruct (decide (i < num_blocks block_spec)) as [Hi|Hi].
  - rewrite lookup_seq_lt by done. simpl.
    destruct (lookup_lt_is_Some_2 blocks i ltac:(lia)) as [slot Hslot].
    rewrite Hslot. rewrite Forall_forall in Hall.
    destruct (Hall slot (list_elem_of_lookup_2 _ _ _ Hslot)) as [b ->].
    by rewrite (Hagree i b Hslot).
  - rewrite lookup_seq_ge by lia. simpl. apply lookup_ge_None. lia.
Qed.

End Content.

Lemma downloaded_blocks_equal_witness :
  ∃ trace self',
    get_blocks Examples.seeder_only Examples.spec_x Examples.p2_manager
      = (trace, Returned ((λ idx, Some (replicate (S idx) Byte.x41)) <$> seq 0 4) self').
Proof.
  apply (downloaded_blocks_equal Examples.seeder_only Examples.spec_x Examples.p1
           (λ idx, replicate (S idx) Byte.x41)).
  - reflexivity.
  - intros round idx _. eexists. reflexivity.
  - intros round source idx block [= <-]. reflexivity.
  - reflexivity.
  - done.
Defined.

(** ** The choice of the next block *)

Section Advertised.
Context (env : Env) (round : nat) (blocks : list (option bytes)).

Lemma availability_append_advertised idx worker availability :
  advertised env round (idx, [worker]) →
  Forall (advertised env round) availability →
  Forall (advertised env round) (availability_append idx worker availability).
Proof.
  intros Hnew. induction 1 as [|[i ws] rest Hi Hrest IH]; simpl.
  - apply Forall_cons. split; [exact Hnew|apply Forall_nil_2].
  - destruct (decide (i = idx)) as [->|]; apply Forall_cons; split; auto.
    intros w Hw. simpl in *. apply elem_of_app in Hw as [Hw|Hw]; [by apply Hi|].
    by apply Hnew.
Qed.

Lemma record_response_advertised worker idxs all_idxs availability :
  worker ∈ worker_peers env →
  (worker, Ok all_idxs) ∈ responses env round →
  (∀ idx, idx ∈ idxs → idx ∈ all_idxs) →
  Forall (advertised env round) availability →
  Forall (advertised env round) (record_response blocks worker idxs availability).
Proof.
  intros Hworker Hresp. revert availability.
  induction idxs as [|idx idxs IH]; intros av Hsub Hav; simpl; [done|].
  assert (Hrest : ∀ i, i ∈ idxs → i ∈ all_idxs) by (intros i Hi; apply Hsub; by right).
  destruct (blocks !! idx) as [[b|]|]; auto.
  apply IH; [done|]. apply availability_append_advertised; [|done].
  intros w Hw. apply list_elem_of_singleton in Hw as ->. split; [done|].
  exists all_idxs. split; [done|]. apply Hsub. left.
Qed.

Lemma collect_availability_advertised :
  Forall (advertised env round) (collect_availability env round blocks).
Proof.
  unfold collect_availability.
  assert (Hgen : ∀ rs av,
            (∀ r, r ∈ rs → r ∈ responses env round) →
            Forall (advertised env round) av →
            Forall (advertised env round)
              (fold_left
                 (λ availability '(worker, response),
                    if decide (worker ∈ worker_peers env) then
                      match response with
                      | Ok idxs => record_response blocks worker idxs availability
                      | Raise _ => availability
                      end
                    else availability) rs av)).
  { induction rs as [|[worker response] rs IH]; intros av Hrs Hav; simpl; [done|].
    apply IH; [intros r Hr; apply Hrs; by right|].
    destruct (decide (worker ∈ worker_peers env)) as [Hw|]; [|done].
    destruct response as [idxs|]; [|done].
    eapply record_response_advertised; [done| |done|done].
    apply Hrs. left. }
  apply Hgen; [done|constructor].
Qed.

End Advertised.

(** X9: whom [_next_download] proposes. Whenever it returns an index and
    candidates, the index is one of the empty slots; and either no
    response in time named an empty slot, and the seeder is the only
    candidate, or every candidate is a worker peer whose response named
    that index. A peer that did not advertise the block is never
    proposed. *)
Theorem next_download_candidates (env : Env) (round : nat) (block_spec : BlockSpec)
    (self : BlockManager) (blocks : list (option bytes)) (idx : nat)
    (candidates : list PeerNode) :
  _blocks_cache self !! spec_name block_spec = Some blocks →
  _next_download env round block_spec self = Ok (idx, candidates) →
  blocks !! idx = Some None ∧
  ((collect_availability env round blocks = [] ∧
    ∃ sp, peers env !! seeder block_spec = Some sp ∧ candidates = [sp]) ∨
   (collect_availability env round blocks ≠ [] ∧
    candidates ≠ [] ∧
    ∀ worker, worker ∈ candidates →
      worker ∈ worker_peers env ∧
      ∃ idxs, (worker, Ok idxs) ∈ responses env round ∧ idx ∈ idxs)).
Proof.
  intros Hcache Hnext.
  destruct (collect_availability env round blocks) as [|entry rest] eqn:Hav.
  - destruct (next_download_seeder_fallback _ _ _ _ _ _ _ Hcache Hav Hnext) as [Hidx Hsp].
    split; [done|]. by left.
  - unfold _next_download in Hnext. rewrite Hcache, Hav in Hnext.
    destruct (sorted_by_workers_desc (entry :: rest)) as [|[i ws] sorted] eqn:Hsorted.
    { exfalso. unfold sorted_by_workers_desc in Hsorted. simpl in Hsorted.
      assert (Hne : ∀ items acc, acc ≠ [] →
                fold_left (λ acc x, insert_desc x acc) items acc ≠ []).
      { induction items as [|x items IH]; intros acc Hacc; simpl; [done|].
        apply IH. by destruct acc as [|y acc]; simpl; [|destruct (py_list_lt _ _)]. }
      by apply (Hne rest [entry]). }
    injection Hnext as -> ->.
    assert (Hin : (idx, candidates) ∈ collect_availability env round blocks).
    { apply sorted_by_workers_desc_elem. rewrite Hav, Hsorted. left. }
    pose proof (collect_availability_wanted blocks env round) as Hwanted.
    pose proof (collect_availability_advertised env round blocks) as Hadv.
    rewrite Forall_forall in Hwanted, Hadv.
    split; [exact (Hwanted _ Hin)|]. right. split; [done|].
    split; [|exact (Hadv _ Hin)].
    assert (Hnonempty : Forall (λ entry : nat * list PeerNode, entry.2 ≠ [])
                          (collect_availability env round blocks)).
    { clear. unfold collect_availability.
      assert (Happ : ∀ i w av, Forall (λ entry : nat * list PeerNode, entry.2 ≠ []) av →
                Forall (λ entry : nat * list PeerNode, entry.2 ≠ [])
                  (availability_append i w av)).
      { intros i w. induction 1 as [|[j ws] av Hj Hav IH]; simpl.
        - by repeat constructor.
        - destruct (decide (j = i)); constructor; auto. simpl in *. by destruct ws. }
      assert (Hrec : ∀ w idxs av, Forall (λ entry : nat * list PeerNode, entry.2 ≠ []) av →
                Forall (λ entry : nat * list PeerNode, entry.2 ≠ [])
                  (record_response blocks w idxs av)).
      { intros w idxs. induction idxs as [|i idxs IH]; intros av Hav; simpl; [done|].
        destruct (blocks !! i) as [[b|]|]; auto. }
      assert (Hnil : Forall (λ entry : nat * list PeerNode, entry.2 ≠ []) [])
        by constructor.
      revert Hnil. generalize (@nil (nat * list PeerNode)).
      induction (responses env round) as [|[w r] rs IH]; intros av Hav; simpl; [done|].
      apply IH. destruct (decide (w ∈ worker_peers env)); [|done].
      destruct r; [|done]. by apply Hrec. }
    rewrite Forall_forall in Hnonempty. exact (Hnonempty _ Hin).
Qed.

Lemma next_download_candidates_witness :
  [None; None] !! 1 = Some (@None bytes) ∧
  ∀ worker, worker ∈ [Examples.w1] →
    worker ∈ worker_peers Examples.two_advertisers ∧
    ∃ idxs, (worker, Ok idxs) ∈ responses Examples.two_advertisers 0 ∧ 1 ∈ idxs.
Proof.
  destruct (next_download_candidates Examples.two_advertisers 0 Examples.spec_x
              Examples.two_missing [None; None] 1 [Examples.w1])
    as [Hidx [[Hnil _]|(_ & _ & Hall)]].
  - reflexivity.
  - vm_compute. reflexivity.
  - vm_compute in Hnil. discriminate Hnil.
  - by split.
Defined.

(** ** The order behind the choice *)

Lemma py_list_lt_irrefl l : py_list_lt l l = false.
Proof. induction l as [|x l IH]; simpl; [done|]. by rewrite decide_True. Qed.

Lemma py_list_lt_trans l1 : ∀ l2 l3,
  py_list_lt l1 l2 = true → py_list_lt l2 l3 = true → py_list_lt l1 l3 = true.
Proof.
  induction l1 as [|x l1 IH]; intros [|y l2] [|z l3]; simpl; try done.
  unfold peer_lt. intros H1 H2.
  repeat case_decide; subst; try done; try (by eapply IH);
    apply bool_decide_eq_true in H1; apply bool_decide_eq_true in H2;
    try apply bool_decide_eq_true; lia.
Qed.

Lemma insert_desc_head x l h t :
  (∀ y, y ∈ l → py_list_lt (hd x l).2 y.2 = false) →
  insert_desc x l = h :: t →
  ∀ y, y ∈ h :: t → py_list_lt h.2 y.2 = false.
Proof.
  destruct l as [|z l]; simpl.
  - intros _ [= <- <-] y Hy. apply list_elem_of_singleton in Hy as ->.
    apply py_list_lt_irrefl.
  - intros Hmax. destruct (py_list_lt z.2 x.2) eqn:Hzx.
    + intros [= <- <-] y Hy. apply elem_of_cons in Hy as [->|Hy]; [apply py_list_lt_irrefl|].
      destruct (py_list_lt x.2 y.2) eqn:Hxy; [|done].
      rewrite <- (Hmax y Hy). symmetry. by eapply py_list_lt_trans.
    + intros [= <- <-] y Hy. apply elem_of_cons in Hy as [->|Hy]; [apply py_list_lt_irrefl|].
      apply insert_desc_elem in Hy as [->|Hy]; [done|]. apply Hmax. by right.
Qed.

Lemma py_list_lt_total l1 : ∀ l2,
  (∀ p q, p ∈ l1 → q ∈ l2 → tiebreak p = tiebreak q → p = q) →
  l1 = l2 ∨ py_list_lt l1 l2 = true ∨ py_list_lt l2 l1 = true.
Proof.
  induction l1 as [|x l1 IH]; intros [|y l2] Hkeys; simpl; auto.
  destruct (decide (x = y)) as [->|Hne].
  - rewrite decide_True by done.
    destruct (IH l2) as [->|[?|?]]; auto.
    intros p q Hp Hq. apply Hkeys; by right.
  - rewrite decide_False by done. right. unfold peer_lt.
    assert (tiebreak x ≠ tiebreak y).
    { intros Heq. apply Hne, Hkeys; [left|left|done]. }
    destruct (decide (tiebreak y < tiebreak x)).
    + left. by apply bool_decide_eq_true.
    + right. apply bool_decide_eq_true. lia.
Qed.

(** X10: which index wins when several are advertised. When the peers in
    the worker lists carry different tiebreak keys, the entry that
    [sorted(availability.items(), key=itemgetter(1), reverse=True)] puts
    first is the greatest in the order of its list of workers, as Python
    orders lists (element by element, a proper prefix being smaller):
    every entry has the same list or a smaller one, and none has a list
    that extends it. The number of workers in the list decides only
    between a list and its own prefixes. *)
Theorem sorted_by_workers_desc_head (items : list (nat * list PeerNode))
    (first : nat * list PeerNode) (rest : list (nat * list PeerNode)) :
  distinct_keys items →
  sorted_by_workers_desc items = first :: rest →
  first ∈ items ∧
  (∀ entry, entry ∈ items →
     entry.2 = first.2 ∨ py_list_lt entry.2 first.2 = true) ∧
  (∀ entry extra, entry ∈ items → extra ≠ [] → entry.2 ≠ first.2 ++ extra).
Proof.
  intros Hkeys Hsorted.
  assert (Hgen : ∀ items acc h t,
            (∀ y, y ∈ acc → py_list_lt (hd h acc).2 y.2 = false) →
            fold_left (λ acc x, insert_desc x acc) items acc = h :: t →
            ∀ y, y ∈ acc ∨ y ∈ items → py_list_lt h.2 y.2 = false).
  { clear. induction items as [|x items IH]; intros acc h t Hacc; simpl.
    - intros -> y [Hy|Hy]; [by apply (Hacc y)|by apply elem_of_nil in Hy].
    - intros Hfold y Hy. eapply (IH (insert_desc x acc) h t); [|done|].
      + destruct (insert_desc x acc) as [|h' t'] eqn:Hins;
          [intros y' Hy'; by apply elem_of_nil in Hy'|].
        simpl. eapply insert_desc_head; [|exact Hins].
        intros y' Hy'. destruct acc as [|a acc]; [by apply elem_of_nil in Hy'|].
        simpl. by apply (Hacc y').
      + destruct Hy as [Hy|Hy].
        * left. clear -Hy. induction acc as [|z acc IHacc]; simpl;
            [by apply elem_of_nil in Hy|].
          destruct (py_list_lt z.2 x.2); [by right|].
          apply elem_of_cons in Hy as [->|Hy]; [left|right; by apply IHacc].
        * apply elem_of_cons in Hy as [->|Hy]; [|by right]. left.
          clear. induction acc as [|z acc IHacc]; simpl; [left|].
          destruct (py_list_lt z.2 x.2); [left|by right]. }
  assert (Hmax : ∀ entry, entry ∈ items → py_list_lt first.2 entry.2 = false).
  { intros entry Hentry. eapply (Hgen items [] first rest); [|exact Hsorted|by right].
    intros y Hy. by apply elem_of_nil in Hy. }
  assert (Hfirst : first ∈ items).
  { apply sorted_by_workers_desc_elem. rewrite Hsorted. left. }
  split; [done|]. split.
  - intros entry Hentry.
    destruct (py_list_lt_total entry.2 first.2) as [?|[?|Hlt]]; [|by left|by right|].
    + intros p q Hp Hq. by apply (Hkeys entry first).
    + by rewrite (Hmax entry Hentry) in Hlt.
  - intros entry extra Hentry Hextra Heq. specialize (Hmax entry Hentry).
    rewrite Heq in Hmax. clear -Hmax Hextra.
    induction (first.2) as [|w ws IH]; simpl in Hmax.
    + by destruct extra.
    + rewrite decide_True in Hmax by done. auto.
Qed.

Lemma sorted_by_workers_desc_head_witness :
  sorted_by_workers_desc [(0, [Examples.w0; Examples.w1]); (1, [Examples.w1])]
    = [(1, [Examples.w1]); (0, [Examples.w0; Examples.w1])] ∧
  py_list_lt [Examples.w0; Examples.w1] [Examples.w1] = true.
Proof.
  split; [reflexivity|].
  destruct (sorted_by_workers_desc_head
              [(0, [Examples.w0; Examples.w1]); (1, [Examples.w1])]
              (1, [Examples.w1]) [(0, [Examples.w0; Examples.w1])])
    as (_ & Hmax & _).
  - assert (Hpeers : ∀ entry p,
              entry ∈ [(0, [Examples.w0; Examples.w1]); (1, [Examples.w1])] →
              p ∈ entry.2 → p = Examples.w0 ∨ p = Examples.w1).
    { intros entry p Hentry Hp.
      apply elem_of_cons in Hentry as [->|Hentry];
        [|apply list_elem_of_singleton in Hentry as ->]; simpl in Hp.
      - apply elem_of_cons in Hp as [->|Hp]; [by left|].
        apply list_elem_of_singleton in Hp as ->. by right.
      - apply list_elem_of_singleton in Hp as ->. by right. }
    intros entry entry' p q He He' Hp Hq Hk.
    destruct (Hpeers entry p He Hp) as [-> | ->],
             (Hpeers entry' q He' Hq) as [-> | ->]; done.
  - reflexivity.
  - destruct (Hmax (0, [Examples.w0; Examples.w1])) as [Heq|Hlt]; [left|done|done].
Defined.

End BlocksExtra.

(** * Further properties of the scheduler *)

Module JobExtra.
Import Job JobFacts.

(** ** [_execute_onebyone] *)

Section OneByOneFacts.
Context {V : Type} (run_task : nat → Task → PeerNode → result V)
  (workers : list PeerNode).

Lemma onebyone_from_spec (todo : list (nat * Task)) :
  ∀ ys st vs started err,
    onebyone_from run_task workers todo ys st = (vs, started, err) →
    ∃ vs' st',
      vs = ys ++ vs' ∧ started = st ++ st' ∧
      length vs' ≤ length st' ≤ S (length vs') ∧ length st' ≤ length todo ∧
      (∀ j v, vs' !! j = Some v →
         ∃ i t, todo !! j = Some (i, t) ∧ attempt run_task workers i t = Ok v) ∧
      (∀ j i w, st' !! j = Some (i, w) →
         ∃ t, todo !! j = Some (i, t) ∧ pick_worker workers t = Ok w) ∧
      (err = None → length vs' = length todo) ∧
      (∀ e, err = Some e →
         ∃ i t, todo !! length vs' = Some (i, t) ∧ attempt run_task workers i t = Raise e).
Proof.
  induction todo as [|[i t] todo IH]; intros ys st vs started err; simpl.
  - intros [= <- <- <-]. exists [], []. rewrite !app_nil_r. simpl.
    repeat split; try done; try lia.
  - destruct (pick_worker workers t) as [w|e] eqn:Hpick.
    + destruct (run_task i t w) as [v|e] eqn:Hrun.
      * intros Hrest. destruct (IH _ _ _ _ _ Hrest)
          as (vs' & st' & -> & -> & Hlen & Hlen' & Hvs & Hst & Hnone & Herr).
        exists (v :: vs'), ((i, w) :: st'). rewrite <- !app_assoc. simpl.
        split; [done|]. split; [done|]. split; [lia|]. split; [lia|].
        split; [|split; [|split]].
        -- intros [|j] v' Hj; simpl in *; [|by apply Hvs].
           injection Hj as <-. exists i, t. split; [done|].
           unfold attempt. rewrite Hpick. done.
        -- intros [|j] i' w' Hj; simpl in *; [|by apply Hst].
           injection Hj as <- <-. by exists t.
        -- intros Herr0. by rewrite Hnone.
        -- intros e He. by apply Herr.
      * intros [= <- <- <-]. exists [], [(i, w)]. rewrite app_nil_r. simpl.
        split; [done|]. split; [done|]. split; [lia|]. split; [lia|].
        split; [done|]. split; [|split; [done|]].
        -- intros [|j] i' w' Hj; simpl in *; [|done]. injection Hj as <- <-. by exists t.
        -- intros e' [= <-]. exists i, t. split; [done|].
           unfold attempt. rewrite Hpick. done.
    + intros [= <- <- <-]. exists [], []. rewrite !app_nil_r. simpl.
      split; [done|]. split; [done|]. split; [lia|]. split; [lia|].
      split; [done|]. split; [done|]. split; [done|].
      intros e' [= <-]. exists i, t. split; [done|]. unfold attempt. by rewrite Hpick.
Qed.

(** X11: the one-by-one mode yields in task order up to the first
    failure. The values yielded are the results of [tasks[0]],
    [tasks[1]], ... each run on the first worker of its preferred, else
    allowed, else all workers; the generator ends without an exception
    exactly when every task was run; when it raises, the exception is
    that of the first task whose run (or whose choice of a worker) fails,
    and no task after that one is started. *)
Theorem onebyone_in_order (tasks : list Task) (vs : list V)
    (started : list (nat * PeerNode)) (err : option exn) :
  _execute_onebyone run_task tasks workers = (vs, started, err) →
  length vs ≤ length tasks ∧
  (∀ j v, vs !! j = Some v →
     ∃ t, tasks !! j = Some t ∧ attempt run_task workers j t = Ok v) ∧
  (err = None ↔ length vs = length tasks) ∧
  (∀ e, err = Some e →
     ∃ t, tasks !! length vs = Some t ∧ attempt run_task workers (length vs) t = Raise e) ∧
  length vs ≤ length started ≤ S (length vs) ∧
  (∀ j i w, started !! j = Some (i, w) →
     i = j ∧ ∃ t, tasks !! j = Some t ∧ pick_worker workers t = Ok w).
Proof.
  unfold _execute_onebyone. intros Hrun.
  destruct (onebyone_from_spec _ _ _ _ _ _ Hrun)
    as (vs' & st' & -> & -> & Hlen & Hlen' & Hvs & Hst & Hnone & Herr).
  simpl in *. rewrite objects_length in *.
  assert (Herr' : ∀ e, err = Some e →
            ∃ t, tasks !! length vs' = Some t ∧
                 attempt run_task workers (length vs') t = Raise e).
  { intros e He. destruct (Herr e He) as (i & t & Hobj & Hattempt).
    apply objects_lookup in Hobj as [-> Ht]. by exists t. }
  split; [lia|]. split; [|split; [|split; [done|split; [done|]]]].
  - intros j v Hj. destruct (Hvs j v Hj) as (i & t & Hobj & Hattempt).
    apply objects_lookup in Hobj as [-> Ht]. by exists t.
  - split; [done|]. intros Hall. destruct err as [e|]; [|done].
    destruct (Herr' e eq_refl) as (t & Ht & _).
    apply lookup_lt_Some in Ht. lia.
  - intros j i w Hj. destruct (Hst j i w Hj) as (t & Hobj & Hpick).
    apply objects_lookup in Hobj as [-> Ht]. split; [done|]. by exists t.
Qed.

End OneByOneFacts.

Lemma onebyone_in_order_witness :
  _execute_onebyone Examples.second_fails [Examples.t0; Examples.t1; Examples.t2]
    [Examples.w0; Examples.w1]
  = ([10%Z], [(0, Examples.w0); (1, Examples.w0)], Some (InvocationException "second")) ∧
  ∃ t, [Examples.t0; Examples.t1; Examples.t2] !! 1 = Some t ∧
       attempt Examples.second_fails [Examples.w0; Examples.w1] 1 t
       = Raise (InvocationException "second").
Proof.
  assert (Hrun : _execute_onebyone Examples.second_fails
                   [Examples.t0; Examples.t1; Examples.t2] [Examples.w0; Examples.w1]
                 = ([10%Z], [(0, Examples.w0); (1, Examples.w0)],
                    Some (InvocationException "second"))) by reflexivity.
  split; [exact Hrun|].
  destruct (onebyone_in_order _ _ _ _ _ _ Hrun) as (_ & _ & _ & Herr & _).
  exact (Herr _ eq_refl).
Defined.

(** ** The eager scheduler *)

(** X12: without workers the eager mode cannot start. On an empty worker
    list and a stage that has tasks, the semaphore is created with no
    permit: the first [acquire()] blocks, no future exists that could
    complete, and so no step is possible from the initial state. *)
Theorem eager_without_workers {V : Type} (tasks : list Task) (e : event V) :
  tasks ≠ [] →
  step [] e (init tasks []) = None.
Proof.
  intros Htasks. destruct e as [|i outcome|w|w]; simpl.
  - unfold schedule_phase. simpl.
    destruct tasks as [|t tasks]; [done|]. unfold objects. simpl.
    rewrite reverse_cons.
    destruct (reverse _ ++ [(0, t)]) as [|y ys] eqn:Hy; [by destruct (reverse _)|].
    rewrite <- Hy, py_pop_snoc. done.
  - unfold complete. simpl.
    destruct (replicate (length tasks) None !! i) as [f|] eqn:Hi; [|done].
    apply lookup_replicate in Hi as [-> _]. done.
  - reflexivity.
  - reflexivity.
Qed.

Lemma eager_without_workers_witness :
  step [] (@Advance Z) (init [Examples.t0; Examples.t1] []) = None.
Proof. apply (eager_without_workers [Examples.t0; Examples.t1] Advance). done. Defined.

Section PlacementFacts.
Context {V : Type} (tasks : list Task) (workers : list PeerNode).

Implicit Types s : Eager V.

Lemma choose_worker_eligible (task : Task) (occ : list PeerNode) (w : PeerNode) :
  choose_worker workers task occ = Some w → w ∈ eligible workers task.
Proof.
  unfold choose_worker, eligible.
  destruct (list_find _ _) as [[j w']|] eqn:Hfind; [|done].
  intros [= <-]. apply list_find_Some in Hfind as (Hj & _).
  by eapply list_elem_of_lookup_2.
Qed.

Lemma init_placement : placement tasks workers (init (V := V) tasks workers).
Proof.
  split; simpl.
  - intros i t Hin. rewrite elem_of_reverse, list_elem_of_lookup in Hin.
    destruct Hin as [k Hk]. by apply objects_lookup in Hk as [-> Hk].
  - intros i w Hi. by apply lookup_replicate in Hi as [[=] _].
  - intros i j w Hi. by apply lookup_replicate in Hi as [[=] _].
  - intros i w t Hi. by apply lookup_replicate in Hi as [[=] _].
  - unfold running_count. simpl.
    assert (Hnone : filter (λ f : option (Future V), is_running f = true)
                      (replicate (length tasks) None) = []).
    { induction (length tasks) as [|n IH]; [done|]. simpl.
      rewrite filter_cons_False by done. exact IH. }
    rewrite Hnone. simpl. lia.
Qed.

Lemma step_placement e s s' :
  invariant tasks s → placement tasks workers s →
  step workers e s = Some s' → placement tasks workers s'.
Proof.
  intros Hinv [P1 P2 P3 P4 P5] Hstep.
  pose proof (step_invariant tasks workers e s s' Hinv Hstep) as Hinv'.
  pose proof (inv_running_occupied _ _ Hinv') as P2'.
  pose proof (inv_running_unique _ _ Hinv') as P3'.
  revert Hstep P2' P3'. destruct e as [|i outcome|w|w]; simpl.
  - destruct (at_ s) eqn:Hat; try done.
    + unfold schedule_phase. destruct (to_yield s); [by intros [= <-]|].
      destruct (py_pop (to_schedule s)) as [[rest [i t]]|] eqn:Hpop;
        [|by intros [= <-]].
      apply py_pop_Some in Hpop.
      assert (Hin : (i, t) ∈ to_schedule s).
      { rewrite Hpop. apply elem_of_app. right. left. }
      assert (Hit : futures s !! i = Some None) by (by eapply inv_unstarted).
      assert (Hi : i < length (futures s)) by (by eapply lookup_lt_Some).
      destruct (workers_available s) as [|permits] eqn:Hsem; [done|].
      destruct (choose_worker workers t (occupied s)) as [w|] eqn:Hchoose;
        intros [= <-] P2' P3'.
      * pose proof (choose_worker_eligible _ _ _ Hchoose) as Helig.
        split; [|exact P2'|exact P3'| |]; simpl.
        -- intros i' t' Hin'. apply P1. rewrite Hpop. apply elem_of_app. by left.
        -- intros i' w' t' Hi' Ht'. destruct (decide (i = i')) as [<-|Hne].
           ++ rewrite list_lookup_insert_eq in Hi' by done. injection Hi' as <-.
              rewrite (P1 _ _ Hin) in Ht'. by injection Ht' as <-.
           ++ rewrite list_lookup_insert_ne in Hi' by done. by eapply P4.
        -- unfold running_count at 1. simpl.
           rewrite (running_count_start s i w Hit). lia.
      * split; [|exact P2'|exact P3'|exact P4|]; simpl.
        -- intros i' t' Hin'. apply P1. rewrite Hpop. apply elem_of_app.
           apply elem_of_cons in Hin' as [->|Hin']; [right; left|by left].
        -- unfold running_count in *. simpl. lia.
    + intros Hyield _ _.
      apply yield_phase_frame in Hyield as (Hts & Hf & Ho & Hw & Hr & _).
      split; unfold running_count; rewrite ?Hts, ?Hf, ?Ho, ?Hw, ?Hr; done.
  - unfold complete. destruct (futures s !! i) as [[[w|o]|]|] eqn:Hf; try done.
    intros [= <-] P2' P3'. split; [exact P1|exact P2'|exact P3'| |]; simpl.
    + intros i' w' t' Hi' Ht'. destruct (decide (i = i')) as [<-|Hne].
      * by rewrite list_lookup_insert_eq in Hi' by (by eapply lookup_lt_Some).
      * rewrite list_lookup_insert_ne in Hi' by done. by eapply P4.
    + pose proof (running_count_complete s i w outcome Hf) as Hrun.
      unfold running_count at 1. simpl. rewrite length_app. simpl. lia.
  - unfold release. case_decide as Hw; [|done].
    intros [= <-] P2' P3'. split; [exact P1|exact P2'|exact P3'|exact P4|]; simpl.
    pose proof (BlocksFacts.list_remove_first_in_length w (releasing s) Hw).
    unfold running_count in *. simpl. lia.
  - unfold remove. case_decide as Hw; [|done].
    intros [= <-] P2' P3'. split; [exact P1|exact P2'|exact P3'|exact P4|exact P5].
Qed.

Lemma run_placement schedule : ∀ s s',
  invariant tasks s → placement tasks workers s →
  run workers schedule s = Some s' → placement tasks workers s'.
Proof.
  induction schedule as [|e schedule IH]; intros s s' Hinv Hplace; simpl.
  - by intros [= <-].
  - destruct (step workers e s) as [s1|] eqn:Hstep; [|done].
    apply IH; [by eapply step_invariant|by eapply step_placement].
Qed.

(** X13: the eager scheduler never oversubscribes. In every state it
    reaches, the tasks whose futures are pending are at most as many as
    there are workers in the list it was given (each holds one permit of
    the semaphore), and no two of them run on the same worker. *)
Theorem eager_never_oversubscribes (schedule : list (event V)) s :
  _execute_eagerly tasks workers schedule = Some s →
  workers_available s + running_count s ≤ length workers ∧
  ∀ i j w w',
    i ≠ j →
    futures s !! i = Some (Some (Running w)) →
    futures s !! j = Some (Some (Running w')) →
    w ≠ w'.
Proof.
  intros Hrun. unfold _execute_eagerly in Hrun.
  pose proof (run_placement schedule _ _ (init_invariant tasks workers)
                init_placement Hrun) as [_ _ P3 _ P5].
  split; [lia|]. intros i j w w' Hij Hi Hj ->. by apply Hij, (P3 i j w').
Qed.

(** X14: the eager scheduler places a task only where its hints allow.
    In every state it reaches, a task that is running runs on one of its
    preferred workers or, failing those, on one of its allowed workers;
    the workers of the stage are used only for a task that names no
    allowed worker. *)
Theorem eager_placement_respects_hints (schedule : list (event V)) s i w t :
  _execute_eagerly tasks workers schedule = Some s →
  futures s !! i = Some (Some (Running w)) →
  tasks !! i = Some t →
  w ∈ eligible workers t ∧
  (∀ a l, allowed_workers t = Some (a :: l) →
     w ∈ py_or (preferred_workers t) [] ∨ w ∈ a :: l).
Proof.
  intros Hrun Hi Ht. unfold _execute_eagerly in Hrun.
  pose proof (run_placement schedule _ _ (init_invariant tasks workers)
                init_placement Hrun) as [_ _ _ P4 _].
  pose proof (P4 i w t Hi Ht) as Helig. split; [done|].
  intros a l Hallowed. unfold eligible in Helig. rewrite Hallowed in Helig.
  by apply elem_of_app in Helig.
Qed.

End PlacementFacts.

Lemma eager_never_oversubscribes_witness :
  ∃ s, _execute_eagerly [Examples.t0; Examples.t1] [Examples.w0; Examples.w1]
         Examples.two_running = Some s ∧
       futures s = [Some (Running Examples.w0); Some (Running Examples.w1)] ∧
       workers_available s + running_count s ≤ 2.
Proof.
  eexists. split; [vm_compute; reflexivity|]. split; [reflexivity|].
  apply (eager_never_oversubscribes [Examples.t0; Examples.t1]
           [Examples.w0; Examples.w1] Examples.two_running).
  vm_compute. reflexivity.
Defined.

Lemma eager_placement_respects_hints_witness :
  Examples.w1 ∈ eligible [Examples.w0; Examples.w1] Examples.t1.
Proof.
  eapply (eager_placement_respects_hints [Examples.t0; Examples.t1]
            [Examples.w0; Examples.w1] Examples.two_running _ 1
            Examples.w1 Examples.t1); [vm_compute; reflexivity|reflexivity|reflexivity].
Defined.

(** X15: a free preferred worker is always taken first. When one of the
    preferred workers of a task is not occupied, the worker chosen is a
    preferred worker that is not occupied, and every preferred worker
    listed before it is occupied; the allowed workers and the workers of
    the stage are not looked at. *)
Theorem choose_worker_prefers (workers : list PeerNode) (task : Task)
    (occ : list PeerNode) (p : PeerNode) :
  p ∈ py_or (preferred_workers task) [] →
  p ∉ occ →
  ∃ k w,
    choose_worker workers task occ = Some w ∧
    (py_or (preferred_workers task) []) !! k = Some w ∧
    (w ∉ occ) ∧
    (∀ j v, j < k → (py_or (preferred_workers task) []) !! j = Some v → v ∈ occ).
Proof.
  intros Hp Hfree. unfold choose_worker.
  set (preferred := py_or (preferred_workers task) []) in *.
  set (others := py_or (allowed_workers task) workers).
  apply list_elem_of_lookup in Hp as [jp Hjp].
  destruct (list_find (λ w, w ∉ occ) (preferred ++ others)) as [[k w]|] eqn:Hfind.
  - apply list_find_Some in Hfind as (Hk & Hw & Hmin).
    assert (Hle : k ≤ jp).
    { destruct (decide (k ≤ jp)) as [|Hgt]; [done|].
      destruct (Hmin jp p); [by apply lookup_app_l_Some|lia|done]. }
    assert (Hlt : k < length preferred).
    { apply lookup_lt_Some in Hjp. lia. }
    rewrite lookup_app_l in Hk by done.
    exists k, w. split; [done|]. split; [done|]. split; [done|].
    intros j v Hj Hv. destruct (decide (v ∈ occ)) as [|Hout]; [done|].
    destruct (Hmin j v); [by apply lookup_app_l_Some|done|done].
  - apply list_find_None in Hfind. rewrite Forall_forall in Hfind.
    destruct (Hfind p); [|done]. apply elem_of_app. left.
    by eapply list_elem_of_lookup_2.
Qed.

Lemma choose_worker_prefers_witness :
  ∃ k w,
    choose_worker [Examples.w0; Examples.w1] Examples.t2 [Examples.w0] = Some w ∧
    (py_or (preferred_workers Examples.t2) []) !! k = Some w ∧ w ∉ [Examples.w0].
Proof.
  destruct (choose_worker_prefers [Examples.w0; Examples.w1] Examples.t2 [Examples.w0]
              Examples.w1) as (k & w & H1 & H2 & H3 & _).
  - left.
  - intros Hin. apply list_elem_of_singleton in Hin. discriminate Hin.
  - by exists k, w.
Defined.

(** A run in which the first of two tasks has failed. *)
Lemma failed_task_never_yields_witness :
  ∃ s, _execute_eagerly [Examples.t0; Examples.t1] [Examples.w0; Examples.w1]
         Examples.first_fails = Some s ∧
       length (yielded s) ≤ 0 ∧ at_ s ≠ Returned.
Proof.
  eexists. split; [vm_compute; reflexivity|].
  apply (failed_task_never_yields [Examples.t0; Examples.t1] [Examples.w0; Examples.w1]
           Examples.first_fails _ 0 (InvocationException "first attempt") ltac:(done)).
  - vm_compute. reflexivity.
  - reflexivity.
Defined.

(** ** [Job.execute] *)

Section JobExecuteFacts.
Context {V : Type} (run_stage : Stage → bool → Stage * result (list V)) (eager : bool).

Lemma last_insert_last {A} (l : list A) (i : nat) (x : A) :
  S i = length l → last (<[i := x]> l) = Some x.
Proof.
  intros Hi. rewrite last_lookup, length_insert, <- Hi. simpl.
  apply list_lookup_insert_eq. lia.
Qed.

Lemma last_insert_before {A} (l : list A) (i : nat) (x : A) :
  S i < length l → last (<[i := x]> l) = last l.
Proof.
  intros Hi. rewrite !last_lookup, length_insert.
  apply list_lookup_insert_ne. lia.
Qed.

Lemma cancel_unstopped_stopped (job : JobState) :
  Forall (λ stage, stopped (stage_life stage) = true) (stages job) →
  cancel_unstopped job = job.
Proof.
  intros Hall. destruct job as [life sts]. unfold cancel_unstopped. simpl in *.
  f_equal. induction Hall as [|st sts Hst Hsts IH]; [done|].
  rewrite fmap_cons, IH. by rewrite Hst.
Qed.

Lemma execute_from_S fuel i (job : JobState) (out : list (list V)) :
  execute_from run_stage (S fuel) i eager job out =
  match stages job !! i with
  | None => (cancel_unstopped job, out, None)
  | Some stage =>
      if running (job_life job) then
        let is_last :=
          match last (stages job) with
          | Some final => bool_decide (stage_id stage = stage_id final)
          | None => false
          end in
        let '(stage', r) := run_stage stage (negb is_last || eager) in
        let job' := _stage_done stage' (mkJob (job_life job) (<[i := stage']> (stages job))) in
        match r with
        | Ok results => execute_from run_stage fuel (S i) eager job' (out ++ [results])
        | Raise e =>
            (cancel_unstopped (mkJob (signal_stop (job_life job')) (stages job')),
             out, Some e)
        end
      else (cancel_unstopped job, out, None)
  end.
Proof. reflexivity. Qed.

Lemma execute_from_completes fuel : ∀ i job out,
  length (stages job) = i + S fuel →
  running (job_life job) = true →
  NoDup (stage_id <$> stages job) →
  (∀ j stage, i ≤ j → stages job !! j = Some stage → completes run_stage stage) →
  (∀ j stage, j < i → stages job !! j = Some stage →
     stopped (stage_life stage) = true) →
  ∃ job' rest,
    execute_from run_stage (S fuel) i eager job out = (job', out ++ rest, None) ∧
    length rest = S fuel ∧
    (∀ k stage, stages job !! (i + k) = Some stage →
       rest !! k = Some (results_of run_stage stage
                           (eager_flag eager (length (stages job)) (i + k)))) ∧
    job_life job' = signal_stop (job_life job) ∧
    Forall (λ stage, stopped (stage_life stage) = true) (stages job') ∧
    stage_id <$> stages job' = stage_id <$> stages job.
Proof.
  induction fuel as [|fuel IH]; intros i job out Hlen Hrunning Hids Hgood Hdone.
  - (* the last stage *)
    destruct (lookup_lt_is_Some_2 (stages job) i ltac:(lia)) as [stage Hstage].
    assert (Hlast : last (stages job) = Some stage).
    { rewrite last_lookup, Hlen. by replace (pred (i + 1)) with i by lia. }
    destruct (Hgood i stage ltac:(lia) Hstage eager)
      as (stage' & results & Hrs & Hstopped & Hid).
    rewrite execute_from_S, Hstage, Hrunning, Hlast. cbn zeta.
    rewrite bool_decide_eq_true_2 by done. simpl negb. simpl orb. rewrite Hrs.
    unfold _stage_done. cbn [stages job_life].
    rewrite last_insert_last by lia. rewrite Hstopped.
    rewrite bool_decide_eq_true_2 by done. simpl andb.
    assert (Hall : Forall (λ st, stopped (stage_life st) = true)
                     (<[i := stage']> (stages job))).
    { apply Forall_lookup. intros j st Hj.
      destruct (decide (i = j)) as [<-|Hne].
      - rewrite list_lookup_insert_eq in Hj by lia. by injection Hj as <-.
      - rewrite list_lookup_insert_ne in Hj by done.
        apply (Hdone j st); [|done]. apply lookup_lt_Some in Hj. lia. }
    cbn iota. cbn [execute_from]. rewrite cancel_unstopped_stopped by done.
    eexists _, [results]. split; [reflexivity|]. split; [done|]. simpl.
    split; [|split; [done|split; [done|]]].
    + intros [|k] st Hk.
      * rewrite Nat.add_0_r in *. rewrite Hstage in Hk. injection Hk as <-.
        unfold results_of, eager_flag. rewrite decide_True by lia. by rewrite Hrs.
      * apply lookup_lt_Some in Hk. lia.
    + rewrite list_fmap_insert, Hid. apply list_insert_id.
      by rewrite list_lookup_fmap, Hstage.
  - (* a stage before the last *)
    destruct (lookup_lt_is_Some_2 (stages job) i ltac:(lia)) as [stage Hstage].
    destruct (lookup_lt_is_Some_2 (stages job) (pred (length (stages job))) ltac:(lia))
      as [final Hfinal].
    assert (Hlast : last (stages job) = Some final) by (by rewrite last_lookup).
    assert (Hne : stage_id stage ≠ stage_id final).
    { intros Heq.
      assert (i = pred (length (stages job))); [|lia].
      eapply (NoDup_lookup _ _ _ (stage_id stage) Hids).
      - by rewrite list_lookup_fmap, Hstage.
      - by rewrite list_lookup_fmap, Hfinal, Heq. }
    destruct (Hgood i stage ltac:(lia) Hstage true)
      as (stage' & results & Hrs & Hstopped & Hid).
    set (job1 := mkJob (job_life job) (<[i := stage']> (stages job))).
    assert (Hids1 : stage_id <$> stages job1 = stage_id <$> stages job).
    { unfold job1. simpl. rewrite list_fmap_insert, Hid. apply list_insert_id.
      by rewrite list_lookup_fmap, Hstage. }
    destruct (IH (S i) job1 (out ++ [results]))
      as (job' & rest & Hexec & Hrest & Hres & Hlife & Hall & Hids').
    { unfold job1. simpl. rewrite length_insert. lia. }
    { done. }
    { by rewrite Hids1. }
    { intros j st Hj Hst. unfold job1 in Hst. simpl in Hst.
      rewrite list_lookup_insert_ne in Hst by lia. apply (Hgood j st); [lia|done]. }
    { intros j st Hj Hst. unfold job1 in Hst. simpl in Hst.
      destruct (decide (i = j)) as [<-|Hij].
      - rewrite list_lookup_insert_eq in Hst by lia. by injection Hst as <-.
      - rewrite list_lookup_insert_ne in Hst by done. apply (Hdone j st); [lia|done]. }
    rewrite execute_from_S, Hstage, Hrunning, Hlast. cbn zeta.
    rewrite bool_decide_eq_false_2 by done. simpl negb. simpl orb. rewrite Hrs.
    unfold _stage_done. cbn [stages job_life].
    rewrite last_insert_before by lia. rewrite Hlast, Hstopped.
    rewrite bool_decide_eq_false_2 by (by rewrite Hid).
    rewrite andb_false_r. fold job1. rewrite Hexec.
    exists job', (results :: rest). rewrite <- app_assoc. simpl.
    split; [done|]. split; [by rewrite Hrest|].
    split; [|split; [done|split; [done|by rewrite Hids', Hids1]]].
    intros [|k] st Hk.
    + rewrite Nat.add_0_r in *. rewrite Hstage in Hk. injection Hk as <-.
      unfold results_of, eager_flag. rewrite decide_False by lia. by rewrite Hrs.
    + simpl. specialize (Hres k st). unfold job1 in Hres. simpl in Hres.
      rewrite length_insert in Hres. replace (i + S k) with (S i + k) in * by lia.
      apply Hres. by rewrite list_lookup_insert_ne by lia.
Qed.

(** X17: a job whose stages all run to their end. When the job has at
    least one stage, the stage ids are distinct, the job is neither
    stopped nor cancelled, and every stage completes, [Job.execute] hands
    out one result stream per stage, in stage order; every stage but the
    last is run in eager mode whatever the caller asked for, the last one
    in the mode the caller asked for; the job signals start and then,
    once, stop; and all stages are left stopped. *)
Theorem execute_runs_all_stages (job : JobState) :
  stages job ≠ [] →
  NoDup (stage_id <$> stages job) →
  stopped (job_life job) = false →
  cancelled (job_life job) = false →
  (∀ stage, stage ∈ stages job → completes run_stage stage) →
  ∃ job' out,
    execute run_stage eager job = (job', out, None) ∧
    length out = length (stages job) ∧
    (∀ j stage, stages job !! j = Some stage →
       out !! j = Some (results_of run_stage stage
                          (eager_flag eager (length (stages job)) j))) ∧
    signals (job_life job') = signals (job_life job) ++ [Start; Stop] ∧
    stopped (job_life job') = true ∧
    Forall (λ stage, stopped (stage_life stage) = true) (stages job').
Proof.
  intros Hne Hids Hstopped Hcancelled Hgood. unfold execute. cbn [stages].
  destruct (stages job) as [|st sts] eqn:Hstages; [done|].
  set (job0 := mkJob (signal_start (job_life job)) (st :: sts)).
  destruct (execute_from_completes (length sts) 0 job0 [])
    as (job' & rest & Hexec & Hrest & Hres & Hlife & Hall & _).
  - simpl. lia.
  - unfold running. simpl. by rewrite Hstopped, Hcancelled.
  - done.
  - intros j stage _ Hj. apply Hgood. by eapply list_elem_of_lookup_2.
  - intros j stage Hj. lia.
  - simpl length. rewrite Hexec. exists job', rest. simpl.
    split; [done|]. split; [by rewrite Hrest|]. split; [exact Hres|].
    rewrite Hlife. simpl. rewrite <- app_assoc. done.
Qed.

Lemma stage_flag (job : JobState) (i : nat) (stage : Stage) :
  NoDup (stage_id <$> stages job) →
  stages job !! i = Some stage →
  negb (match last (stages job) with
        | Some final => bool_decide (stage_id stage = stage_id final)
        | None => false
        end) || eager
  = eager_flag eager (length (stages job)) i.
Proof.
  intros Hids Hstage. pose proof (lookup_lt_Some _ _ _ Hstage) as Hlt.
  destruct (lookup_lt_is_Some_2 (stages job) (pred (length (stages job))) ltac:(lia))
    as [final Hfinal].
  rewrite last_lookup, Hfinal. unfold eager_flag. case_decide as Hi.
  - replace (pred (length (stages job))) with i in Hfinal by lia.
    rewrite Hstage in Hfinal. injection Hfinal as <-.
    by rewrite bool_decide_eq_true_2.
  - rewrite bool_decide_eq_false_2; [done|]. intros Heq. apply Hi.
    assert (i = pred (length (stages job))); [|lia].
    eapply (NoDup_lookup _ _ _ (stage_id stage) Hids).
    + by rewrite list_lookup_fmap, Hstage.
    + by rewrite list_lookup_fmap, Hfinal, Heq.
Qed.

Lemma stage_done_before (life : Lifecycle) (sts : list Stage) (i : nat)
    (stage stage' : Stage) :
  NoDup (stage_id <$> sts) →
  sts !! i = Some stage →
  S i < length sts →
  stage_id stage' = stage_id stage →
  _stage_done stage' (mkJob life (<[i := stage']> sts)) = mkJob life (<[i := stage']> sts).
Proof.
  intros Hids Hstage Hi Hid. unfold _stage_done. cbn [stages job_life].
  rewrite last_insert_before by done.
  destruct (lookup_lt_is_Some_2 sts (pred (length sts)) ltac:(lia)) as [final Hfinal].
  rewrite last_lookup, Hfinal. rewrite bool_decide_eq_false_2; [by rewrite andb_false_r|].
  rewrite Hid. intros Heq.
  assert (i = pred (length sts)); [|lia].
  eapply (NoDup_lookup _ _ _ (stage_id stage) Hids).
  - by rewrite list_lookup_fmap, Hstage.
  - by rewrite list_lookup_fmap, Hfinal, Heq.
Qed.

Lemma stage_done_stages (stage : Stage) (job : JobState) :
  stages (_stage_done stage job) = stages job.
Proof.
  unfold _stage_done. destruct (last (stages job)); [|done].
  by destruct (stopped (stage_life stage) && _).
Qed.

Lemma execute_from_fails (k : nat) (failing failed : Stage) (e : exn) d :
  ∀ i fuel job out,
  i + d = k →
  length (stages job) = i + fuel →
  running (job_life job) = true →
  NoDup (stage_id <$> stages job) →
  stages job !! k = Some failing →
  run_stage failing (eager_flag eager (length (stages job)) k) = (failed, Raise e) →
  (∀ j stage, i ≤ j < k → stages job !! j = Some stage → completes run_stage stage) →
  ∃ job' rest,
    execute_from run_stage fuel i eager job out = (job', out ++ rest, Some e) ∧
    length rest = d ∧
    (∀ m stage, m < d → stages job !! (i + m) = Some stage →
       rest !! m = Some (results_of run_stage stage true)) ∧
    stopped (job_life job') = true ∧
    last (signals (job_life job')) = Some Stop ∧
    (∀ j stage, k < j → stages job !! j = Some stage →
       stages job' !! j =
         Some (if stopped (stage_life stage) then stage
               else mkStage (stage_id stage) (cancel (stage_life stage)) (tasks stage))).
Proof.
  induction d as [|d IH]; intros i fuel job out Hk Hlen Hrunning Hids Hfailing Hrun Hgood;
    pose proof (lookup_lt_Some _ _ _ Hfailing) as Hlt;
    (destruct fuel as [|fuel]; [lia|]).
  - (* the failing stage *)
    replace i with k in * by lia.
    rewrite execute_from_S, Hfailing, Hrunning. cbn zeta.
    rewrite (stage_flag job k failing Hids Hfailing), Hrun.
    eexists _, []. rewrite app_nil_r. split; [reflexivity|]. split; [done|].
    split; [intros; lia|]. unfold cancel_unstopped. cbn [job_life stages].
    split; [done|]. split; [unfold signal_stop; cbn [signals]; by rewrite last_snoc|].
    intros j stage Hj Hstage.
    rewrite stage_done_stages. cbn [stages].
    rewrite list_lookup_fmap, list_lookup_insert_ne by lia. by rewrite Hstage.
  - (* a stage before it *)
    destruct (lookup_lt_is_Some_2 (stages job) i ltac:(lia)) as [stage Hstage].
    destruct (Hgood i stage ltac:(lia) Hstage
                (eager_flag eager (length (stages job)) i))
      as (stage' & results & Hrs & Hstopped & Hid).
    set (job1 := mkJob (job_life job) (<[i := stage']> (stages job))).
    assert (Hids1 : stage_id <$> stages job1 = stage_id <$> stages job).
    { unfold job1. simpl. rewrite list_fmap_insert, Hid. apply list_insert_id.
      by rewrite list_lookup_fmap, Hstage. }
    destruct (IH (S i) fuel job1 (out ++ [results]))
      as (job' & rest & Hexec & Hrest & Hres & Hstop & Hsig & Hlater).
    { lia. }
    { unfold job1. simpl. rewrite length_insert. lia. }
    { done. }
    { by rewrite Hids1. }
    { unfold job1. simpl. by rewrite list_lookup_insert_ne by lia. }
    { unfold job1. simpl. by rewrite length_insert. }
    { intros j st Hj Hst. unfold job1 in Hst. simpl in Hst.
      rewrite list_lookup_insert_ne in Hst by lia. apply (Hgood j st); [lia|done]. }
    rewrite execute_from_S, Hstage, Hrunning. cbn zeta.
    rewrite (stage_flag job i stage Hids Hstage), Hrs.
    rewrite (stage_done_before _ _ i stage) by (done || lia).
    fold job1. rewrite Hexec.
    exists job', (results :: rest). rewrite <- app_assoc. simpl.
    split; [done|]. split; [by rewrite Hrest|].
    split; [|split; [done|split; [done|]]].
    + intros [|m] st Hm Hst.
      * rewrite Nat.add_0_r in Hst. rewrite Hstage in Hst. injection Hst as <-.
        unfold results_of. simpl. revert Hrs. unfold eager_flag.
        rewrite decide_False by lia. by intros ->.
      * simpl. apply Hres; [lia|]. unfold job1. cbn [stages].
        rewrite list_lookup_insert_ne by lia.
        by replace (S i + m) with (i + S m) by lia.
    + intros j st Hj Hst. apply Hlater; [done|]. unfold job1. simpl.
      by rewrite list_lookup_insert_ne by lia.
Qed.

(** X18: a job with a failing stage. When the stage at index [k] raises
    and the stages before it complete, [Job.execute] hands out the result
    streams of the [k] stages before it, each run in eager mode, and then
    the exception; the job is left stopped, its last signal being stop;
    and the stages after index [k] are never run: each is left as it was,
    cancelled unless it was already stopped. *)
Theorem execute_stops_at_failure (job : JobState) (k : nat)
    (failing failed : Stage) (e : exn) :
  NoDup (stage_id <$> stages job) →
  stopped (job_life job) = false →
  cancelled (job_life job) = false →
  stages job !! k = Some failing →
  run_stage failing (eager_flag eager (length (stages job)) k) = (failed, Raise e) →
  (∀ j stage, j < k → stages job !! j = Some stage → completes run_stage stage) →
  ∃ job' out,
    execute run_stage eager job = (job', out, Some e) ∧
    length out = k ∧
    (∀ j stage, j < k → stages job !! j = Some stage →
       out !! j = Some (results_of run_stage stage true)) ∧
    stopped (job_life job') = true ∧
    last (signals (job_life job')) = Some Stop ∧
    (∀ j stage, k < j → stages job !! j = Some stage →
       stages job' !! j =
         Some (if stopped (stage_life stage) then stage
               else mkStage (stage_id stage) (cancel (stage_life stage)) (tasks stage))).
Proof.
  intros Hids Hstopped Hcancelled Hfailing Hrun Hgood. unfold execute. cbn [stages].
  set (job0 := mkJob (signal_start (job_life job)) (stages job)).
  destruct (execute_from_fails k failing failed e k 0 (length (stages job)) job0 [])
    as (job' & rest & Hexec & Hrest & Hres & Hstop & Hsig & Hlater); try done.
  - unfold running. simpl. by rewrite Hstopped, Hcancelled.
  - intros j stage [_ Hj]. by apply Hgood.
  - rewrite Hexec. by exists job', rest.
Qed.

End JobExecuteFacts.

Lemma execute_runs_all_stages_witness :
  ∃ job' out,
    execute Examples.run_to_end false (mkJob new_lifecycle [Examples.stage_a; Examples.stage_b])
      = (job', out, None) ∧
    length out = 2 ∧
    signals (job_life job') = [Start; Stop].
Proof.
  destruct (execute_runs_all_stages Examples.run_to_end false
              (mkJob new_lifecycle [Examples.stage_a; Examples.stage_b]))
    as (job' & out & H1 & H2 & _ & H3 & _).
  - done.
  - simpl. apply (bool_decide_unpack _). reflexivity.
  - reflexivity.
  - reflexivity.
  - intros stage _ flag. eexists _, _. split; [reflexivity|]. by split.
  - by exists job', out.
Defined.

Lemma execute_stops_at_failure_witness :
  ∃ job' out,
    execute Examples.first_stage_fails true
      (mkJob new_lifecycle [Examples.stage_a; Examples.stage_b])
      = (job', out, Some (InvocationException "stage")) ∧
    out = [] ∧
    stages job' !! 1 =
      Some (mkStage 2 (cancel new_lifecycle) [Examples.t1]).
Proof.
  destruct (execute_stops_at_failure Examples.first_stage_fails true
              (mkJob new_lifecycle [Examples.stage_a; Examples.stage_b])
              0 Examples.stage_a
              (mkStage 1 (signal_stop (cancel (signal_start new_lifecycle))) [Examples.t0])
              (InvocationException "stage"))
    as (job' & out & H1 & H2 & _ & _ & _ & H3).
  - simpl. apply (bool_decide_unpack _). reflexivity.
  - reflexivity.
  - reflexivity.
  - reflexivity.
  - reflexivity.
  - intros j stage Hj. lia.
  - exists job', out. split; [done|]. split; [by destruct out|].
    apply (H3 1 Examples.stage_b); [lia|reflexivity].
Defined.

End JobExtra.

Module NodeExtra.
Import Node.

(** ** Listening *)

Lemma probe_ports_first_free (os : OS) (host : string) (server : Server) (j : nat) :
  ∀ n port last,
  j < n →
  (∀ p, port ≤ p < port + j → ∃ errno, start_server os host p = Raise (OSError errno)) →
  start_server os host (port + j) = Ok server →
  probe_ports os host port n last = Ok (port + j, Some server).
Proof.
  induction j as [|j IH]; intros n port last Hn Hbusy Hfree;
    (destruct n as [|n]; [lia|]); simpl.
  - rewrite Nat.add_0_r in *. by rewrite Hfree.
  - destruct (Hbusy port ltac:(lia)) as [errno ->].
    replace (port + S j) with (S port + j) in * by lia.
    apply IH; [lia| |done]. intros p Hp. apply Hbusy. lia.
Qed.

(** X19: the port probe of [_start_tcp_server]. When binding raises
    [OSError] (with any errno) on the first [j] ports from the configured
    one (5000 when the address names none) and succeeds on the next, with
    [j < 1000], the server is recorded under the address that names the
    port bound: the configured address when that is its port, otherwise
    [tcp://host:port], and then the configured address is dropped from
    the servers. Other addresses, the peers and the files are untouched. *)
Theorem tcp_server_first_free_port (os : OS) (address : string) (parsed : ParseResult)
    (self : NodeState) (j : nat) (server : Server) (placeholder : option Server) :
  let host := hostname parsed in
  let port0 := match port parsed with Some (S p) => S p | _ => 5000 end in
  let bound :=
    if decide (port parsed = Some (port0 + j)) then address
    else "tcp://" +:+ host +:+ ":" +:+ pretty (port0 + j) in
  servers self !! address = Some placeholder →
  j < 1000 →
  (∀ p, port0 ≤ p < port0 + j → ∃ errno, start_server os host p = Raise (OSError errno)) →
  start_server os host (port0 + j) = Ok server →
  ∃ self',
    _start_tcp_server os address parsed self = Ok self' ∧
    servers self' !! bound = Some (Some server) ∧
    (address ≠ bound → servers self' !! address = None) ∧
    (∀ other, other ≠ address → other ≠ bound →
       servers self' !! other = servers self !! other) ∧
    peers self' = peers self ∧
    files self' = files self.
Proof.
  intros host port0 bound Hconfigured Hj Hbusy Hfree.
  unfold _start_tcp_server. fold host port0.
  rewrite (probe_ports_first_free os host server j 1000 port0 port0 Hj Hbusy Hfree).
  simpl. unfold bound. destruct (decide (port parsed = Some (port0 + j))) as [Heq|Hne].
  - rewrite decide_False by (by intros ?).
    eexists. split; [reflexivity|]. simpl.
    split; [by rewrite lookup_insert_eq|]. split; [done|].
    split; [|done]. intros other Ho _. by rewrite lookup_insert_ne.
  - rewrite decide_True by done. rewrite Hconfigured.
    eexists. split; [reflexivity|]. simpl.
    split; [by rewrite lookup_insert_eq|].
    split; [intros Hab; rewrite lookup_insert_ne by done; by rewrite lookup_delete_eq|].
    split; [|done]. intros other Ho Hb.
    rewrite lookup_insert_ne by done. by rewrite lookup_delete_ne.
Qed.

Lemma tcp_server_first_free_port_witness :
  ∃ self',
    _start_tcp_server Examples.one_port_taken "tcp://example:5000"
      (Examples.parse_tcp "tcp://example:5000") Examples.node_listening = Ok self' ∧
    servers self' !! "tcp://example:5001" = Some (Some (TcpServer "example" (S 5000))) ∧
    servers self' !! "tcp://example:5000" = None.
Proof.
  destruct (tcp_server_first_free_port Examples.one_port_taken "tcp://example:5000"
              (Examples.parse_tcp "tcp://example:5000") Examples.node_listening
              1 (TcpServer "example" (S 5000)) None)
    as (self' & H1 & H2 & H3 & _).
  - reflexivity.
  - lia.
  - intros p Hp. exists EADDRINUSE. simpl in *.
    replace p with 5000 by lia. reflexivity.
  - reflexivity.
  - exists self'. split; [exact H1|]. split; [exact H2|]. by apply H3.
Defined.

(** ** Connections *)

(** X20: what [_peer_connected] can do. When it returns, the connection
    was either installed ([True] is returned: the peer is the entry under
    its name and one notification task was created for it) or turned away
    (the bare [return]: the peer is disconnected, the table and the tasks
    are as they were). In both cases entries under other names, the
    servers and the files are untouched, and a table that holds each peer
    under its own name still does. *)
Theorem peer_connected_outcome (peer : PeerNode) (self self' : NodeState)
    (ret : option bool) :
  _peer_connected peer self = Ok (ret, self') →
  ((ret = Some true ∧
    peers self' !! name peer = Some peer ∧
    _iotasks self' = _iotasks self ++ [peer]) ∨
   (ret = None ∧
    peers self' = peers self ∧
    _iotasks self' = _iotasks self ∧
    ∃ reason, disconnected self' = disconnected self ++ [(peer, reason)])) ∧
  (∀ key, key ≠ name peer → peers self' !! key = peers self !! key) ∧
  servers self' = servers self ∧
  files self' = files self ∧
  (keyed self → keyed self').
Proof.
  unfold _peer_connected. intros Hrun.
  assert (Hinstall : ∀ s, peers s = peers self ∨ peers s = delete (name peer) (peers self) →
            keyed self → keyed (install peer s)).
  { intros s Hs Hkeyed key p. simpl.
    destruct (decide (key = name peer)) as [->|Hkey].
    - rewrite lookup_insert_eq. by intros [= ->].
    - rewrite lookup_insert_ne by done. destruct Hs as [-> | ->].
      + apply Hkeyed.
      + rewrite lookup_delete_ne by done. apply Hkeyed. }
  destruct (peers self !! name peer) as [known|] eqn:Hknown.
  - destruct (is_connected peer); [|done].
    destruct (decide (node_name self = name peer)).
    + injection Hrun as <- <-. simpl. split; [right; eauto|]. done.
    + destruct (is_connected known && peer_lt known peer).
      * injection Hrun as <- <-. simpl. split; [right; eauto|]. done.
      * injection Hrun as <- <-. split; [left|split; [|split; [done|split; [done|]]]].
        -- simpl. by rewrite lookup_insert_eq.
        -- intros key Hkey. simpl. rewrite lookup_insert_ne by done.
           by rewrite lookup_delete_ne.
        -- apply Hinstall. by right.
  - injection Hrun as <- <-. split; [left|split; [|split; [done|split; [done|]]]].
    + simpl. by rewrite lookup_insert_eq.
    + intros key Hkey. simpl. by rewrite lookup_insert_ne.
    + apply Hinstall. by left.
Qed.

Lemma peer_connected_outcome_witness :
  ∃ self',
    _peer_connected Examples.new_r Examples.node_n = Ok (None, self') ∧
    peers self' = peers Examples.node_n ∧
    keyed self'.
Proof.
  destruct (peer_connected_outcome Examples.new_r Examples.node_n
              (disconnect Examples.new_r "already connected, old connection wins"
                 Examples.node_n) None eq_refl)
    as ([(Hret & _) | (_ & Hpeers & _)] & _ & _ & _ & Hkeyed); [done|].
  eexists. split; [reflexivity|]. split; [exact Hpeers|].
  apply Hkeyed. intros key p Hp. simpl in Hp.
  apply lookup_singleton_Some in Hp as [<- <-]. reflexivity.
Defined.

(** X21: a record that is no longer connected never wins. When the known
    record under the peer's name is not connected, the new connection is
    installed whatever the tiebreak keys are: the known record is
    disconnected with the reason "already connected, new connection wins"
    and the new peer takes its place. *)
Theorem stale_record_replaced (peer known : PeerNode) (self : NodeState) :
  node_name self ≠ name peer →
  peers self !! name peer = Some known →
  is_connected known = false →
  is_connected peer = true →
  ∃ self',
    _peer_connected peer self = Ok (Some true, self') ∧
    peers self' !! name peer = Some peer ∧
    disconnected self'
      = disconnected self ++ [(known, "already connected, new connection wins")] ∧
    _iotasks self' = _iotasks self ++ [peer].
Proof.
  intros Hself Hknown Hstale Hconnected. unfold _peer_connected.
  rewrite Hknown, Hconnected, Hstale. rewrite decide_False by done. simpl.
  eexists. split; [reflexivity|]. simpl. by rewrite lookup_insert_eq.
Qed.

Lemma stale_record_replaced_witness :
  peer_lt Examples.stale_r Examples.new_r = true ∧
  ∃ self',
    _peer_connected Examples.new_r Examples.node_stale = Ok (Some true, self') ∧
    peers self' !! "R" = Some Examples.new_r.
Proof.
  split; [reflexivity|].
  destruct (stale_record_replaced Examples.new_r Examples.stale_r Examples.node_stale)
    as (self' & H1 & H2 & _); [done..|].
  by exists self'.
Defined.

(** ** Discovery notifications *)

Section Notify.
Context (shuffle : list PeerNode → list PeerNode).

(** X22: who is told what. In the notifications that [_notifiy_peers]
    sends, nobody is told about a peer that carries their own name; and
    the new peer is told at most once, before everybody else, about the
    peers of the (shuffled) table whose name is not its own. *)
Theorem notify_nobody_about_themselves (new_peer : PeerNode) (self : NodeState) :
  let sent := _notifiy_peers shuffle new_peer self in
  (∀ recipient named peer,
     (recipient, named) ∈ sent → peer ∈ named → name peer ≠ name recipient) ∧
  (∀ i named,
     sent !! i = Some (new_peer, named) →
     i = 0 ∧
     named = filter (λ peer, name peer ≠ name new_peer) (shuffle (current_peers self))).
Proof.
  unfold _notifiy_peers.
  set (peer_list := filter (λ peer, name peer ≠ name new_peer)
                      (shuffle (current_peers self))).
  assert (Hothers : ∀ peer, peer ∈ peer_list → name peer ≠ name new_peer).
  { intros peer Hpeer. by apply list_elem_of_filter in Hpeer as [? _]. }
  assert (Hfan : ∀ recipient named,
            (recipient, named) ∈ (λ peer, (peer, [new_peer])) <$> peer_list →
            recipient ∈ peer_list ∧ named = [new_peer]).
  { intros recipient named Hin.
    apply list_elem_of_fmap in Hin as (peer & [= -> ->] & Hpeer). done. }
  simpl. split.
  - intros recipient named peer Hsent Hnamed.
    apply elem_of_app in Hsent as [Hfirst | Hrest].
    + destruct peer_list as [|first rest] eqn:Hlist; [by apply elem_of_nil in Hfirst|].
      apply list_elem_of_singleton in Hfirst as [= -> ->]. by apply Hothers.
    + apply Hfan in Hrest as [Hrecipient ->].
      apply list_elem_of_singleton in Hnamed as ->.
      intros Heq. by apply (Hothers recipient).
  - intros i named Hi.
    destruct peer_list as [|first rest] eqn:Hlist.
    + simpl in Hi. by rewrite lookup_nil in Hi.
    + destruct i as [|i]; [by injection Hi as <-|].
      simpl in Hi. apply list_elem_of_lookup_2, Hfan in Hi as [Hin _].
      by apply Hothers in Hin.
Qed.

Lemma current_peers_NoDup (self : NodeState) :
  keyed self → NoDup (current_peers self).
Proof.
  intros Hkeyed. unfold current_peers. apply NoDup_fmap_2_strong.
  - intros [k1 p1] [k2 p2] H1%elem_of_map_to_list H2%elem_of_map_to_list. simpl.
    intros <-. by rewrite <- (Hkeyed _ _ H1), <- (Hkeyed _ _ H2).
  - apply NoDup_map_to_list.
Qed.

Lemma filter_recipient_absent (payload : list PeerNode) (peer : PeerNode)
    (l : list PeerNode) :
  peer ∉ l →
  filter (λ sent : PeerNode * list PeerNode, sent.1 = peer)
         ((λ peer, (peer, payload)) <$> l) = [].
Proof.
  induction l as [|a l IH]; [done|]. intros Hnot.
  apply not_elem_of_cons in Hnot as [Hne Hnot]. rewrite fmap_cons.
  rewrite filter_cons_False by (simpl; congruence). by apply IH.
Qed.

Lemma filter_recipient_once (payload : list PeerNode) (peer : PeerNode)
    (l : list PeerNode) :
  NoDup l → peer ∈ l →
  filter (λ sent : PeerNode * list PeerNode, sent.1 = peer)
         ((λ peer, (peer, payload)) <$> l) = [(peer, payload)].
Proof.
  induction 1 as [|a l Hnot Hnodup IH]; [by intros ?%elem_of_nil|].
  intros Hin. rewrite fmap_cons. destruct (decide (a = peer)) as [->|Hne].
  - rewrite filter_cons_True by done. by rewrite filter_recipient_absent.
  - rewrite filter_cons_False by done. apply IH.
    apply elem_of_cons in Hin as [->|Hin]; done.
Qed.

(** X23: every other peer hears of the new one exactly once. When
    [random.shuffle] permutes its list and the table holds each peer under
    its own name, a peer of the table whose name is not the new peer's is
    sent exactly one notification, and it names the new peer only. *)
Theorem notify_each_peer_once (new_peer peer : PeerNode) (key : string)
    (self : NodeState) :
  (∀ l, shuffle l ≡ₚ l) →
  keyed self →
  peers self !! key = Some peer →
  name peer ≠ name new_peer →
  filter (λ sent : PeerNode * list PeerNode, sent.1 = peer)
         (_notifiy_peers shuffle new_peer self)
  = [(peer, [new_peer])].
Proof.
  intros Hshuffle Hkeyed Hpeer Hname. unfold _notifiy_peers.
  set (peer_list := filter (λ peer, name peer ≠ name new_peer)
                      (shuffle (current_peers self))).
  assert (Hin : peer ∈ peer_list).
  { apply list_elem_of_filter. split; [done|]. rewrite Hshuffle.
    apply list_elem_of_fmap. exists (key, peer). split; [done|].
    by apply elem_of_map_to_list. }
  assert (Hnodup : NoDup peer_list).
  { apply NoDup_filter. rewrite Hshuffle. by apply current_peers_NoDup. }
  simpl. rewrite filter_app, (filter_recipient_once _ _ _ Hnodup Hin).
  destruct peer_list; [done|].
  rewrite filter_cons_False; [done|]. simpl. by intros <-.
Qed.

End Notify.

Lemma notify_each_peer_once_witness :
  filter (λ sent : PeerNode * list PeerNode, sent.1 = Examples.w0)
         (_notifiy_peers reverse Examples.w1 Examples.node_two)
  = [(Examples.w0, [Examples.w1])].
Proof.
  apply (notify_each_peer_once reverse Examples.w1 Examples.w0 "w0" Examples.node_two).
  - intros l. apply reverse_Permutation.
  - intros key p Hp. simpl in Hp.
    apply lookup_insert_Some in Hp as [[<- <-]|[_ Hp]]; [reflexivity|].
    apply lookup_singleton_Some in Hp as [<- <-]. reflexivity.
  - reflexivity.
  - simpl. discriminate.
Defined.

(** ** Stopping and starting *)

Lemma stop_removes_socket (os : OS) (self : NodeState) (address : string)
    (server : Server) :
  servers self !! address = Some (Some server) →
  scheme (urlparse os address) = "unix" →
  path (urlparse os address) ∉ files (stop os self).1.
Proof.
  intros Hserver Hunix. simpl.
  apply not_elem_of_difference. right. apply elem_of_list_to_set.
  unfold unix_paths. apply list_elem_of_omap. exists (address, Some server).
  split; [by apply elem_of_map_to_list|]. simpl. by rewrite decide_True.
Qed.

(** X24: what [stop] leaves behind. The peer table is empty and every
    peer it held has been disconnected; the servers stay recorded under
    their addresses; of the socket files, those of the UNIX servers that
    were up are gone and no file is added; and the tasks cancelled are
    the node's I/O tasks. *)
Theorem stop_cleans_up (os : OS) (self : NodeState) :
  let self' := (stop os self).1 in
  peers self' = ∅ ∧
  (∀ key peer, peers self !! key = Some peer →
     ∃ reason, (peer, reason) ∈ disconnected self') ∧
  servers self' = servers self ∧
  (∀ address server,
     servers self !! address = Some (Some server) →
     scheme (urlparse os address) = "unix" →
     path (urlparse os address) ∉ files self') ∧
  files self' ⊆ files self ∧
  (stop os self).2 = _iotasks self.
Proof.
  simpl. split; [done|]. split; [|split; [done|split; [|split; [|done]]]].
  - intros key peer Hpeer. exists "". apply elem_of_app. right.
    apply list_elem_of_fmap. exists peer. split; [done|].
    apply list_elem_of_fmap. exists (key, peer). split; [done|].
    by apply elem_of_map_to_list.
  - intros address server. apply stop_removes_socket.
  - intros file Hfile. by apply elem_of_difference in Hfile as [? _].
Qed.

(** X25: a UNIX server started and stopped leaves no socket file. After
    [_start_unix_server] succeeded for an address of scheme [unix], the
    server is recorded under the address and its socket file exists; after
    [stop] the file is gone. *)
Theorem unix_server_stop_round_trip (os : OS) (address : string)
    (self self' : NodeState) :
  let parsed := urlparse os address in
  scheme parsed = "unix" →
  _start_unix_server os address parsed self = Ok self' →
  (∃ server, servers self' !! address = Some (Some server)) ∧
  path parsed ∈ files self' ∧
  path parsed ∉ files (stop os self').1.
Proof.
  intros parsed Hunix Hstart. unfold _start_unix_server in Hstart.
  destruct (start_unix_server os (path parsed)) as [server|e] eqn:Hserver; [|done].
  simpl in Hstart. injection Hstart as <-.
  assert (Hup : servers
                  (mkNode (node_name self) (<[address := Some server]> (servers self))
                     (peers self) (files self ∖ {[path parsed]} ∪ {[path parsed]})
                     (disconnected self) (_iotasks self)) !! address
                = Some (Some server)) by (simpl; by rewrite lookup_insert_eq).
  split; [by exists server|]. split; [simpl; set_solver|].
  by apply (stop_removes_socket os _ address server).
Qed.

Lemma unix_server_stop_round_trip_witness :
  ∃ self',
    _start_unix_server Examples.unix_os "unix:///tmp/bndl.socket"
      (Examples.parse_unix "unix:///tmp/bndl.socket") Examples.node_unix = Ok self' ∧
    "/tmp/bndl.socket" ∈ files self' ∧
    "/tmp/bndl.socket" ∉ files (stop Examples.unix_os self').1.
Proof.
  eexists. split; [reflexivity|].
  apply (unix_server_stop_round_trip Examples.unix_os "unix:///tmp/bndl.socket"
           Examples.node_unix _ eq_refl eq_refl).
Defined.

Lemma start_server_binds (os : OS) (address : string) (self : NodeState) :
  binds os address →
  ∃ self' server,
    _start_server os address self = Ok self' ∧
    servers self' = <[address := Some server]> (servers self) ∧
    peers self' = peers self.
Proof.
  unfold binds, _start_server. cbv zeta.
  intros [(Hunix & server & Hserver) | (Htcp & p & server & Hport & Hserver)].
  - rewrite decide_False by (rewrite Hunix; discriminate).
    rewrite decide_True by done. unfold _start_unix_server. rewrite Hserver.
    by eexists _, server.
  - rewrite decide_True by done. unfold _start_tcp_server. rewrite Hport.
    simpl. rewrite Hserver. simpl. rewrite decide_False by (by intros ?).
    by eexists _, server.
Qed.

Lemma start_servers_binds (os : OS) (addresses : list string) : ∀ self,
  Forall (binds os) addresses →
  ∃ self',
    start_servers os addresses self = Ok self' ∧
    peers self' = peers self ∧
    (∀ address, address ∈ addresses →
       ∃ server, servers self' !! address = Some (Some server)) ∧
    (∀ address, address ∉ addresses →
       servers self' !! address = servers self !! address).
Proof.
  induction addresses as [|address rest IH]; intros self Hall.
  - exists self. split; [done|]. split; [done|].
    split; [by intros address ?%elem_of_nil|done].
  - apply Forall_cons in Hall as [Hbinds Hrest].
    destruct (start_server_binds os address self Hbinds)
      as (self1 & server & Hstart & Hservers & Hpeers).
    destruct (IH self1 Hrest) as (self' & Hrun & Hpeers' & Hup & Hframe).
    exists self'. simpl. rewrite Hstart. simpl.
    split; [done|]. split; [congruence|]. split.
    + intros a Ha. destruct (decide (a ∈ rest)) as [Hin|Hnot]; [by apply Hup|].
      apply elem_of_cons in Ha as [->|Ha]; [|done].
      exists server. by rewrite Hframe, Hservers, lookup_insert_eq.
    + intros a Ha. apply not_elem_of_cons in Ha as [Hne Hnot].
      by rewrite Hframe, Hservers, lookup_insert_ne.
Qed.

(** X26: [start] on a node whose addresses all bind where they are
    configured. When [addresses] lists the keys of the servers, and each
    is a UNIX path that can be bound or a TCP address whose port is free,
    [start] succeeds; afterwards the servers have the same addresses and
    each has a server that is up (no placeholder is left), the peers are
    untouched, and a connection is opened to exactly the seeds that are
    not among the node's addresses, in seed order. *)
Theorem start_brings_servers_up (os : OS) (addresses seeds : list string)
    (self : NodeState) :
  (∀ address, address ∈ addresses ↔ is_Some (servers self !! address)) →
  Forall (binds os) addresses →
  ∃ self',
    start os addresses seeds self
      = Ok (self', filter (λ seed, seed ∉ addresses) seeds) ∧
    (∀ address, is_Some (servers self' !! address) ↔ address ∈ addresses) ∧
    (∀ address, address ∈ addresses →
       ∃ server, servers self' !! address = Some (Some server)) ∧
    peers self' = peers self.
Proof.
  intros Hkeys Hall.
  destruct (start_servers_binds os addresses self Hall)
    as (self' & Hrun & Hpeers & Hup & Hframe).
  assert (Hdom : ∀ address, is_Some (servers self' !! address) ↔ address ∈ addresses).
  { intros address. split.
    - intros Hsome. destruct (decide (address ∈ addresses)) as [|Hnot]; [done|].
      rewrite Hframe in Hsome by done. by apply Hkeys.
    - intros Hin. destruct (Hup address Hin) as [server ->]. by eexists. }
  exists self'. unfold start. rewrite Hrun. simpl.
  split; [|done]. do 2 f_equal. apply list_filter_iff. intros seed.
  rewrite <- Hdom. by rewrite eq_None_not_Some.
Qed.

Lemma start_brings_servers_up_witness :
  ∃ self',
    start Examples.unix_os ["unix:///tmp/bndl.socket"]
      ["unix:///tmp/bndl.socket"; "tcp://seed:5000"] Examples.node_unix
      = Ok (self', ["tcp://seed:5000"]) ∧
    servers self' !! "unix:///tmp/bndl.socket"
      = Some (Some (UnixServer "/tmp/bndl.socket")).
Proof.
  destruct (start_brings_servers_up Examples.unix_os ["unix:///tmp/bndl.socket"]
              ["unix:///tmp/bndl.socket"; "tcp://seed:5000"] Examples.node_unix)
    as (self' & Hstart & _).
  - intros address. simpl. rewrite list_elem_of_singleton. split.
    + intros ->. by rewrite lookup_singleton_eq.
    + intros [server Hs]. by apply lookup_singleton_Some in Hs as [<- _].
  - apply Forall_cons. split; [|apply Forall_nil_2].
    left. split; [reflexivity|]. by eexists.
  - exists self'. split; [exact Hstart|].
    unfold start in Hstart. simpl in Hstart. by injection Hstart as <-.
Defined.

End NodeExtra.
